(** * Polling-cache-refresh subsystem of the dashboard backend

    A shallow embedding of the controllers and services of
    [backend-dashboard] (status, ranking and company controllers, the TTL
    cache service, the photo service and the Argus service) together with
    the properties of the specification that concern them.

    Conventions of the embedding.
    - Times are milliseconds since the epoch, in [Z] ([Date.now()]).
    - A JavaScript [Map] or [Set] is a [gmap] or a [gset]; a [Map] whose
      iteration order matters is an association list in insertion order.
    - An [async] function is cut at its [await]s: what the awaited
      operation (a database query, an HTTP request) answers is an input of
      the model, and the code between two [await]s runs as one step, as it
      does on the event loop.
    - Strings are byte strings; [toLowerCase] and [trim] are the ASCII
      fragments of the JavaScript functions.
    - Numeric settings read with [parseInt] are taken to be integers;
      the amounts [getSalesTodayForVendedorIds] adds are doubles, and
      where amounts are only compared and copied they are integers. *)

From Corelib Require Import PrimFloat.
From Stdlib Require Import ZArith Lia Ascii String List Sorting.Sorted.
From stdpp Require Import base option list gmap strings numbers sorting pretty.

Local Open Scope Z_scope.

(** ** JavaScript string primitives (ASCII fragment) *)

Module Js.

Definition is_upper (c : ascii) : bool :=
  let n := N_of_ascii c in ((65 <=? n) && (n <=? 90))%N.

Definition lower_char (c : ascii) : ascii :=
  if is_upper c then ascii_of_N (N_of_ascii c + 32) else c.

(** [String.prototype.toLowerCase] *)
Fixpoint toLowerCase (s : string) : string :=
  match s with
  | EmptyString => EmptyString
  | String c r => String (lower_char c) (toLowerCase r)
  end.

(** White space and line terminators removed by [trim]: TAB, LF, VT, FF,
    CR and SPACE. *)
Definition is_white (c : ascii) : bool :=
  let n := N_of_ascii c in (((9 <=? n) && (n <=? 13)) || (n =? 32))%N.

Fixpoint trimStart (s : string) : string :=
  match s with
  | EmptyString => EmptyString
  | String c r => if is_white c then trimStart r else s
  end.

(** [trimEnd] keeps a character when it is not white or when something
    that is kept follows it. *)
Fixpoint trimEnd (s : string) : string :=
  match s with
  | EmptyString => EmptyString
  | String c r =>
      match trimEnd r with
      | EmptyString => if is_white c then EmptyString else String c EmptyString
      | r' => String c r'
      end
  end.

(** [String.prototype.trim] *)
Definition trim (s : string) : string := trimEnd (trimStart s).

(** [s.startsWith(p)] *)
Fixpoint startsWith (p s : string) : bool :=
  match p, s with
  | EmptyString, _ => true
  | String a p', String b s' => Ascii.eqb a b && startsWith p' s'
  | String _ _, EmptyString => false
  end.

(** [s.includes(p)] *)
Fixpoint includes (p s : string) : bool :=
  startsWith p s ||
  match s with
  | EmptyString => false
  | String _ s' => includes p s'
  end.

(** [s.endsWith(p)] *)
Fixpoint endsWith (p s : string) : bool :=
  if String.eqb p s then true
  else match s with
       | EmptyString => false
       | String _ s' => endsWith p s'
       end.

(** Whether every character of [s] passes [f]. *)
Fixpoint all_chars (f : ascii → bool) (s : string) : bool :=
  match s with
  | EmptyString => true
  | String c r => f c && all_chars f r
  end.

(** [s] without its first [n] characters. *)
Fixpoint drop_chars (n : nat) (s : string) : string :=
  match n, s with
  | O, _ => s
  | S n', String _ r => drop_chars n' r
  | S _, EmptyString => EmptyString
  end.

(** [s] without its longest prefix of characters that pass [f]. *)
Fixpoint skip_while (f : ascii → bool) (s : string) : string :=
  match s with
  | EmptyString => EmptyString
  | String c r => if f c then skip_while f r else s
  end.

Definition is_digit (c : ascii) : bool :=
  let n := N_of_ascii c in ((48 <=? n) && (n <=? 57))%N.

Definition is_lower (c : ascii) : bool :=
  let n := N_of_ascii c in ((97 <=? n) && (n <=? 122))%N.

(** [[a-zA-Z]] *)
Definition is_letter (c : ascii) : bool := is_upper c || is_lower c.

(** The class [\w] of regular expressions. *)
Definition is_word (c : ascii) : bool :=
  is_letter c || is_digit c || (N_of_ascii c =? 95)%N.

(** Truthiness of a string: every string but the empty one. *)
Definition truthy (s : string) : bool := negb (String.eqb s "").

(** Whether an optional value is there (not [null]). *)
Definition present {A} (o : option A) : bool :=
  match o with Some _ => true | None => false end.

(** [a || b] on strings. *)
Definition or_else (a b : string) : string := if truthy a then a else b.

(** [x || 0] on a number: [NaN], [0] and [-0] are falsy. *)
Definition or_zero (x : float) : float :=
  if PrimFloat.is_nan x || PrimFloat.eqb x 0%float then 0%float else x.

(** [arr.join(sep)] on an array of strings. *)
Fixpoint join (sep : string) (l : list string) : string :=
  match l with
  | [] => ""
  | x :: rest =>
      match rest with
      | [] => x
      | _ :: _ => x +:+ sep +:+ join sep rest
      end
  end.

(** [s.split(sep)] for a separator of one character: never an empty
    array. *)
Fixpoint split (sep : ascii) (s : string) : list string :=
  match s with
  | EmptyString => [""]
  | String c r =>
      if Ascii.eqb c sep then "" :: split sep r
      else match split sep r with
           | h :: t => String c h :: t
           | [] => [String c ""]
           end
  end.

(** [s.replace(/[...]/g, '')]: [s] without the characters of the class
    [f]. *)
Fixpoint remove_chars (f : ascii → bool) (s : string) : string :=
  match s with
  | EmptyString => EmptyString
  | String c r => if f c then remove_chars f r else String c (remove_chars f r)
  end.

(** [s.replace(/'/g, "''")] *)
Fixpoint double_quotes (s : string) : string :=
  match s with
  | EmptyString => EmptyString
  | String c r =>
      if Ascii.eqb c "'" then String "'" (String "'" (double_quotes r))
      else String c (double_quotes r)
  end.

(** [arr.slice(start, end)]: a negative index counts from the end. *)
Definition slice {A} (start end_ : Z) (l : list A) : list A :=
  let len := Z.of_nat (length l) in
  let norm (x : Z) := if x <? 0 then Z.max (len + x) 0 else Z.min x len in
  take (Z.to_nat (norm end_ - norm start)) (drop (Z.to_nat (norm start)) l).

(** An [Error] value: its [name] and [message]. *)
Record error := Error { err_name : string; err_message : string }.

(** [String(err)], that is [Error.prototype.toString]. *)
Definition error_to_string (e : error) : string :=
  if negb (truthy (err_name e)) then err_message e
  else if negb (truthy (err_message e)) then err_name e
  else err_name e +:+ ": " +:+ err_message e.

(** [new Error(msg)] *)
Definition mkError (msg : string) : error := Error "Error" msg.

(** How a promise settles. *)
Inductive settled (A : Type) :=
| Resolved (a : A)
| Rejected (e : error).
Arguments Resolved {A} a.
Arguments Rejected {A} e.

End Js.

(** ** config/db.js, as its callers see it *)

Module Db.

(** What [await getLocalPool()] and [await getCloudPool()] answer: a
    pool, [null], or a rejection. *)
Inductive pool_outcome :=
| PoolOk
| PoolNull
| PoolThrows (e : Js.error).

(** The rejection of [createPoolWithRetry] when the server cannot be
    reached. *)
Definition unreachable : pool_outcome :=
  PoolThrows (Js.mkError "Não foi possível conectar colaboradores: timeout").

(** How the server reads a string literal, from the character after its
    opening quote: the text of the literal and what follows its closing
    quote.  Two quotes in a row stand for one quote of the text, a quote
    alone closes the literal; [None] when the literal is not closed. *)
Fixpoint read_literal (s : string) : option (string * string) :=
  match s with
  | EmptyString => None
  | String c r =>
      if Ascii.eqb c "'" then
        match r with
        | String c' r' =>
            if Ascii.eqb c' "'" then
              match read_literal r' with
              | Some (text, rest) => Some (String "'" text, rest)
              | None => None
              end
            else Some (EmptyString, r)
        | EmptyString => Some (EmptyString, EmptyString)
        end
      else
        match read_literal r with
        | Some (text, rest) => Some (String c text, rest)
        | None => None
        end
  end.

(** How the server reads the list of an [IN (...)]: literals separated
    by commas, one at least; [fuel] bounds the number of literals. *)
Fixpoint read_list (fuel : nat) (s : string) : option (list string) :=
  match fuel with
  | O => None
  | S fuel' =>
      match s with
      | String c r =>
          if Ascii.eqb c "'" then
            match read_literal r with
            | Some (text, EmptyString) => Some [text]
            | Some (text, String c' rest) =>
                if Ascii.eqb c' "," then
                  match read_list fuel' rest with
                  | Some l => Some (text :: l)
                  | None => None
                  end
                else None
            | None => None
            end
          else None
      | EmptyString => None
      end
  end.

End Db.

(** ** controllers/statusController.js *)

Module StatusController.
Import Db.

(** One normalised operator of the payload. *)
Record operador := Operador {
  op_nome : string;
  op_equipe : string;
  op_descricaoStatus : string;
  op_tempoStatus : Z;
  op_ramal : option string;
  op_usuario_id : option string;
  op_updated_at : option string
}.

(** The JSON payload of [GET /api/status-operadores].  The payload sent
    when nothing is cached and the read fails has neither [horario_atual]
    nor [total]. *)
Record payload := Payload {
  operadores : list operador;
  horario_atual : option Z;
  total : option Z;
  totalActive : Z;
  logados : Z;
  logados_total : Z
}.

(** The module-level [state] object. *)
Record state := State {
  cache_data : option payload;
  cache_ts : Z;
  isFetching : bool;
  failCount : nat;
  nextAllowedAt : Z;
  lastError : option Js.error;
  _argusAuthFailed : bool;
  _colsCache : gmap string (gset string)
}.

Definition initial_state : state :=
  State None 0 false 0 0 None false ∅.

Definition set_cache (d : option payload) (ts : Z) (s : state) : state :=
  State d ts (isFetching s) (failCount s) (nextAllowedAt s) (lastError s)
        (_argusAuthFailed s) (_colsCache s).

Definition set_isFetching (b : bool) (s : state) : state :=
  State (cache_data s) (cache_ts s) b (failCount s) (nextAllowedAt s)
        (lastError s) (_argusAuthFailed s) (_colsCache s).

Definition set_lastError (e : Js.error) (s : state) : state :=
  State (cache_data s) (cache_ts s) (isFetching s) (failCount s)
        (nextAllowedAt s) (Some e) (_argusAuthFailed s) (_colsCache s).

Definition set_argusAuthFailed (b : bool) (s : state) : state :=
  State (cache_data s) (cache_ts s) (isFetching s) (failCount s)
        (nextAllowedAt s) (lastError s) b (_colsCache s).

Definition set_cols (t : string) (c : gset string) (s : state) : state :=
  State (cache_data s) (cache_ts s) (isFetching s) (failCount s)
        (nextAllowedAt s) (lastError s) (_argusAuthFailed s)
        (<[t := c]> (_colsCache s)).

(** The settings read from the environment when the module loads. *)
Record config := Config {
  ARGUS_CONCURRENCY : Z;
  ARGUS_RETRY : Z;
  STATUS_CACHE_MS : Z;
  ARGUS_TOKEN : option string;
  LOG_EMPRESA : string;
  LOG_EQUIPES : list string;
  TABELA_COLAB : string;
  TABELA_STATUS : string
}.

(** [ms(s)] *)
Definition ms (s : Z) : Z := s * 1000.

(** [findFirst(colsSet, candidates)]: [colsSet] holds lower-cased column
    names. *)
Fixpoint findFirst (colsSet : gset string) (candidates : list string) : option string :=
  match candidates with
  | [] => None
  | c :: rest =>
      if decide (Js.toLowerCase c ∈ colsSet) then Some c
      else findFirst colsSet rest
  end.

(** [resetBackoff()] *)
Definition resetBackoff (s : state) : state :=
  State (cache_data s) (cache_ts s) (isFetching s) 0%nat 0
        (lastError s) (_argusAuthFailed s) (_colsCache s).

(** [delaySec] of [increaseBackoff], from the count already increased. *)
Definition delaySec (fc : nat) : Z :=
  Z.min (15 * 2 ^ (Z.of_nat fc - 1)) 300.

(** [increaseBackoff()]; [now] is what [Date.now()] answers inside it. *)
Definition increaseBackoff (now : Z) (s : state) : state :=
  let fc := Nat.min (failCount s + 1) 6 in
  State (cache_data s) (cache_ts s) (isFetching s) fc (now + ms (delaySec fc))
        (lastError s) (_argusAuthFailed s) (_colsCache s).

(** *** The Argus client *)

Record status_operador := StatusOperador {
  so_descricaoStatus : string;
  so_tempoStatus : Z
}.

(** The body of an Argus answer; [codStatus] is [0] when the field is
    absent. *)
Record argus_body := ArgusBody {
  codStatus : Z;
  statusOperador : option status_operador
}.

(** What [axios.get] answers: it rejects (network error, timeout) or
    resolves with a status and a body ([None] for a falsy body). *)
Inductive http_outcome :=
| NetError
| Response (status : Z) (data : option argus_body).

Record argus_result := ArgusResult {
  ar_ramal : string;
  ar_descricaoStatus : string;
  ar_tempoStatusSegundos : Z
}.

Definition has_token (cfg : config) : bool :=
  match ARGUS_TOKEN cfg with
  | Some t => Js.truthy t
  | None => false
  end.

(** How one turn of the retry loop ends: the function returns, with the
    403 flag raised or not, or the loop goes on to the next attempt. *)
Inductive attempt_end :=
| Return (r : option argus_result) (auth_failed : bool)
| Continue.

Definition classify (cfg : config) (ramal : string) (attempt : Z)
    (o : http_outcome) : attempt_end :=
  match o with
  | NetError =>
      if attempt <? ARGUS_RETRY cfg then Continue else Return None false
  | Response st d =>
      match (st =? 200), d with
      | true, Some body =>
          if negb (codStatus body =? 0) && negb (codStatus body =? 1)
          then Return None false
          else
            let so := default (StatusOperador "" 0) (statusOperador body) in
            Return (Some (ArgusResult ramal (so_descricaoStatus so)
                            (so_tempoStatus so / 1000))) false
      | _, _ =>
          if st =? 403 then Return None true
          else if st =? 400 then Return None false
          else if 500 <=? st then
            (if attempt <? ARGUS_RETRY cfg then Continue else Return None false)
          else Continue
      end
  end.

(** The loop [for (attempt = 0; attempt <= ARGUS_RETRY; attempt++)];
    [fuel] is the number of turns left and [resps n] is what the network
    answers to attempt [n].  The last component counts the requests
    sent. *)
Fixpoint attempts (cfg : config) (ramal : string) (resps : nat → http_outcome)
    (fuel attempt : nat) : option argus_result * bool * nat :=
  match fuel with
  | O => (None, false, O)
  | S fuel' =>
      match classify cfg ramal (Z.of_nat attempt) (resps attempt) with
      | Return r a => (r, a, 1%nat)
      | Continue =>
          let '(r, a, n) := attempts cfg ramal resps fuel' (S attempt) in
          (r, a, S n)
      end
  end.

(** [fetchArgusForRamal(ramal)]: the result, the state afterwards and
    the number of network requests made. *)
Definition fetchArgusForRamal (cfg : config) (ramal : string)
    (resps : nat → http_outcome) (s : state) : option argus_result * state * nat :=
  if negb (has_token cfg) || negb (Js.truthy ramal) then (None, s, O)
  else if _argusAuthFailed s then (None, s, O)
  else
    let '(r, a, n) := attempts cfg ramal resps (Z.to_nat (ARGUS_RETRY cfg + 1)) 0 in
    (r, if a then set_argusAuthFailed true s else s, n).

(** *** Column detection *)

(** [detectColumns(pool, fullTableName)] for a pool that is there;
    [info] is the answer of INFORMATION_SCHEMA, [None] when the query
    rejects. *)
Definition detectColumns (table : string) (info : option (list string))
    (s : state) : gset string * state :=
  match _colsCache s !! table with
  | Some c => (c, s)
  | None =>
      match info with
      | Some names =>
          let c : gset string := list_to_set (map Js.toLowerCase names) in
          (c, set_cols table c s)
      | None => (∅, set_cols table ∅ s)
      end
  end.

(** *** Batched Argus queries *)

(** A row of the query that lists the extensions to refresh. *)
Record ramal_row := RamalRow {
  rr_id_argus : string;
  rr_id_new : option string
}.

(** What the callback given to [processBatch] returns for a row. *)
Record update := Update {
  u_id_argus : string;
  u_descricaoStatus : string;
  u_tempoStatusSegundos : Z;
  u_id_new : option string
}.

Definition id_new_or_null (o : option string) : option string :=
  match o with
  | Some i => if Js.truthy i then Some i else None
  | None => None
  end.

(** The callback of [updateStatusOperadores] on the row of index [i];
    [argus i n] is the answer of the network to attempt [n] for that row. *)
Definition fetch_item (cfg : config) (argus : nat → nat → http_outcome)
    (s : state) (it : nat * ramal_row) : option update * bool * nat :=
  let '(i, row) := it in
  let '(r, s', n) := fetchArgusForRamal cfg (rr_id_argus row) (argus i) s in
  (match r with
   | Some a => Some (Update (rr_id_argus row) (ar_descricaoStatus a)
                       (ar_tempoStatusSegundos a) (id_new_or_null (rr_id_new row)))
   | None => None
   end,
   _argusAuthFailed s', n).

(** One [Promise.all] over a chunk.  Every call of the chunk starts, and
    reads the 403 flag, before any answer arrives; the flag is raised
    afterwards when one of them saw a 403. *)
Definition run_chunk (cfg : config) (argus : nat → nat → http_outcome)
    (s : state) (chunk : list (nat * ramal_row)) : list update * state * nat :=
  let rs := map (fetch_item cfg argus s) chunk in
  (omap (λ r, fst (fst r)) rs,
   (if existsb (λ r, snd (fst r)) rs then set_argusAuthFailed true s else s),
   fold_right (λ r acc, (snd r + acc)%nat) O rs).

Fixpoint processBatch_go (cfg : config) (argus : nat → nat → http_outcome)
    (c fuel : nat) (items : list (nat * ramal_row)) (s : state)
    : list update * state * nat :=
  match fuel with
  | O => ([], s, O)
  | S fuel' =>
      match items with
      | [] => ([], s, O)
      | _ =>
          let '(us, s', n) := run_chunk cfg argus s (take c items) in
          let '(us', s'', n') := processBatch_go cfg argus c fuel' (drop c items) s' in
          (us ++ us', s'', (n + n')%nat)
      end
  end.

(** [processBatch(ramais, item => ..., ARGUS_CONCURRENCY, 75)].  The loop
    [for (i = 0; i < items.length; i += concurrency)] does not end when
    there are items and [concurrency] is not positive: [None]. *)
Definition processBatch (cfg : config) (argus : nat → nat → http_outcome)
    (items : list ramal_row) (s : state) : option (list update * state * nat) :=
  match items with
  | [] => Some ([], s, O)
  | _ =>
      if ARGUS_CONCURRENCY cfg <=? 0 then None
      else Some (processBatch_go cfg argus (Z.to_nat (ARGUS_CONCURRENCY cfg))
                   (length items) (imap (λ i r, (i, r)) items) s)
  end.

(** *** updateStatusOperadores *)

(** What the outside answers during one run of [updateStatusOperadores]. *)
Record update_world := UpdateWorld {
  uw_pool : pool_outcome;
  uw_colabInfo : option (list string);
  uw_statusInfo : option (list string);
  uw_ramais : Js.error + list ramal_row;
  uw_argus : nat → nat → http_outcome;
  (** the UPDATE of a row: it rejects, or tells the rows affected *)
  uw_update : update → option Z;
  (** the INSERT of a row: [false] when it rejects *)
  uw_insert : update → bool;
  (** [Date.now()] inside [increaseBackoff] *)
  uw_now : Z
}.

Inductive skip_reason :=
| Backoff (nextTryInMs : Z)
| InFlight
| NoToken
| ArgusAuthFailed.

(** The object the function resolves to. *)
Inductive update_result :=
| Skipped (reason : skip_reason)
| Updated (n : Z) (warning : bool)
| Failed (msg : string).

(** The guards at the top of [updateStatusOperadores], at time [t]. *)
Definition update_guard (cfg : config) (t : Z) (s : state) : option skip_reason :=
  if t <? nextAllowedAt s then Some (Backoff (nextAllowedAt s - t))
  else if isFetching s then Some InFlight
  else if negb (has_token cfg) then Some NoToken
  else if _argusAuthFailed s then Some ArgusAuthFailed
  else None.

(** [tempoDest] *)
Definition tempo_column (statusCols : gset string) : option string :=
  if decide ("tempostatus" ∈ statusCols) then Some "tempoStatus"
  else if decide ("tempo_status" ∈ statusCols) then Some "tempo_status"
  else if decide ("tempo_status_segundos" ∈ statusCols) then Some "tempo_status_segundos"
  else None.

(** The number of assignments of the dynamic UPDATE of a row. *)
Definition sets_length (statusCols : gset string) (u : update) : nat :=
  let one (b : bool) : nat := if b then 1%nat else 0%nat in
  (one (Js.present (findFirst statusCols
                      ["descricaoStatus"; "status_operador"; "descricao_status"; "status"]))
   + one (Js.present (tempo_column statusCols))
   + one (Js.present (findFirst statusCols ["id_new"; "usuario_id"])
          && Js.present (u_id_new u))
   + one (Js.present (findFirst statusCols ["empresa"]))
   + one (Js.present (findFirst statusCols ["updated_at"; "updatedat"; "updatedAt"])))%nat.

(** One turn of the upsert loop: what it adds to [updatedCount]. *)
Definition upsert_one (w : update_world) (statusCols : gset string) (u : update) : Z :=
  let insert := if uw_insert w u then 1 else 0 in
  if (0 <? sets_length statusCols u)%nat then
    match uw_update w u with
    | None => 0
    | Some rows => if 0 <? rows then rows else insert
    end
  else insert.

Definition upsert_all (w : update_world) (statusCols : gset string)
    (updates : list update) : Z :=
  fold_left (λ acc u, acc + upsert_one w statusCols u) updates 0.

(** The [try] block: it throws ([inl]) or returns ([inr]); [None] when
    it does not end. *)
Definition update_try (cfg : config) (w : update_world) (s : state)
    : option ((Js.error + update_result) * state) :=
  match uw_pool w with
  | PoolThrows e => Some (inl e, s)
  | PoolNull => Some (inl (Js.mkError "Pool DB indisponível"), s)
  | PoolOk =>
      let '(colabCols, s1) := detectColumns (TABELA_COLAB cfg) (uw_colabInfo w) s in
      let '(statusCols, s2) := detectColumns (TABELA_STATUS cfg) (uw_statusInfo w) s1 in
      if negb (bool_decide ("id_argus" ∈ colabCols)) && negb (bool_decide ("ramal" ∈ colabCols))
      then Some (inr (Updated 0 false), resetBackoff s2)
      else
        match uw_ramais w with
        | inl e => Some (inl e, s2)
        | inr [] => Some (inr (Updated 0 false), resetBackoff s2)
        | inr ramais =>
            match processBatch cfg (uw_argus w) ramais s2 with
            | None => None
            | Some ([], s3, _) => Some (inr (Updated 0 false), resetBackoff s3)
            | Some (updates, s3, _) =>
                match findFirst statusCols ["id_argus"; "ramal"] with
                | None => Some (inr (Updated 0 true), s3)
                | Some _ =>
                    Some (inr (Updated (upsert_all w statusCols updates) false),
                          resetBackoff (set_cache None 0 s3))
                end
            end
        end
  end.

(** The [catch] block. *)
Definition update_catch (w : update_world) (e : Js.error) (s : state)
    : update_result * state :=
  let s1 := increaseBackoff (uw_now w) (set_lastError e s) in
  let s2 := if Js.includes "403" (Js.toLowerCase (Js.error_to_string e))
            then set_argusAuthFailed true s1 else s1 in
  (Failed (Js.or_else (Js.err_message e) (Js.error_to_string e)), s2).

(** [updateStatusOperadores()] called at time [t]: how its promise
    settles and the state then; [None] when it never settles. *)
Definition updateStatusOperadores (cfg : config) (t : Z) (w : update_world)
    (s : state) : option (Js.settled update_result * state) :=
  match update_guard cfg t s with
  | Some r => Some (Js.Resolved (Skipped r), s)
  | None =>
      match update_try cfg w (set_isFetching true s) with
      | None => None
      | Some (inr r, s1) => Some (Js.Resolved r, set_isFetching false s1)
      | Some (inl e, s1) =>
          let '(r, s2) := update_catch w e s1 in
          Some (Js.Resolved r, set_isFetching false s2)
      end
  end.

(** The part of [updateStatusOperadores()] that runs before its first
    [await]: the guards and the raising of [isFetching]. *)
Definition update_start (cfg : config) (t : Z) (s : state) : state :=
  match update_guard cfg t s with
  | Some _ => s
  | None => set_isFetching true s
  end.

(** *** getStatusOperadores *)

(** What the outside answers during one run of [getStatusOperadores]. *)
Record get_world := GetWorld {
  gw_pool : pool_outcome;
  gw_colabInfo : option (list string);
  gw_statusInfo : option (list string);
  (** [Number(total_ativos) || 0], [None] when the count rejects *)
  gw_countActive : option Z;
  (** the joined rows once mapped to operators; [inl] when the query
      rejects or a row cannot be mapped *)
  gw_rows : Js.error + list operador;
  (** [Number(total_logados) || 0], [None] when the count fails *)
  gw_countLogados : option Z;
  (** [Date.now()] at the top of the refresh fired after caching *)
  gw_now : Z
}.

Record response := HttpResponse {
  res_status : Z;
  res_body : payload
}.

(** [res.json(p)]: the status stays at its default, 200. *)
Definition json (p : payload) : response := HttpResponse 200 p.

Definition statusCandidates : list string :=
  ["Status"; "status"; "ativo"; "is_active"; "situacao"; "situacao_id";
   "ativo_flag"; "status_id"; "ativo_int"; "status_col"].

(** The test of the in-memory count of logged operators. *)
Definition counts_as_logado (cfg : config) (op : operador) : bool :=
  match LOG_EQUIPES cfg with
  | [] => true
  | _ => Js.truthy (op_equipe op)
         && bool_decide (Js.trim (op_equipe op) ∈ LOG_EQUIPES cfg)
  end.

(** The in-memory count of logged operators. *)
Definition logados_fallback (cfg : config) (ops : list operador) : Z :=
  Z.of_nat (length (List.filter (counts_as_logado cfg) ops)).

(** The payload sent when the read fails and nothing is cached. *)
Definition empty_payload : payload := Payload [] None None 0 0 0.

(** The [try] block of [getStatusOperadores] after the cache test. *)
Definition get_try (cfg : config) (t : Z) (gw : get_world) (s : state)
    : (Js.error + payload) * state :=
  match gw_pool gw with
  | PoolThrows e => (inl e, s)
  | PoolNull => (inl (Js.mkError "Pool DB indisponível"), s)
  | PoolOk =>
      let '(colabCols, s1) := detectColumns (TABELA_COLAB cfg) (gw_colabInfo gw) s in
      let '(statusCols, s2) := detectColumns (TABELA_STATUS cfg) (gw_statusInfo gw) s1 in
      (* the loop over [statusCandidates] is [findFirst] written in line *)
      let foundStatusCol := findFirst colabCols statusCandidates in
      let totalActive :=
        match foundStatusCol with
        | Some _ => default 0 (gw_countActive gw)
        | None => 0
        end in
      let idArgusStatus := findFirst statusCols ["id_argus"; "ramal"] in
      let idArgusColab := findFirst colabCols ["id_argus"; "ramal"] in
      match gw_rows gw with
      | inl e => (inl e, s2)
      | inr ops =>
          let logados :=
            if Js.present idArgusStatus && Js.present idArgusColab
               && Js.present foundStatusCol && Js.truthy (LOG_EMPRESA cfg)
            then default (logados_fallback cfg ops) (gw_countLogados gw)
            else logados_fallback cfg ops in
          let p := Payload ops (Some t) (Some (Z.of_nat (length ops)))
                     totalActive logados logados in
          (inr p, set_cache (Some p) t s2)
      end
  end.

(** [getStatusOperadores(req, res)] at time [t]: the response and the
    state when the handler returns. *)
Definition getStatusOperadores (cfg : config) (t : Z) (gw : get_world)
    (s : state) : response * state :=
  let fresh :=
    match cache_data s with
    | Some d => if t - cache_ts s <? STATUS_CACHE_MS cfg then Some d else None
    | None => None
    end in
  match fresh with
  | Some d => (json d, s)
  | None =>
      match get_try cfg t gw s with
      | (inr p, s1) => (json p, update_start cfg (gw_now gw) s1)
      | (inl e, s1) =>
          let s2 := set_lastError e s1 in
          match cache_data s2 with
          | Some d => (json d, s2)
          | None => (HttpResponse 200 empty_payload, s2)
          end
      end
  end.

(** *** Table names *)

Definition is_bracket (c : ascii) : bool :=
  Ascii.eqb c "[" || Ascii.eqb c "]".

(** [parseTableName(fullName)]: the [schema] and the [table]. *)
Definition parseTableName (fullName : string) : string * string :=
  match Js.split "." (Js.remove_chars is_bracket fullName) with
  | [schema; table] => (schema, table)
  | [table] => ("dbo", table)
  | parts => (hd "" parts, Js.join "_" (tl parts))
  end.

(** A character other than the dot and the brackets. *)
Definition name_char (c : ascii) : bool :=
  negb (Ascii.eqb c ".") && negb (is_bracket c).

(** *** The scheduler *)

(** [state.schedulerId] and the periods of the timers [setInterval] has
    made, the oldest first; a timer is named by its rank. *)
Record timers := Timers {
  schedulerId : option nat;
  intervals : list Z
}.

(** The callback of the timer, at time [t], up to the first [await] of
    the refresh it starts. *)
Definition tick (cfg : config) (t : Z) (s : state) : state :=
  if isFetching s || (t <? nextAllowedAt s) then s
  else update_start cfg t s.

(** [scheduleStatusUpdater(intervalMs)] at time [t], up to the first
    [await] of the refresh it starts: the timer it returns. *)
Definition scheduleStatusUpdater (cfg : config) (intervalMs : Z) (t : Z)
    (st : state * timers) : nat * (state * timers) :=
  let '(s, tm) := st in
  match schedulerId tm with
  | Some id => (id, (s, tm))
  | None =>
      let id := length (intervals tm) in
      (id, (update_start cfg t s,
            Timers (Some id) (intervals tm ++ [Z.max 10000 intervalMs])))
  end.

(** Calls of [scheduleStatusUpdater] one after the other: the timers
    returned and the state then. *)
Fixpoint schedule_all (cfg : config) (calls : list (Z * Z)) (st : state * timers)
    : list nat * (state * timers) :=
  match calls with
  | [] => ([], st)
  | (intervalMs, t) :: rest =>
      let '(id, st1) := scheduleStatusUpdater cfg intervalMs t st in
      let '(ids, st2) := schedule_all cfg rest st1 in
      (id :: ids, st2)
  end.

(** *** Answers of Argus *)

(** The answers after which [fetchArgusForRamal] returns at once: a 200
    with a body, a 403 and a 400. *)
Definition final_answer (o : http_outcome) : bool :=
  match o with
  | NetError => false
  | Response st d => ((st =? 200) && Js.present d) || (st =? 403) || (st =? 400)
  end.

(** Consecutive failed runs of [updateStatusOperadores]: the state after
    [increaseBackoff] has run at each of the times [nows]. *)
Definition fail_all (nows : list Z) (s : state) : state :=
  foldl (λ s now, increaseBackoff now s) s nows.

(** *** Predicates of the statements *)

(** Fields that stay as they are across the helpers of the module. *)
Definition same_control (s s' : state) : Prop :=
  isFetching s' = isFetching s ∧ failCount s' = failCount s
  ∧ nextAllowedAt s' = nextAllowedAt s ∧ cache_data s' = cache_data s
  ∧ cache_ts s' = cache_ts s
  ∧ (_argusAuthFailed s = true → _argusAuthFailed s' = true).

(** *** Sequences of calls on the module *)

(** The calls that reach the state of the module. *)
Inductive call :=
| CallFetch (ramal : string) (resps : nat → http_outcome)
| CallUpdate (t : Z) (w : update_world)
| CallGet (t : Z) (gw : get_world).

(** The state after a call, when the call ends. *)
Definition run_call (cfg : config) (c : call) (s : state) : option state :=
  match c with
  | CallFetch ramal resps => Some (snd (fst (fetchArgusForRamal cfg ramal resps s)))
  | CallUpdate t w => snd <$> updateStatusOperadores cfg t w s
  | CallGet t gw => Some (snd (getStatusOperadores cfg t gw s))
  end.

Fixpoint run_calls (cfg : config) (cs : list call) (s : state) : option state :=
  match cs with
  | [] => Some s
  | c :: cs' =>
      match run_call cfg c s with
      | Some s' => run_calls cfg cs' s'
      | None => None
      end
  end.

(** *** Sample settings and answers *)

(** The defaults of the module, with a token. *)
Definition cfg_default : config :=
  Config 6 2 15000 (Some "secret") "VIEIRACRED" []
         "dbo.colaboradores" "dbo.status_operador".

(** The database cannot be reached. *)
Definition world_pool_down : update_world :=
  UpdateWorld unreachable None None (inr []) (λ _ _, NetError)
              (λ _, None) (λ _, false) 1000.

(** Both tables have their columns, two extensions are listed, Argus
    answers each with a status, and the rows are updated in place. *)
Definition world_ok : update_world :=
  UpdateWorld PoolOk
    (Some ["id_new"; "id_argus"; "empresa"; "Status"])
    (Some ["id_argus"; "descricaoStatus"; "tempoStatus"; "updated_at"])
    (inr [RamalRow "1001" (Some "7"); RamalRow "1002" None])
    (λ _ _, Response 200 (Some (ArgusBody 1 (Some (StatusOperador "Livre" 65000)))))
    (λ _, Some 1) (λ _, true) 2000.

(** A read of two operators of the team [Vendas], one of them without a
    team; the count of logged operators fails. *)
Definition get_world_ok : get_world :=
  GetWorld PoolOk
    (Some ["id_new"; "id_argus"; "empresa"; "Status"])
    (Some ["id_argus"; "descricaoStatus"; "tempoStatus"; "updated_at"])
    (Some 2)
    (inr [Operador "Ana" "Vendas" "Livre" 65 (Some "1001") (Some "7") None;
          Operador "Rui" "" "Pausa" 10 (Some "1002") None None])
    None 5000.

(** The table of the status has neither [id_argus] nor [ramal]; one
    extension is listed and Argus answers it. *)
Definition world_status_without_id : update_world :=
  UpdateWorld PoolOk
    (Some ["id_new"; "id_argus"; "empresa"; "Status"])
    (Some ["descricaoStatus"; "tempoStatus"; "updated_at"])
    (inr [RamalRow "1001" (Some "7")])
    (λ _ _, Response 200 (Some (ArgusBody 1 (Some (StatusOperador "Livre" 65000)))))
    (λ _, Some 1) (λ _, true) 200000.

(** The same, but it is the table of the collaborators that has neither
    column. *)
Definition world_colab_without_id : update_world :=
  UpdateWorld PoolOk
    (Some ["id_new"; "empresa"; "Status"])
    (Some ["descricaoStatus"; "tempoStatus"; "updated_at"])
    (inr [RamalRow "1001" (Some "7")])
    (λ _ _, Response 200 (Some (ArgusBody 1 (Some (StatusOperador "Livre" 65000)))))
    (λ _, Some 1) (λ _, true) 200000.

(** The payload of the sample read at time 1000, and the state when the
    read is done. *)
Definition payload_ok : payload :=
  match get_try cfg_default 1000 get_world_ok initial_state with
  | (inr p, _) => p
  | (inl _, _) => empty_payload
  end.

Definition after_read : state :=
  snd (get_try cfg_default 1000 get_world_ok initial_state).

(** The state when a refresh started at time 5000 after that read has
    ended, everything having answered. *)
Definition after_refresh : state :=
  match updateStatusOperadores cfg_default 5000 world_ok after_read with
  | Some (_, s) => s
  | None => after_read
  end.

(** The database is down when [getStatusOperadores] is called. *)
Definition get_world_down : get_world :=
  GetWorld unreachable None None None (inr []) None 0.

(** The database cannot be reached, at time [now]. *)
Definition pool_down_at (now : Z) : update_world :=
  UpdateWorld unreachable None None (inr []) (λ _ _, NetError)
              (λ _, None) (λ _, false) now.

(** A run of [updateStatusOperadores] at time [now] while the database
    cannot be reached: the state when it has settled. *)
Definition run_pool_down (s : state) (now : Z) : state :=
  match updateStatusOperadores cfg_default now (pool_down_at now) s with
  | Some (_, s') => s'
  | None => s
  end.

(** The state after three such runs from the initial state, at the
    times 1000, 20000 and 60000, each after the backoff of the one
    before. *)
Definition after_three_failures : state :=
  foldl run_pool_down initial_state [1000; 20000; 60000].

(** Argus answers 403 to the first request. *)
Definition resps_403 : nat → http_outcome :=
  λ _, Response 403 None.

End StatusController.

(** ** services/cacheService.js *)

Module CacheService.

Section Cache.
Context {V : Type}.

Record entry := Entry { value : V; expiresAt : Z }.

Record metrics := Metrics {
  hits : nat;
  misses : nat;
  sets : nat;
  deletes : nat;
  size_ : nat;
  lastCleanup : option Z
}.

(** An instance of [CacheService]; keys are the strings [_key] makes. *)
Record t := Cache {
  cache : gmap string entry;
  defaultTTL : Z;
  stats : metrics
}.

(** [new CacheService(defaultTTL)] *)
Definition create (ttl : Z) : t :=
  Cache ∅ ttl (Metrics 0 0 0 0 0 None).

(** [set(key, value, ttl = this.defaultTTL)] at time [now]. *)
Definition set (now : Z) (k : string) (v : V) (ttl : option Z) (c : t) : t :=
  let m := <[k := Entry v (now + default (defaultTTL c) ttl)]> (cache c) in
  let st := stats c in
  Cache m (defaultTTL c)
        (Metrics (hits st) (misses st) (S (sets st)) (deletes st) (size m)
                 (lastCleanup st)).

(** [get(key)] at time [now]: the value, [None] for [null]. *)
Definition get (now : Z) (k : string) (c : t) : option V * t :=
  let st := stats c in
  match cache c !! k with
  | None =>
      (None, Cache (cache c) (defaultTTL c)
               (Metrics (hits st) (S (misses st)) (sets st) (deletes st)
                        (size_ st) (lastCleanup st)))
  | Some e =>
      if expiresAt e <? now then
        let m := delete k (cache c) in
        (None, Cache m (defaultTTL c)
                 (Metrics (hits st) (S (misses st)) (sets st) (deletes st)
                          (size m) (lastCleanup st)))
      else
        (Some (value e),
         Cache (cache c) (defaultTTL c)
               (Metrics (S (hits st)) (misses st) (sets st) (deletes st)
                        (size_ st) (lastCleanup st)))
  end.

(** [has(key)] at time [now]. *)
Definition has (now : Z) (k : string) (c : t) : bool :=
  match cache c !! k with
  | None => false
  | Some e => now <? expiresAt e
  end.

(** [delete(key)] *)
Definition delete_ (k : string) (c : t) : bool * t :=
  let st := stats c in
  match cache c !! k with
  | None => (false, c)
  | Some _ =>
      let m := delete k (cache c) in
      (true, Cache m (defaultTTL c)
               (Metrics (hits st) (misses st) (sets st) (S (deletes st))
                        (size m) (lastCleanup st)))
  end.

(** [cleanup()] at time [now]. *)
Definition cleanup (now : Z) (c : t) : t :=
  let m := filter (λ kv, ¬ (expiresAt (snd kv) ≤ now)) (cache c) in
  let st := stats c in
  Cache m (defaultTTL c)
        (Metrics (hits st) (misses st) (sets st) (deletes st) (size m) (Some now)).

(** [clear()] *)
Definition clear (c : t) : t :=
  let st := stats c in
  Cache ∅ (defaultTTL c)
        (Metrics (hits st) (misses st) (sets st) (deletes st) 0 (lastCleanup st)).

(** [getMetrics()]: the counters, then [cacheSize] and [keys] (the
    uptime of the process is left out). *)
Definition getMetrics (c : t) : metrics * nat * nat :=
  (stats c, size (cache c), size (cache c)).

(** A call on the cache, with what [Date.now()] answers in it. *)
Inductive op :=
| OpSet (now : Z) (k : string) (v : V) (ttl : option Z)
| OpGet (now : Z) (k : string)
| OpDelete (k : string)
| OpCleanup (now : Z)
| OpClear.

Definition apply_op (c : t) (o : op) : t :=
  match o with
  | OpSet now k v ttl => set now k v ttl c
  | OpGet now k => snd (get now k c)
  | OpDelete k => snd (delete_ k c)
  | OpCleanup now => cleanup now c
  | OpClear => clear c
  end.

(** The cache after the calls [os], the first of them first. *)
Definition run_ops (os : list op) (c : t) : t := foldl apply_op c os.

Definition is_get (o : op) : bool :=
  match o with OpGet _ _ => true | _ => false end.

Definition is_set (o : op) : bool :=
  match o with OpSet _ _ _ _ => true | _ => false end.

Definition is_delete (o : op) : bool :=
  match o with OpDelete _ => true | _ => false end.

End Cache.

Arguments entry : clear implicits.
Arguments t : clear implicits.
Arguments op : clear implicits.

(** [set("k", 7, 10)] at time [100] on a new cache. *)
Definition sample : t nat :=
  set 100 "k" 7%nat (Some 10) (create 60000).

End CacheService.

(** ** services/fotoService.js *)

Module FotoService.

Record config := Config {
  APP_BASE : string;
  CACHE_TTL : Z
}.

(** [[\w\-./]] *)
Definition is_path_char (c : ascii) : bool :=
  Js.is_word c || (N_of_ascii c =? 45)%N || (N_of_ascii c =? 46)%N
  || (N_of_ascii c =? 47)%N.

(** [/^https?:\/\//i.test(s)] *)
Definition is_http (s : string) : bool :=
  Js.startsWith "http://" (Js.toLowerCase s)
  || Js.startsWith "https://" (Js.toLowerCase s).

(** [/^data:image\/[a-zA-Z]+;base64,/.test(s)] *)
Definition is_data_image (s : string) : bool :=
  Js.startsWith "data:image/" s
  && (let r := Js.drop_chars 11 s in
      let r' := Js.skip_while Js.is_letter r in
      negb (String.eqb r r') && Js.startsWith ";base64," r').

(** [/^[\w\-./]+\.(png|jpe?g|gif|webp)$/i.test(s)]: the characters are
    all of the class, and [s] ends, whatever the case, with a dot and
    one of the extensions, after at least one character. *)
Definition is_image_file (s : string) : bool :=
  Js.all_chars is_path_char s
  && existsb (λ ext, Js.endsWith ext (Js.toLowerCase s)
                     && (String.length ext <? String.length s)%nat)
       [".png"; ".jpg"; ".jpeg"; ".gif"; ".webp"].

(** [s.replace(/^\.\//, '')] *)
Definition strip_dot_slash (s : string) : string :=
  if Js.startsWith "./" s then Js.drop_chars 2 s else s.

(** [s.replace(/^\.?\//, '')] *)
Definition strip_opt_dot_slash (s : string) : string :=
  if Js.startsWith "./" s then Js.drop_chars 2 s
  else if Js.startsWith "/" s then Js.drop_chars 1 s else s.

(** Whether [new URL(s)] succeeds, taken to be whether [s] starts with a
    scheme; that is exact on the strings that start with a slash, the
    only ones this module passes to [toAbsoluteUrl]. *)
Definition has_scheme (s : string) : bool :=
  match s with
  | String c r =>
      Js.is_letter c
      && Js.startsWith ":"
           (Js.skip_while (λ c, Js.is_letter c || Js.is_digit c
                                || (N_of_ascii c =? 43)%N || (N_of_ascii c =? 45)%N
                                || (N_of_ascii c =? 46)%N) r)
  | EmptyString => false
  end.

(** [toAbsoluteUrl(p)] *)
Definition toAbsoluteUrl (cfg : config) (p : string) : string :=
  if negb (Js.truthy p) then ""
  else
    let s := Js.trim p in
    if has_scheme s then s
    else if Js.startsWith "/" s then APP_BASE cfg +:+ s
    else APP_BASE cfg +:+ "/" +:+ strip_opt_dot_slash s.

(** The default icon. *)
Definition placeholder (cfg : config) : string :=
  toAbsoluteUrl cfg "/vieira-icone.jpg" +:+ "?v=1".

(** [sanitizeFotoPath(raw)]; [None] is [null].  Whether the file exists
    under the public directory changes nothing to what is returned. *)
Definition sanitizeFotoPath (cfg : config) (raw : option string) : string :=
  let s := Js.trim (default "" raw) in
  if negb (Js.truthy s) then placeholder cfg
  else
    let lower := Js.toLowerCase s in
    if Js.includes "logo-vieira" lower || Js.includes "logo_vieira" lower
       || Js.endsWith "logo-vieira.jpeg" lower || Js.endsWith "logo-vieira.jpg" lower
       || Js.endsWith "logo-vieira.png" lower
    then placeholder cfg
    else if is_http s || is_data_image s then s
    else if Js.startsWith "/" s then APP_BASE cfg +:+ s
    else if is_image_file s then toAbsoluteUrl cfg ("/" +:+ strip_dot_slash s)
    else placeholder cfg.

(** [escapeSqlStr(s)] *)
Definition escapeSqlStr (s : string) : string := Js.double_quotes s.

(** [toInList(arr)] *)
Definition toInList (arr : list string) : string :=
  Js.join "," (map (λ id, "'" +:+ escapeSqlStr id +:+ "'") arr).

(** The options of [fetchFotosMap]. *)
Record opts := Opts {
  useCache : bool;
  preferCloud : bool
}.

(** The cache of the module: id to [{ fotoRaw, ts }]. *)
Abbreviation cache_t := (gmap string (string * Z)).

(** The ids of a [Set] built from a list, in insertion order. *)
Definition set_of_list (l : list string) : list string :=
  foldl (λ acc x, if bool_decide (x ∈ acc) then acc else acc ++ [x]) [] l.

(** [Set.prototype.delete] *)
Definition set_delete (x : string) (l : list string) : list string :=
  List.filter (λ y, negb (String.eqb x y)) l.

(** The slices [chunkIds.slice(i, i + n)] for [i = 0, n, 2n, ...]. *)
Fixpoint batches_go (n fuel : nat) (l : list string) : list (list string) :=
  match fuel with
  | O => []
  | S fuel' =>
      match l with
      | [] => []
      | _ => take n l :: batches_go n fuel' (drop n l)
      end
  end.

Definition batches (n : nat) (l : list string) : list (list string) :=
  batches_go n (length l) l.

(** The running values of [fetchFotosMap]: [outMap], the cache and the
    ids still to find ([toFetch], then [remaining]). *)
Record acc := Acc {
  outMap : gmap string string;
  cache : cache_t;
  pending : list string
}.

(** One turn of the loop that consults the cache, at time [t0]. *)
Definition check_cache (cfg : config) (o : opts) (t0 : Z) (a : acc) (id : string) : acc :=
  let miss c := Acc (outMap a) c (pending a ++ [id]) in
  if useCache o then
    match cache a !! id with
    | Some (fotoRaw, ts) =>
        if t0 - ts <? CACHE_TTL cfg
        then Acc (<[id := sanitizeFotoPath cfg (Some fotoRaw)]> (outMap a))
                 (cache a) (pending a)
        else miss (delete id (cache a))
    | None => miss (cache a)
    end
  else miss (cache a).

(** One turn of the loop over the ids of a batch the database answered. *)
Definition store_found (cfg : config) (t1 : Z) (mapDb : gmap string string)
    (a : acc) (id : string) : acc :=
  match mapDb !! id with
  | Some raw =>
      Acc (<[id := sanitizeFotoPath cfg (Some raw)]> (outMap a))
          (<[id := (raw, t1)]> (cache a))
          (set_delete id (pending a))
  | None => a
  end.

(** One batch: [db useCloud batch] is what [fetchFotosFromDb] resolves
    to, [None] when it rejects. *)
Definition fetch_batch (cfg : config) (t1 : Z)
    (db : bool → list string → option (gmap string string))
    (useCloud : bool) (a : acc) (batch : list string) : acc :=
  match db useCloud batch with
  | None => a
  | Some mapDb => foldl (store_found cfg t1 mapDb) a batch
  end.

(** One source, cloud or local. *)
Definition fetch_source (cfg : config) (t1 : Z)
    (db : bool → list string → option (gmap string string))
    (a : acc) (useCloud : bool) : acc :=
  match pending a with
  | [] => a
  | chunkIds => foldl (fetch_batch cfg t1 db useCloud) a (batches 300 chunkIds)
  end.

(** The default for an id that no source had. *)
Definition store_fallback (cfg : config) (t1 : Z) (a : acc) (id : string) : acc :=
  Acc (<[id := sanitizeFotoPath cfg None]> (outMap a))
      (<[id := ("", t1)]> (cache a))
      (pending a).

(** [fetchFotosMap(ids, opts)]: the map returned and the cache
    afterwards.  [t0] is the time of the cache checks and [t1] that of
    the stores. *)
Definition fetchFotosMap (cfg : config) (o : opts) (t0 t1 : Z)
    (db : bool → list string → option (gmap string string))
    (ids : list string) (c : cache_t) : gmap string string * cache_t :=
  let a1 := foldl (check_cache cfg o t0) (Acc ∅ c []) ids in
  match pending a1 with
  | [] => (outMap a1, cache a1)
  | toFetch =>
      let fetchOrder := if preferCloud o then [true; false] else [false; true] in
      let a2 := foldl (fetch_source cfg t1 db)
                      (Acc (outMap a1) (cache a1) (set_of_list toFetch)) fetchOrder in
      let a3 := foldl (store_fallback cfg t1) a2 (pending a2) in
      (outMap a3, cache a3)
  end.

(** *** Predicates of the statements *)

(** The shape of the strings the service hands out: not empty, and
    either an [http(s)://] or [data:image/...;base64,] URL or a path
    appended to [APP_BASE]. *)
Definition url_shape (cfg : config) (url : string) : Prop :=
  url ≠ ""
  ∧ ((is_http url || is_data_image url) = true
     ∨ ∃ path, path ≠ "" ∧ url = APP_BASE cfg +:+ path).

(** Every URL of the map has the shape above. *)
Definition good (cfg : config) (a : acc) : Prop :=
  map_Forall (λ _ (url : string), url_shape cfg url) (outMap a).

(** The id has a cache entry, written at [t1] or found in the cache [c]
    and fresh at [t0], and the map holds the sanitised form of it. *)
Definition linked (cfg : config) (t0 t1 : Z) (c : cache_t) (a : acc)
    (id : string) : Prop :=
  ∃ raw ts, cache a !! id = Some (raw, ts)
    ∧ outMap a !! id = Some (sanitizeFotoPath cfg (Some raw))
    ∧ (ts = t1 ∨ (c !! id = Some (raw, ts) ∧ t0 - ts < CACHE_TTL cfg)).

(** The map holds requested ids only, each with its cache entry, and
    the ids still to be found are requested ids. *)
Definition consistent (cfg : config) (t0 t1 : Z) (c : cache_t)
    (ids : list string) (a : acc) : Prop :=
  (∀ id, is_Some (outMap a !! id) → id ∈ ids ∧ linked cfg t0 t1 c a id)
  ∧ (∀ id, id ∈ pending a → id ∈ ids).

(** [fetchFoto(id, opts)]: [None] would be [undefined]. *)
Definition fetchFoto (cfg : config) (o : opts) (t0 t1 : Z)
    (db : bool → list string → option (gmap string string))
    (id : string) (c : cache_t) : option string * cache_t :=
  let '(m, c') := fetchFotosMap cfg o t0 t1 db [id] c in (m !! id, c').

(** The id has its entry or is still to be found. *)
Definition covers (a : acc) (id : string) : Prop :=
  is_Some (outMap a !! id) ∨ id ∈ pending a.

End FotoService.

(** ** controllers/rankingController.js *)

Module RankingController.
Import Db.

Record config := Config {
  DEFAULT_EMPRESA : string;
  CACHE_MS : Z;
  (** the settings of [services/fotoService.js] when the module loads *)
  fotoService : option FotoService.config
}.

(** A row of [colaboradores]; an absent field is the empty string, and
    [v_id_new] is [String(v.id_new)]. *)
Record vendedor := Vendedor {
  v_id_new : string;
  v_nome : string;
  v_equipe : string;
  v_empresa : string
}.

(** A row of the ranking.  Amounts are integers (hundredths of the
    currency unit): the code only compares and copies them. *)
Record row := Row {
  r_id : string;
  r_nome : string;
  r_equipe : string;
  r_foto : option string;
  r_valorVendido : Z;
  r_posicao : Z;
  r_empresa : string
}.

(** A value of [rankingCacheMap]; [fetchPromise] names the promise. *)
Record cell := Cell {
  data : option (list row);
  ts : Z;
  isFetching : bool;
  fetchPromise : option nat
}.

(** [escapeSqlStr(s)]: on a string, [String(s || '')] is [s]. *)
Definition escapeSqlStr (s : string) : string := Js.double_quotes s.

(** [toInList(arr)] *)
Definition toInList (arr : list string) : string :=
  Js.join "," (map (λ id, "'" +:+ escapeSqlStr id +:+ "'") arr).

(** [String(empresa || DEFAULT_EMPRESA)] *)
Definition key_of (cfg : config) (empresa : string) : string :=
  Js.or_else empresa (DEFAULT_EMPRESA cfg).

(** [allRows.sort((a, b) => b.valorVendido - a.valorVendido)].  The sort
    of an array is stable; with this comparator the result is the list
    in descending order of amount in which equal amounts keep the order
    they had, which insertion from the right computes. *)
Fixpoint insert_desc (x : string * Z) (l : list (string * Z)) : list (string * Z) :=
  match l with
  | [] => [x]
  | y :: l' => if snd x <? snd y then y :: insert_desc x l' else x :: l
  end.

Definition sort_desc (l : list (string * Z)) : list (string * Z) :=
  foldr insert_desc [] l.

(** [new Map(vendedores.map(v => [String(v.id_new), v]))]: of two rows
    with one id the later stays. *)
Definition vendMap (vendedores : list vendedor) : gmap string vendedor :=
  list_to_map (reverse (map (λ v, (v_id_new v, v)) vendedores)).

(** The photo of a row. *)
Definition foto_of (cfg : config) (fotosMap : gmap string string) (id : string)
    : option string :=
  let rawFoto := Js.trim (default "" (fotosMap !! id)) in
  match fotoService cfg with
  | Some fc => Some (FotoService.sanitizeFotoPath fc (Some rawFoto))
  | None => if Js.truthy rawFoto then Some rawFoto else None
  end.

(** [topRows.map((r, idx) => ...)] *)
Definition build_rows (cfg : config) (key : string) (vendedores : list vendedor)
    (fotosMap : gmap string string) (topRows : list (string * Z)) : list row :=
  imap (λ idx r,
    let vend := vendMap vendedores !! fst r in
    Row (fst r)
        (Js.or_else (default "" (v_nome <$> vend)) "Vendedor Não Encontrado")
        (Js.or_else (default "" (v_equipe <$> vend)) "N/A")
        (foto_of cfg fotosMap (fst r))
        (snd r)
        (Z.of_nat idx + 1)
        (Js.or_else (default "" (v_empresa <$> vend)) key)) topRows.

(** The ranking built from the totals of the day, the sellers and the
    photos. *)
Definition ranking_of (cfg : config) (key : string) (vendedores : list vendedor)
    (salesMap : list (string * Z)) (fotosMap : gmap string string) : list row :=
  build_rows cfg key vendedores fotosMap (take 5 (sort_desc salesMap)).

(** What the outside answers to the [await]s of [updateRanking]. *)
Record world := World {
  w_pool : pool_outcome;
  (** the rows of [colaboradores], [None] when the query rejects *)
  w_vendedores : option (list vendedor);
  (** the map [getSalesTodayForVendedorIds] resolves to, in insertion
      order, [None] when it rejects *)
  w_sales : option (list (string * Z));
  (** what [getRankingFromTable] resolves to (it never rejects) *)
  w_persisted : list row;
  (** the map [getFotosMap] resolves to, [None] when it rejects *)
  w_fotos : option (gmap string string)
}.

(** Where a call of [updateRanking] is suspended. *)
Inductive phase :=
| AtPool
| AtVendedores
| AtSales (vendedores : list vendedor)
| AtPersistedInner
| AtFotos (vendedores : list vendedor) (topRows : list (string * Z))
| AtPersistedOuter.

(** [rankingCacheMap.set(key, { data: out, ts: Date.now(), isFetching:
    false, fetchPromise: null })] *)
Definition store (key : string) (out : list row) (now : Z)
    (cells : gmap string cell) : gmap string cell :=
  <[key := Cell (Some out) now false None]> cells.

(** The outer [catch] of [updateRanking] up to its [await]
    ([lastErrorMap] is only read by the debug routes and is left out). *)
Definition outer_catch (key : string) (cells : gmap string cell)
    : gmap string cell * (phase + list row) :=
  match cells !! key with
  | Some c =>
      let cells' := <[key := Cell (data c) (ts c) false (fetchPromise c)]> cells in
      match data c with
      | Some d => (cells', inr d)
      | None => (cells', inl AtPersistedOuter)
      end
  | None => (cells, inl AtPersistedOuter)
  end.

(** [updateRanking(key)] from the [await] it is suspended at to the
    next one ([inl]) or to its [return] ([inr]), at time [now]. *)
Definition resume (cfg : config) (key : string) (now : Z) (w : world)
    (ph : phase) (cells : gmap string cell)
    : gmap string cell * (phase + list row) :=
  match ph with
  | AtPool =>
      match w_pool w with
      | PoolOk => (cells, inl AtVendedores)
      | _ => outer_catch key cells
      end
  | AtVendedores =>
      match w_vendedores w with
      | None => outer_catch key cells
      | Some vendedores =>
          match List.filter Js.truthy (map v_id_new vendedores) with
          | [] => (store key [] now cells, inr [])
          | _ => (cells, inl (AtSales vendedores))
          end
      end
  | AtSales vendedores =>
      match w_sales w with
      | None => (cells, inl AtPersistedInner)
      | Some [] => (store key [] now cells, inr [])
      | Some salesMap => (cells, inl (AtFotos vendedores (take 5 (sort_desc salesMap))))
      end
  | AtPersistedInner =>
      match w_persisted w with
      | [] =>
          match cells !! key with
          | Some (Cell (Some d) _ _ _) => (cells, inr d)
          | _ => (cells, inr [])
          end
      | persisted => (cells, inr persisted)
      end
  | AtFotos vendedores topRows =>
      let result := build_rows cfg key vendedores (default ∅ (w_fotos w)) topRows in
      (store key result now cells, inr result)
  | AtPersistedOuter => (cells, inr (w_persisted w))
  end.

(** [updateRanking(empresa)] run to its end while nothing else runs:
    the same answers serve every [await]. *)
Fixpoint run (cfg : config) (key : string) (now : Z) (w : world) (fuel : nat)
    (ph : phase) (cells : gmap string cell) : option (gmap string cell * list row) :=
  match fuel with
  | O => None
  | S fuel' =>
      match resume cfg key now w ph cells with
      | (cells', inl ph') => run cfg key now w fuel' ph' cells'
      | (cells', inr out) => Some (cells', out)
      end
  end.

Definition updateRanking (cfg : config) (empresa : string) (now : Z) (w : world)
    (cells : gmap string cell) : option (gmap string cell * list row) :=
  run cfg (key_of cfg empresa) now w 6 AtPool cells.

(** *** The handler on the event loop *)

(** The refresh behind a promise of [getRanking]. *)
Record task := Task {
  t_key : string;
  t_phase : phase
}.

(** The state of the module between two turns of the event loop.
    Promises are numbered in the order [getRanking] creates them, so
    [fetches] is also the number of calls of [updateRanking] so far;
    requests are numbered in the order they arrive. *)
Record machine := Machine {
  cells : gmap string cell;
  (** the pending promises and where their [updateRanking] stands *)
  tasks : gmap nat task;
  (** the values of the promises that resolved *)
  resolved : gmap nat (list row);
  (** the handlers suspended at [await p]: (request, promise) *)
  awaiting : list (nat * nat);
  (** the bodies sent with [res.json], the latest first *)
  responses : list (nat * list row);
  fetches : nat;
  requests : nat
}.

Definition initial : machine := Machine ∅ ∅ ∅ [] [] 0 0.

Inductive event :=
(** a [GET /api/ranking?empresa=...] arrives *)
| Request (empresa : string) (now : Z)
(** what the refresh behind promise [p] awaits settles *)
| Settle (p : nat) (w : world) (now : Z).

Definition is_fresh (cfg : config) (now : Z) (c : option cell) : option (list row) :=
  match c with
  | Some (Cell (Some d) ts _ _) => if now - ts <? CACHE_MS cfg then Some d else None
  | _ => None
  end.

(** The in-flight promise a request joins. *)
Definition in_flight (c : option cell) : option nat :=
  match c with
  | Some (Cell _ _ true (Some p)) => Some p
  | _ => None
  end.

(** [getRanking(req, res)] up to its [await] or its response.  What a
    handler sends once the promise resolves with [out] is [out || []],
    or [out || cache.data || []] for a handler that joined: [out]
    itself, an array being truthy. *)
Definition getRanking (cfg : config) (empresa : string) (now : Z) (m : machine)
    : machine :=
  let key := key_of cfg empresa in
  let r := requests m in
  let cache := cells m !! key in
  match is_fresh cfg now cache with
  | Some d =>
      Machine (cells m) (tasks m) (resolved m) (awaiting m)
              ((r, d) :: responses m) (fetches m) (S r)
  | None =>
      match in_flight cache with
      | Some p =>
          match resolved m !! p with
          | Some out =>
              Machine (cells m) (tasks m) (resolved m) (awaiting m)
                      ((r, out) :: responses m) (fetches m) (S r)
          | None =>
              Machine (cells m) (tasks m) (resolved m) (awaiting m ++ [(r, p)])
                      (responses m) (fetches m) (S r)
          end
      | None =>
          let p := fetches m in
          Machine (<[key := Cell (cache ≫= data) (default 0 (ts <$> cache))
                                 true (Some p)]> (cells m))
                  (<[p := Task key AtPool]> (tasks m))
                  (resolved m) (awaiting m ++ [(r, p)])
                  (responses m) (S p) (S r)
      end
  end.

(** The [finally] of the wrapper of [getRanking]. *)
Definition release (key : string) (cells : gmap string cell) : gmap string cell :=
  match cells !! key with
  | Some c => <[key := Cell (data c) (ts c) false None]> cells
  | None => cells
  end.

Definition on_settle (cfg : config) (p : nat) (w : world) (now : Z) (m : machine)
    : machine :=
  match tasks m !! p with
  | None => m
  | Some (Task key ph) =>
      match resume cfg key now w ph (cells m) with
      | (cells', inl ph') =>
          Machine cells' (<[p := Task key ph']> (tasks m)) (resolved m)
                  (awaiting m) (responses m) (fetches m) (requests m)
      | (cells', inr out) =>
          let woken := List.filter (λ a, Nat.eqb (snd a) p) (awaiting m) in
          Machine (release key cells') (delete p (tasks m))
                  (<[p := out]> (resolved m))
                  (List.filter (λ a, negb (Nat.eqb (snd a) p)) (awaiting m))
                  (rev (map (λ a, (fst a, out)) woken) ++ responses m)
                  (fetches m) (requests m)
      end
  end.

Definition step (cfg : config) (m : machine) (e : event) : machine :=
  match e with
  | Request empresa now => getRanking cfg empresa now m
  | Settle p w now => on_settle cfg p w now m
  end.

Definition exec (cfg : config) (es : list event) (m : machine) : machine :=
  foldl (step cfg) m es.

(** The refresh behind promise [p] runs on, [w] answering each of its
    [await]s, until the promise resolves. *)
Fixpoint settle_all (cfg : config) (p : nat) (w : world) (now : Z) (fuel : nat)
    (m : machine) : machine :=
  match fuel with
  | O => m
  | S fuel' =>
      match tasks m !! p with
      | None => m
      | Some _ => settle_all cfg p w now fuel' (on_settle cfg p w now m)
      end
  end.

(** A request served while nothing else happens: the request arrives
    and the refresh it starts, if it starts one, runs to its end. *)
Definition serve (cfg : config) (empresa : string) (now : Z) (w : world)
    (m : machine) : machine :=
  settle_all cfg (fetches m) w now 6 (getRanking cfg empresa now m).

(** *** The totals of the day *)

(** [acc.get(key)] on a [Map] in insertion order, [None] for
    [undefined]. *)
Fixpoint map_get (key : string) (acc : list (string * float)) : option float :=
  match acc with
  | [] => None
  | (k, x) :: rest => if String.eqb k key then Some x else map_get key rest
  end.

(** [acc.set(key, v)]: a key that is there keeps its place. *)
Fixpoint map_set (key : string) (v : float) (acc : list (string * float))
    : list (string * float) :=
  match acc with
  | [] => [(key, v)]
  | (k, x) :: rest =>
      if String.eqb k key then (k, v) :: rest
      else (k, x) :: map_set key v rest
  end.

(** [(prev || 0) + (valor || 0)], a sum of doubles; [prev] is what
    [acc.get(key)] gave and [valor] is [parseFloat(row.valor)]. *)
Definition add_amount (prev : option float) (valor : float) : float :=
  PrimFloat.add (match prev with Some x => Js.or_zero x | None => 0%float end)
                (Js.or_zero valor).

(** [acc.set(key, (acc.get(key) || 0) + (parseFloat(row.valor) || 0))] *)
Definition map_add (key : string) (valor : float) (acc : list (string * float))
    : list (string * float) :=
  map_set key (add_amount (map_get key acc) valor) acc.

(** The loop over the rows of one answer; a row is [String(row.id)] and
    [parseFloat(row.valor)]. *)
Definition add_rows (rows : list (string * float)) (acc : list (string * float))
    : list (string * float) :=
  foldl (λ acc row, map_add (fst row) (snd row) acc) acc rows.

(** The loop [for (i = 0; i < ids.length; i += batchSize)]; [query chunk]
    is what the query for the ids of [chunk] answers.  [None] when the
    loop has not ended after [fuel] turns. *)
Fixpoint sales_go (query : list string → Js.error + list (string * float))
    (batchSize : Z) (ids : list string) (fuel : nat) (i : Z)
    (acc : list (string * float)) : option (Js.error + list (string * float)) :=
  match fuel with
  | O => None
  | S fuel' =>
      if i <? Z.of_nat (length ids) then
        match query (Js.slice i (i + batchSize) ids) with
        | inl e => Some (inl e)
        | inr rows => sales_go query batchSize ids fuel' (i + batchSize) (add_rows rows acc)
        end
      else Some (inr acc)
  end.

(** [getSalesTodayForVendedorIds(ids, batchSize)]: the map in insertion
    order, or the error it rejects with; [None] when the loop has not
    ended after one turn more than there are ids, which a positive
    [batchSize] excludes. *)
Definition getSalesTodayForVendedorIds (pool : pool_outcome)
    (query : list string → Js.error + list (string * float))
    (batchSize : Z) (ids : list string) : option (Js.error + list (string * float)) :=
  match ids with
  | [] => Some (inr [])
  | _ =>
      match pool with
      | PoolThrows e => Some (inl e)
      | PoolNull => Some (inr [])
      | PoolOk => sales_go query batchSize ids (S (length ids)) 0 []
      end
  end.

(** What the rows of a list give a seller, [start] being what the
    seller has before them: the amounts of the rows of the seller, each
    added in its turn, in the order of the list, to the sum so far. *)
Definition total_from (start : option float) (k : string)
    (rows : list (string * float)) : option float :=
  foldl (λ s row, if String.eqb (fst row) k then Some (add_amount s (snd row)) else s)
        start rows.

(** The same from nothing: [None] when no row is of the seller. *)
Definition total_of (k : string) (rows : list (string * float)) : option float :=
  total_from None k rows.

(** Three amounts of one seller, the first so large that adding [1] to
    it is lost in the rounding. *)
Definition large_first : list (string * float) :=
  [("1", 9007199254740992%float); ("1", 1%float); ("1", 1%float)].

(** *** Predicates of the statements *)

(** Every request made so far has been answered or awaits a promise
    that is pending, and no request twice; every promise made so far is
    pending or resolved, and the promises the cells name have been
    made. *)
Definition accounted (m : machine) : Prop :=
  map fst (awaiting m) ++ map fst (responses m) ≡ₚ seq 0 (requests m)
  ∧ (∀ r p, (r, p) ∈ awaiting m → is_Some (tasks m !! p))
  ∧ (∀ p, (p < fetches m)%nat → is_Some (tasks m !! p) ∨ is_Some (resolved m !! p))
  ∧ (∀ key c p, cells m !! key = Some c → fetchPromise c = Some p → (p < fetches m)%nat).

(** Descending order of amount. *)
Definition desc (a b : string * Z) : Prop := snd b ≤ snd a.

(** The id and the amount of a row. *)
Definition entry_of (r : row) : string * Z := (r_id r, r_valorVendido r).

(** The entries of a list with amount [v], in order. *)
Definition ties (v : Z) (l : list (string * Z)) : list (string * Z) :=
  List.filter (λ p, snd p =? v) l.

(** The value cached under the key. *)
Definition cached (cells : gmap string cell) (key : string) : option (list row) :=
  cells !! key ≫= data.

(** *** Sample settings and answers *)

Definition cfg_default : config :=
  Config "VIEIRACRED" 15000 (Some (FotoService.Config "http://localhost:8003" 15000)).

(** The database cannot be reached and no ranking was saved today. *)
Definition world_down : world := World unreachable None None [] None.

Definition sellers : list vendedor :=
  [Vendedor "1" "Ana" "Sul" "VIEIRACRED"; Vendedor "2" "Bia" "Sul" "VIEIRACRED";
   Vendedor "3" "Caio" "Norte" "VIEIRACRED"].

(** Everything answers; the totals are A:100.00, B:250.50, C:250.50. *)
Definition world_up : world :=
  World PoolOk (Some sellers) (Some [("1", 10000); ("2", 25050); ("3", 25050)])
        [] (Some ∅).

(** Six totals in ascending order: the greatest comes last. *)
Definition six_totals : list (string * Z) :=
  [("a", 1000); ("b", 2000); ("c", 3000); ("d", 4000); ("e", 5000); ("f", 10000)].

(** Everything answers, with these six totals. *)
Definition world_six : world :=
  World PoolOk (Some sellers) (Some six_totals) [] (Some ∅).

Definition saved_row : row :=
  Row "9" "Zeca" "Sul" None 500 1 "VIEIRACRED".

(** The sales cannot be read, and a ranking was saved today. *)
Definition world_sales_down : world :=
  World PoolOk (Some sellers) None [saved_row] None.

(** A cold start with the database down, and a second request that
    arrives while the first refresh reads the saved ranking. *)
Definition race : list event :=
  [Request "VIEIRACRED" 100000; Settle 0 world_down 100010;
   Request "VIEIRACRED" 100020].

(** Then the first refresh ends, the database comes back and the second
    refresh runs to its end. *)
Definition race_end : list event :=
  [Settle 0 world_down 100030; Settle 1 world_up 100040; Settle 1 world_up 100050;
   Settle 1 world_up 100060; Settle 1 world_up 100070].

(** A first request fills the cache. *)
Definition after_first_request : machine :=
  serve cfg_default "VIEIRACRED" 0 world_up initial.

(** A later request finds the cache stale while the sales are down. *)
Definition after_sales_down : machine :=
  serve cfg_default "VIEIRACRED" 100000 world_sales_down after_first_request.

End RankingController.

(** ** controllers/empresaController.js *)

Module EmpresaController.
Import Db.

Record config := Config {
  CACHE_MS : Z
}.

(** The object [empresasCache]; [fetchPromise] names the promise. *)
Record cell := Cell {
  data : option (list string);
  ts : Z;
  isFetching : bool;
  fetchPromise : option nat
}.

(** What the outside answers to the [await]s of [updateEmpresas]. *)
Record world := World {
  w_pool : pool_outcome;
  (** the column [empresa] of the rows, [None] when the query rejects *)
  w_empresas : option (list string)
}.

(** Where a call of [updateEmpresas] is suspended. *)
Inductive phase :=
| AtPool
| AtQuery.

(** The [catch] of [updateEmpresas] ([lastError] is left out). *)
Definition catch (c : cell) : cell * (phase + list string) :=
  (Cell (data c) (ts c) false (fetchPromise c), inr (default [] (data c))).

(** [updateEmpresas()] from the [await] it is suspended at to the next
    one ([inl]) or to its [return] ([inr]), at time [now]. *)
Definition resume (now : Z) (w : world) (ph : phase) (c : cell)
    : cell * (phase + list string) :=
  match ph with
  | AtPool =>
      match w_pool w with
      | PoolOk => (c, inl AtQuery)
      | _ => catch c
      end
  | AtQuery =>
      match w_empresas w with
      | Some rows =>
          let empresas := List.filter Js.truthy (map Js.trim rows) in
          (Cell (Some empresas) now false None, inr empresas)
      | None => catch c
      end
  end.

(** [updateEmpresas()] run to its end while nothing else runs. *)
Fixpoint run (now : Z) (w : world) (fuel : nat) (ph : phase) (c : cell)
    : option (cell * list string) :=
  match fuel with
  | O => None
  | S fuel' =>
      match resume now w ph c with
      | (c', inl ph') => run now w fuel' ph' c'
      | (c', inr out) => Some (c', out)
      end
  end.

Definition updateEmpresas (now : Z) (w : world) (c : cell)
    : option (cell * list string) :=
  run now w 3 AtPool c.

(** The state of the module between two turns of the event loop;
    promises are numbered in the order [getEmpresas] creates them. *)
Record machine := Machine {
  empresasCache : cell;
  (** the pending promises and where their [updateEmpresas] stands *)
  tasks : gmap nat phase;
  (** the values of the promises that resolved *)
  resolved : gmap nat (list string);
  (** the handlers suspended at an [await]: (request, promise) *)
  awaiting : list (nat * nat);
  (** the bodies sent with [res.json], the latest first *)
  responses : list (nat * list string);
  fetches : nat;
  requests : nat
}.

Definition initial : machine :=
  Machine (Cell None 0 false None) ∅ ∅ [] [] 0 0.

Inductive event :=
(** a [GET /api/empresas] arrives *)
| Request (now : Z)
(** what the refresh behind promise [p] awaits settles *)
| Settle (p : nat) (w : world) (now : Z).

Definition is_fresh (cfg : config) (now : Z) (c : cell) : option (list string) :=
  match data c with
  | Some d => if now - ts c <? CACHE_MS cfg then Some d else None
  | None => None
  end.

(** The in-flight promise a request joins: [empresasCache.isFetching
    && empresasCache.fetchPromise]. *)
Definition in_flight (c : cell) : option nat :=
  if isFetching c then fetchPromise c else None.

(** [getEmpresas(req, res)] up to its [await] or its response.  A
    handler that joined sends [out || empresasCache.data || []] once
    the promise resolves with [out]: [out] itself, an array being
    truthy; the handler that started the refresh sends [out]. *)
Definition getEmpresas (cfg : config) (now : Z) (m : machine) : machine :=
  let r := requests m in
  let c := empresasCache m in
  match is_fresh cfg now c with
  | Some d =>
      Machine c (tasks m) (resolved m) (awaiting m) ((r, d) :: responses m)
              (fetches m) (S r)
  | None =>
      match in_flight c with
      | Some p =>
          match resolved m !! p with
          | Some out =>
              Machine c (tasks m) (resolved m) (awaiting m)
                      ((r, out) :: responses m) (fetches m) (S r)
          | None =>
              Machine c (tasks m) (resolved m) (awaiting m ++ [(r, p)])
                      (responses m) (fetches m) (S r)
          end
      | None =>
          let p := fetches m in
          Machine (Cell (data c) (ts c) true (Some p))
                  (<[p := AtPool]> (tasks m)) (resolved m)
                  (awaiting m ++ [(r, p)]) (responses m) (S p) (S r)
      end
  end.

Definition on_settle (p : nat) (w : world) (now : Z) (m : machine) : machine :=
  match tasks m !! p with
  | None => m
  | Some ph =>
      match resume now w ph (empresasCache m) with
      | (c', inl ph') =>
          Machine c' (<[p := ph']> (tasks m)) (resolved m) (awaiting m)
                  (responses m) (fetches m) (requests m)
      | (c', inr out) =>
          let woken := List.filter (λ a, Nat.eqb (snd a) p) (awaiting m) in
          Machine c' (delete p (tasks m)) (<[p := out]> (resolved m))
                  (List.filter (λ a, negb (Nat.eqb (snd a) p)) (awaiting m))
                  (rev (map (λ a, (fst a, out)) woken) ++ responses m)
                  (fetches m) (requests m)
      end
  end.

Definition step (cfg : config) (m : machine) (e : event) : machine :=
  match e with
  | Request now => getEmpresas cfg now m
  | Settle p w now => on_settle p w now m
  end.

Definition exec (cfg : config) (es : list event) (m : machine) : machine :=
  foldl (step cfg) m es.

(** The refresh behind promise [p] runs on until the promise resolves. *)
Fixpoint settle_all (p : nat) (w : world) (now : Z) (fuel : nat) (m : machine)
    : machine :=
  match fuel with
  | O => m
  | S fuel' =>
      match tasks m !! p with
      | None => m
      | Some _ => settle_all p w now fuel' (on_settle p w now m)
      end
  end.

(** A request served while nothing else happens. *)
Definition serve (cfg : config) (now : Z) (w : world) (m : machine) : machine :=
  settle_all (fetches m) w now 3 (getEmpresas cfg now m).

(** *** Sample settings and answers *)

Definition cfg_default : config := Config 60000.

(** The database cannot be reached. *)
Definition world_down : world := World unreachable None.

Definition world_up : world := World PoolOk (Some ["VIEIRACRED"; " ACME "; ""]).

(** A cold start with the database down. *)
Definition failed_request : list event :=
  [Request 1000; Settle 0 world_down 1010].

End EmpresaController.

(** ** services/argusService.js *)

Module ArgusService.

Record config := Config {
  CACHE_DURATION : Z
}.

Definition CACHE_KEY : string := "argus:status".

Section Service.
(** The body of an answer of Argus. *)
Context {D : Type}.

(** What [fetchArgusData] resolves to. *)
Record result := Result {
  r_data : D;
  r_cached : bool;
  r_timestamp : Z
}.

(** The state of the module between two turns of the event loop; calls
    are numbered in the order they are made. *)
Record machine := Machine {
  isFetching : bool;
  (** [queue]: the calls suspended in [waitForFetch] *)
  queue : list nat;
  cache : CacheService.t D;
  (** the calls suspended at [await requestArgusData()] *)
  running : list nat;
  (** how the calls settled, the latest first *)
  outcomes : list (nat * Js.settled result);
  (** the number of calls of [requestArgusData] so far *)
  upstream : nat;
  calls : nat
}.

Definition initial (ttl : Z) : machine :=
  Machine false [] (CacheService.create ttl) [] [] 0 0.

Inductive event :=
(** [fetchArgusData(force)] is called *)
| Call (force : bool) (now : Z)
(** the [requestArgusData()] of call [c] settles: with the body it
    cached, or with the error of its last attempt *)
| Done (c : nat) (answer : Js.error + D) (now : Z).

(** [fetchArgusData(force)] up to its [await] or its [return]. *)
Definition fetchArgusData (force : bool) (now : Z) (m : machine) : machine :=
  let c := calls m in
  let '(cached, cache') := CacheService.get now CACHE_KEY (cache m) in
  match cached, force with
  | Some d, false =>
      Machine (isFetching m) (queue m) cache' (running m)
              ((c, Js.Resolved (Result d true now)) :: outcomes m)
              (upstream m) (S c)
  | _, _ =>
      if isFetching m then
        Machine true (queue m ++ [c]) cache' (running m) (outcomes m)
                (upstream m) (S c)
      else
        Machine true (queue m) cache' (running m ++ [c]) (outcomes m)
                (S (upstream m)) (S c)
  end.

(** The rest of [fetchArgusData] for call [c], once its
    [requestArgusData()] has settled: [resolveQueue], the [return] or
    the [throw], and the [finally]. *)
Definition fetchArgusData_done (cfg : config) (c : nat) (answer : Js.error + D) (now : Z)
    (m : machine) : machine :=
  if bool_decide (c ∈ running m) then
    let s : Js.settled result :=
      match answer with
      | inr d => Js.Resolved (Result d false now)
      | inl e => Js.Rejected e
      end in
    let cache' :=
      match answer with
      | inr d => CacheService.set now CACHE_KEY d (Some (CACHE_DURATION cfg)) (cache m)
      | inl _ => cache m
      end in
    Machine false [] cache'
            (List.filter (λ x, negb (Nat.eqb x c)) (running m))
            ((c, s) :: rev (map (λ q, (q, s)) (queue m)) ++ outcomes m)
            (upstream m) (calls m)
  else m.

Definition step (cfg : config) (m : machine) (e : event) : machine :=
  match e with
  | Call force now => fetchArgusData force now m
  | Done c answer now => fetchArgusData_done cfg c answer now m
  end.

Definition exec (cfg : config) (es : list event) (m : machine) : machine :=
  foldl (step cfg) m es.

(** What one attempt of [requestArgusData] meets: [axios.get] rejects,
    or resolves without a body, or with a body and its [codStatus] ([0]
    when the field is absent). *)
Inductive answer :=
| Throws (e : Js.error)
| Empty
| Body (d : D) (codStatus : Z).

(** The [try] block of one attempt: the error thrown or the body. *)
Definition attempt_outcome (a : answer) : Js.error + D :=
  match a with
  | Throws e => inl e
  | Empty => inl (Js.mkError "Resposta vazia do Argus")
  | Body d cs =>
      if negb (cs =? 0) && negb (cs =? 1)
      then inl (Js.mkError ("Argus retornou codStatus=" +:+ pretty cs))
      else inr d
  end.

(** The loop [while (attempt < MAX_RETRIES)]: [attempt] counts the turns
    made, [resps n] is what turn [n] meets and the time then.  The
    result is [None] for [undefined], which the function returns when
    the loop ends without a turn. *)
Fixpoint request_go (cfg : config) (max : Z) (resps : nat → answer * Z)
    (fuel attempt : nat) (c : CacheService.t D)
    : Js.settled (option result) * CacheService.t D * nat :=
  match fuel with
  | O => (Js.Resolved None, c, O)
  | S fuel' =>
      let '(a, now) := resps attempt in
      match attempt_outcome a with
      | inr d =>
          (Js.Resolved (Some (Result d false now)),
           CacheService.set now CACHE_KEY d (Some (CACHE_DURATION cfg)) c, 1%nat)
      | inl e =>
          if Z.of_nat attempt + 1 <? max then
            let '(r, c', n) := request_go cfg max resps fuel' (S attempt) c in
            (r, c', S n)
          else (Js.Rejected e, c, 1%nat)
      end
  end.

(** [requestArgusData()] with [MAX_RETRIES = max]: how it settles, the
    cache afterwards and the number of requests sent. *)
Definition requestArgusData (cfg : config) (max : Z) (resps : nat → answer * Z)
    (c : CacheService.t D) : Js.settled (option result) * CacheService.t D * nat :=
  request_go cfg max resps (Z.to_nat max) 0 c.

(** While the flag is up exactly one [requestArgusData] is pending;
    while it is down none is and nobody waits. *)
Definition argus_inv (m : machine) : Prop :=
  if isFetching m then ∃ c, running m = [c]
  else running m = [] ∧ queue m = [].

End Service.

Arguments result : clear implicits.
Arguments machine : clear implicits.
Arguments event : clear implicits.
Arguments answer : clear implicits.

End ArgusService.

(** ** services/updateService.js *)

Module UpdateService.

(** The options of a job. *)
Record opts := Opts {
  retries : Z;
  retryBaseMs : Z;
  jitter : bool
}.

(** [randJitter(maxMs)], that is [Math.floor(Math.random() * maxMs)],
    the random number being the fraction [fst rnd / snd rnd]. *)
Definition randJitter (rnd : Z * Z) (maxMs : Z) : Z :=
  (fst rnd * maxMs) / snd rnd.

(** What [runWithRetry] resolves to ([durationMs] is left out). *)
Inductive retry_result (R : Type) :=
| Ok (result : R) (attempts : Z)
| Fail (error : Js.error) (attempts : Z).
Arguments Ok {R} result attempts.
Arguments Fail {R} error attempts.

Section Retry.
Context {R : Type}.

(** The loop [while (attempt <= retries)]: [attempt] counts the calls
    of [fn] made, [fn n] is how call [n] settles and [rnd n] the random
    number drawn after it.  The second component lists the delays
    slept, in order. *)
Fixpoint retry_go (o : opts) (fn : nat → Js.settled R) (rnd : nat → Z * Z)
    (fuel attempt : nat) : retry_result R * list Z :=
  match fuel with
  | O => (Fail (Js.mkError "Máximo de retries atingido") (Z.of_nat attempt), [])
  | S fuel' =>
      match fn attempt with
      | Js.Resolved r => (Ok r (Z.of_nat attempt + 1), [])
      | Js.Rejected e =>
          if Z.of_nat attempt + 1 >? retries o then (Fail e (Z.of_nat attempt + 1), [])
          else
            let backoff := 2 ^ (Z.of_nat attempt + 1 - 1) * retryBaseMs o in
            let jitterMs :=
              if jitter o then randJitter (rnd attempt) (Z.min 500 backoff) else 0 in
            let '(res, sleeps) := retry_go o fn rnd fuel' (S attempt) in
            (res, (backoff + jitterMs) :: sleeps)
      end
  end.

(** [runWithRetry(fn, opts)] *)
Definition runWithRetry (o : opts) (fn : nat → Js.settled R) (rnd : nat → Z * Z)
    : retry_result R * list Z :=
  retry_go o fn rnd (Z.to_nat (retries o + 1)) 0.

End Retry.

(** The counters of a job (the times are left out). *)
Record metrics := Metrics {
  lastError : option string;
  runs : Z;
  successes : Z;
  failures : Z;
  attempts : Z
}.

(** A value of the map [jobs]. *)
Record job := Job {
  isRunning : bool;
  j_metrics : metrics;
  j_opts : opts
}.

(** [registerJob(jobName, fn, intervalMs, opts)] for a name that is not
    registered yet, without [runOnRegister]. *)
Definition registerJob (name : string) (o : opts) (jobs : gmap string job)
    : gmap string job :=
  <[name := Job false (Metrics None 0 0 0 0) o]> jobs.

(** How [runJobNow] begins. *)
Inductive start_result :=
| NotRegistered
| AlreadyRunning
| Started.

(** [runJobNow(jobName)] up to its [await]: it throws for a name that
    is not registered, returns at once while the job runs, and
    otherwise raises [isRunning] and counts the run. *)
Definition runJobNow_start (name : string) (jobs : gmap string job)
    : start_result * gmap string job :=
  match jobs !! name with
  | None => (NotRegistered, jobs)
  | Some j =>
      if isRunning j then (AlreadyRunning, jobs)
      else
        let mt := j_metrics j in
        (Started,
         <[name := Job true (Metrics (lastError mt) (runs mt + 1) (successes mt)
                               (failures mt) (attempts mt)) (j_opts j)]> jobs)
  end.

Definition retry_attempts {R} (res : retry_result R) : Z :=
  match res with Ok _ n => n | Fail _ n => n end.

(** The rest of [runJobNow] once [runWithRetry] has resolved with
    [res]: the counters, the lowering of [isRunning] and the value
    returned. *)
Definition runJobNow_end {R} (name : string) (res : retry_result R)
    (jobs : gmap string job) : (Js.error + R) * gmap string job :=
  let out : Js.error + R :=
    match res with Ok r _ => inr r | Fail e _ => inl e end in
  match jobs !! name with
  | None => (out, jobs)
  | Some j =>
      let mt := j_metrics j in
      let mt' :=
        match res with
        | Ok _ n =>
            Metrics None (runs mt) (successes mt + 1) (failures mt) (attempts mt + n)
        | Fail e n =>
            Metrics (Some (Js.or_else (Js.err_message e) (Js.error_to_string e)))
                    (runs mt) (successes mt) (failures mt + 1) (attempts mt + n)
        end in
      (out, <[name := Job false mt' (j_opts j)]> jobs)
  end.

(** What happens to the jobs: a call of [runJobNow], or the end of the
    run of a job with what [runWithRetry] resolved to. *)
Inductive event (R : Type) :=
| Run (name : string)
| Finish (name : string) (res : retry_result R).
Arguments Run {R} name.
Arguments Finish {R} name res.

(** A run ends only when one is under way. *)
Definition step {R} (jobs : gmap string job) (e : event R) : gmap string job :=
  match e with
  | Run name => snd (runJobNow_start name jobs)
  | Finish name res =>
      match jobs !! name with
      | Some j => if isRunning j then snd (runJobNow_end name res jobs) else jobs
      | None => jobs
      end
  end.

Definition exec {R} (es : list (event R)) (jobs : gmap string job) : gmap string job :=
  foldl step jobs es.

(** The runs counted are the runs that ended well, those that ended
    badly and the one under way. *)
Definition balanced (j : job) : Prop :=
  runs (j_metrics j)
  = successes (j_metrics j) + failures (j_metrics j) + (if isRunning j then 1 else 0)
  ∧ 0 ≤ successes (j_metrics j) ∧ 0 ≤ failures (j_metrics j).

End UpdateService.

(** ** src/utils/api.js *)

Module Api.

Definition FORCED_BASE_URL : string := "http://85.31.61.242:8003".

(** [s.replace(/\/+$/, '')]: a character is kept when it is not a slash
    or when something that is kept follows it. *)
Fixpoint strip_trailing_slashes (s : string) : string :=
  match s with
  | EmptyString => EmptyString
  | String c r =>
      match strip_trailing_slashes r with
      | EmptyString => if Ascii.eqb c "/" then EmptyString else String c EmptyString
      | r' => String c r'
      end
  end.

(** [API_BASE_URL]; [env] is [process.env.REACT_APP_API_BASE_URL || '']. *)
Definition API_BASE_URL (env : string) : string :=
  let rawEnvUrl := Js.trim env in
  if Js.truthy rawEnvUrl then strip_trailing_slashes rawEnvUrl
  else FORCED_BASE_URL.

(** [apiUrl(path)] *)
Definition apiUrl (env : string) (path : string) : string :=
  let base := API_BASE_URL env in
  if negb (Js.truthy path) then base
  else
    let normalizedPath := if Js.startsWith "/" path then path else "/" +:+ path in
    base +:+ normalizedPath.

End Api.

(** * Properties *)

(** ** Sample evaluations *)

Example trim_sample : Js.trim "  Operador de Vendas	" = "Operador de Vendas".
Proof. reflexivity. Qed.

Example error_to_string_sample :
  Js.error_to_string (Js.mkError "HTTP 403 - Forbidden") = "Error: HTTP 403 - Forbidden".
Proof. reflexivity. Qed.

(** Two extensions, both answered by Argus, both rows updated. *)
Example updateStatusOperadores_sample :
  fst <$> StatusController.updateStatusOperadores StatusController.cfg_default 0
            StatusController.world_ok StatusController.initial_state
  = Some (Js.Resolved (StatusController.Updated 2 false)).
Proof. by vm_compute. Qed.

(** A network error, a 503 and then a 403: three requests, no result,
    the flag raised. *)
Example fetchArgusForRamal_sample :
  StatusController.fetchArgusForRamal StatusController.cfg_default "1001"
    (λ n, match n with
          | O => StatusController.NetError
          | 1%nat => StatusController.Response 503 None
          | _ => StatusController.Response 403 None
          end)
    StatusController.initial_state
  = (None,
     StatusController.set_argusAuthFailed true StatusController.initial_state,
     3%nat).
Proof. by vm_compute. Qed.

Example sanitizeFotoPath_samples :
  let cfg := FotoService.Config "http://localhost:8003" 15000 in
  FotoService.sanitizeFotoPath cfg (Some " /img/a.png ") = "http://localhost:8003/img/a.png"
  ∧ FotoService.sanitizeFotoPath cfg (Some "./fotos/Joao.JPEG")
    = "http://localhost:8003/fotos/Joao.JPEG"
  ∧ FotoService.sanitizeFotoPath cfg (Some "fotos/logo-vieira.png")
    = "http://localhost:8003/vieira-icone.jpg?v=1"
  ∧ FotoService.sanitizeFotoPath cfg (Some "HTTPS://cdn.example/z.png")
    = "HTTPS://cdn.example/z.png"
  ∧ FotoService.sanitizeFotoPath cfg (Some "false")
    = "http://localhost:8003/vieira-icone.jpg?v=1".
Proof. by vm_compute. Qed.

(** A first request fills the cache of the companies. *)
Example getEmpresas_sample :
  EmpresaController.responses
    (EmpresaController.serve EmpresaController.cfg_default 5
       EmpresaController.world_up EmpresaController.initial)
  = [(0%nat, ["VIEIRACRED"; "ACME"])].
Proof. by vm_compute. Qed.

(** ** Column resolution *)

Section FindFirst.
Import StatusController.

Lemma findFirst_Some (S : gset string) (C : list string) (c : string) :
  findFirst S C = Some c ↔
  ∃ before after, C = before ++ c :: after
    ∧ Js.toLowerCase c ∈ S
    ∧ Forall (λ x, Js.toLowerCase x ∉ S) before.
Proof.
  induction C as [|x C IH]; simpl.
  - split; [discriminate|]. intros (b & a & E & _). by destruct b.
  - destruct (decide (Js.toLowerCase x ∈ S)) as [Hin|Hnin].
    + split.
      * intros [= <-]. exists [], C. by repeat split.
      * intros (b & a & E & Hc & Hb). destruct b as [|y b]; simpl in E.
        -- by inversion E.
        -- inversion E; subst. by inversion Hb.
    + rewrite IH. split.
      * intros (b & a & -> & Hc & Hb). exists (x :: b), a.
        repeat split; [done|]. by constructor.
      * intros (b & a & E & Hc & Hb). destruct b as [|y b]; simpl in E.
        -- inversion E; subst. done.
        -- inversion E; subst. exists b, a. by inversion Hb.
Qed.

Lemma findFirst_None (S : gset string) (C : list string) :
  findFirst S C = None ↔ Forall (λ x, Js.toLowerCase x ∉ S) C.
Proof.
  induction C as [|x C IH]; simpl.
  - split; [by constructor|done].
  - destruct (decide (Js.toLowerCase x ∈ S)) as [Hin|Hnin].
    + split; [discriminate|]. by inversion 1.
    + rewrite IH. split; [by constructor|by inversion 1].
Qed.

(** C6: [findFirst] returns the first candidate, in the order of the
    list, whose lower-case form is in the column set, and [null] exactly
    when no candidate matches; on the set [{"status_id", "ativo"}] and
    the candidates [["Status"; "ativo"; "situacao"]] it returns
    ["ativo"]. *)
Theorem C6_findFirst_first_match :
  (∀ (S : gset string) (C : list string) (c : string),
     findFirst S C = Some c ↔
     ∃ before after, C = before ++ c :: after
       ∧ Js.toLowerCase c ∈ S
       ∧ Forall (λ x, Js.toLowerCase x ∉ S) before)
  ∧ (∀ (S : gset string) (C : list string),
       findFirst S C = None ↔ Forall (λ x, Js.toLowerCase x ∉ S) C)
  ∧ findFirst {["status_id"; "ativo"]} ["Status"; "ativo"; "situacao"] = Some "ativo".
Proof.
  split; [exact findFirst_Some|]. split; [exact findFirst_None|].
  by vm_compute.
Qed.

End FindFirst.

(** ** The status controller: backoff, release of the flag, 403 latch *)

Section StatusFacts.
Import StatusController.

Lemma same_control_refl s : same_control s s.
Proof. by repeat split. Qed.

Lemma same_control_trans s1 s2 s3 :
  same_control s1 s2 → same_control s2 s3 → same_control s1 s3.
Proof.
  unfold same_control. intros (?&?&?&?&?&?) (?&?&?&?&?&?).
  repeat split; try congruence. auto.
Qed.

Lemma detectColumns_control t i s c s' :
  detectColumns t i s = (c, s') → same_control s s'.
Proof.
  unfold detectColumns. destruct (_colsCache s !! t); [|destruct i];
    intros [= <- <-]; by repeat split.
Qed.

Lemma detectColumns_flag t i s c s' :
  detectColumns t i s = (c, s') → _argusAuthFailed s' = _argusAuthFailed s.
Proof.
  unfold detectColumns. destruct (_colsCache s !! t); [|destruct i];
    by intros [= <- <-].
Qed.

Lemma run_chunk_control cfg argus s chunk us s' n :
  run_chunk cfg argus s chunk = (us, s', n) → same_control s s'.
Proof.
  unfold run_chunk. intros [= <- <- <-].
  destruct (existsb _ _); by repeat split.
Qed.

Lemma processBatch_go_control cfg argus c fuel : ∀ items s us s' n,
  processBatch_go cfg argus c fuel items s = (us, s', n) → same_control s s'.
Proof.
  induction fuel as [|fuel IH]; intros items s us s' n; cbn [processBatch_go].
  - intros [= <- <- <-]. apply same_control_refl.
  - destruct items as [|it items].
    + intros [= <- <- <-]. apply same_control_refl.
    + destruct (run_chunk cfg argus s (take c (it :: items))) as [[us1 s1] n1] eqn:E1.
      destruct (processBatch_go cfg argus c fuel (drop c (it :: items)) s1)
        as [[us2 s2] n2] eqn:E2.
      intros [= <- <- <-]. eapply same_control_trans.
      * eapply run_chunk_control; eauto.
      * eapply IH; eauto.
Qed.

Lemma processBatch_control cfg argus items s us s' n :
  processBatch cfg argus items s = Some (us, s', n) → same_control s s'.
Proof.
  unfold processBatch. destruct items.
  - intros [= <- <- <-]. apply same_control_refl.
  - destruct (_ <=? _); [done|]. intros E. apply (inj Some) in E.
    exact (processBatch_go_control _ _ _ _ _ _ _ _ _ E).
Qed.

Lemma processBatch_terminates cfg argus items s :
  0 < ARGUS_CONCURRENCY cfg → is_Some (processBatch cfg argus items s).
Proof.
  intros H. unfold processBatch. destruct items; [done|].
  destruct (Z.leb_spec (ARGUS_CONCURRENCY cfg) 0); [lia|done].
Qed.

(** The fields of the state after the [try] block: the flag is as the
    block found it, and the backoff is either untouched or reset. *)
Lemma update_try_control cfg w s out s' :
  update_try cfg w s = Some (out, s') →
  isFetching s' = isFetching s
  ∧ (_argusAuthFailed s = true → _argusAuthFailed s' = true)
  ∧ match out with
    | inl _ | inr (Updated _ true) =>
        failCount s' = failCount s ∧ nextAllowedAt s' = nextAllowedAt s
    | inr (Updated _ false) => failCount s' = O ∧ nextAllowedAt s' = 0
    | inr _ => False
    end.
Proof.
  unfold update_try. destruct (uw_pool w).
  2,3: intros [= <- <-]; by repeat split.
  destruct (detectColumns (TABELA_COLAB cfg) _ s) as [cc s1] eqn:E1.
  destruct (detectColumns (TABELA_STATUS cfg) _ s1) as [sc s2] eqn:E2.
  pose proof (same_control_trans _ _ _ (detectColumns_control _ _ _ _ _ E1)
                (detectColumns_control _ _ _ _ _ E2)) as (Hf & Hc & Hn & _ & _ & Ha).
  destruct (_ && _).
  { intros [= <- <-]. by repeat split. }
  destruct (uw_ramais w) as [e|[|r rs]].
  1,2: intros [= <- <-]; by repeat split.
  destruct (processBatch _ _ _ _) as [[[us s3] n]|] eqn:E3; [|done].
  apply processBatch_control in E3 as (Hf3 & Hc3 & Hn3 & _ & _ & Ha3).
  destruct us as [|u us].
  { intros [= <- <-]. simpl. repeat split; try congruence. auto. }
  destruct (findFirst sc _); intros [= <- <-]; simpl;
    repeat split; try congruence; auto.
Qed.

Lemma update_try_terminates cfg w s :
  0 < ARGUS_CONCURRENCY cfg → is_Some (update_try cfg w s).
Proof.
  intros H. unfold update_try. destruct (uw_pool w); [|done..].
  destruct (detectColumns (TABELA_COLAB cfg) _ s) as [cc s1].
  destruct (detectColumns (TABELA_STATUS cfg) _ s1) as [sc s2].
  destruct (_ && _); [done|].
  destruct (uw_ramais w) as [e|[|r rs]]; [done..|].
  destruct (processBatch_terminates cfg (uw_argus w) (r :: rs) s2 H) as [[[us s3] n] ->].
  destruct us; [done|]. by destruct (findFirst sc _).
Qed.

(** The delay of [increaseBackoff], read from the count before the
    failure. *)
Lemma delaySec_before (fc : nat) :
  ms (delaySec (Nat.min (fc + 1) 6)) = Z.min (15000 * 2 ^ Z.of_nat fc) 300000.
Proof.
  unfold ms, delaySec.
  do 5 (destruct fc as [|fc]; [by vm_compute|]).
  replace (Nat.min (S (S (S (S (S fc)))) + 1) 6) with 6%nat by lia.
  assert (2 ^ 5 ≤ 2 ^ Z.of_nat (S (S (S (S (S fc)))))) by (apply Z.pow_le_mono_r; lia).
  change (2 ^ 5) with 32 in H.
  change (Z.min (15 * 2 ^ (Z.of_nat 6 - 1)) 300) with 300. lia.
Qed.

(** The two transitions of the backoff.  A failure sets [failCount] to
    [min(failCount + 1, 6)] and [nextAllowedAt] to
    [now + min(15 s * 2^failCount, 300 s)], where [failCount] on the
    right-hand sides is the count before the failure; [resetBackoff]
    sets both to [0]; and in [updateStatusOperadores] a run that ends
    in its [catch] makes the first transition while a run that returns
    [{ updated: n }] without the warning makes the second. *)
Lemma backoff_transitions :
  (∀ now s,
     failCount (increaseBackoff now s) = Nat.min (failCount s + 1) 6
     ∧ nextAllowedAt (increaseBackoff now s)
       = now + Z.min (15000 * 2 ^ Z.of_nat (failCount s)) 300000)
  ∧ (∀ s, failCount (resetBackoff s) = O ∧ nextAllowedAt (resetBackoff s) = 0)
  ∧ (∀ cfg t w s msg s',
       updateStatusOperadores cfg t w s = Some (Js.Resolved (Failed msg), s') →
       failCount s' = Nat.min (failCount s + 1) 6
       ∧ nextAllowedAt s'
         = uw_now w + Z.min (15000 * 2 ^ Z.of_nat (failCount s)) 300000)
  ∧ (∀ cfg t w s n s',
       updateStatusOperadores cfg t w s = Some (Js.Resolved (Updated n false), s') →
       failCount s' = O ∧ nextAllowedAt s' = 0).
Proof.
  split; [|split; [|split]].
  - intros now s. simpl. by rewrite delaySec_before.
  - done.
  - intros cfg t w s msg s'. unfold updateStatusOperadores.
    destruct (update_guard cfg t s); [done|].
    destruct (update_try _ _ _) as [[[e|r] s1]|] eqn:E; [| |done].
    + apply update_try_control in E as (_ & _ & Hc & Hn). simpl in Hc, Hn.
      unfold update_catch.
      destruct (Js.includes _ _); intros [= _ <-]; simpl;
        by rewrite Hc, delaySec_before.
    + intros [= -> <-].
      by apply update_try_control in E as (_ & _ & []).
  - intros cfg t w s n s'. unfold updateStatusOperadores.
    destruct (update_guard cfg t s); [done|].
    destruct (update_try _ _ _) as [[[e|r] s1]|] eqn:E; [| |done].
    + unfold update_catch. by destruct (Js.includes _ _).
    + intros [= -> <-].
      by apply update_try_control in E as (_ & _ & []).
Qed.

(** A run whose [try] block throws ends in the [catch]: it resolves
    with the error and makes the transition of a failure. *)
Lemma failing_run_increases_backoff cfg t w s e s1 :
  update_guard cfg t s = None →
  update_try cfg w (set_isFetching true s) = Some (inl e, s1) →
  ∃ s', updateStatusOperadores cfg t w s
        = Some (Js.Resolved (Failed (Js.or_else (Js.err_message e)
                                       (Js.error_to_string e))), s')
    ∧ failCount s' = Nat.min (failCount s + 1) 6
    ∧ nextAllowedAt s'
      = uw_now w + Z.min (15000 * 2 ^ Z.of_nat (failCount s)) 300000.
Proof.
  intros Hg Ht. unfold updateStatusOperadores. rewrite Hg, Ht.
  apply update_try_control in Ht as (_ & _ & Hc & Hn). cbn in Hc.
  unfold update_catch. eexists. split; [reflexivity|].
  destruct (Js.includes _ _); cbn; by rewrite Hc, delaySec_before.
Qed.

(** C3, on the return with the warning: after three runs that failed
    at the times 1000, 20000 and 60000, the database being out of
    reach, [failCount] is [3] and [nextAllowedAt] is
    [60000 + 15000 * 2^2 = 120000].  A run at time
    [200000] that finds no [id_argus] nor [ramal] column in the table
    of the status does not fail: it resolves with
    [{ updated: 0, warning }], records no error, and leaves both as
    they were; whereas the run that finds the table of the
    collaborators without the column, from the same state, resolves
    with [{ updated: 0 }] and resets both to [0], like every other
    return of [{ updated }]. *)
Theorem C3_warning_return_keeps_backoff :
  map (λ s, (failCount s, nextAllowedAt s))
      [run_pool_down initial_state 1000;
       run_pool_down (run_pool_down initial_state 1000) 20000;
       after_three_failures]
  = [(1%nat, 16000); (2%nat, 50000); (3%nat, 120000)]
  ∧ is_Some (lastError after_three_failures)
  ∧ (∃ s', updateStatusOperadores cfg_default 200000 world_status_without_id
             after_three_failures
           = Some (Js.Resolved (Updated 0 true), s')
       ∧ failCount s' = 3%nat ∧ nextAllowedAt s' = 120000
       ∧ lastError s' = lastError after_three_failures)
  ∧ (∃ s', updateStatusOperadores cfg_default 200000 world_colab_without_id
             after_three_failures
           = Some (Js.Resolved (Updated 0 false), s')
       ∧ failCount s' = 0%nat ∧ nextAllowedAt s' = 0).
Proof.
  split; [by vm_compute|]. split; [vm_compute; by eexists|]. split.
  - eexists. split; [vm_compute; reflexivity|]. by vm_compute.
  - eexists. split; [vm_compute; reflexivity|]. by vm_compute.
Qed.

End StatusFacts.

Section StatusLatch.
Import StatusController.

Lemma classify_403 cfg ramal attempt d :
  classify cfg ramal attempt (Response 403 d) = Return None true.
Proof. done. Qed.

Lemma attempts_403 cfg ramal resps : ∀ fuel attempt r a n,
  attempts cfg ramal resps fuel attempt = (r, a, n) →
  (∃ k d, (k < n)%nat ∧ resps (attempt + k)%nat = Response 403 d) →
  r = None ∧ a = true.
Proof.
  induction fuel as [|fuel IH]; intros attempt r a n; cbn [attempts].
  - intros [= <- <- <-] (k & d & Hk & _). lia.
  - destruct (classify cfg ramal (Z.of_nat attempt) (resps attempt)) as [r0 a0|] eqn:Ec.
    + intros [= <- <- <-] (k & d & Hk & Hr).
      replace (attempt + k)%nat with attempt in Hr by lia.
      rewrite Hr, classify_403 in Ec. by inversion Ec.
    + destruct (attempts cfg ramal resps fuel (S attempt)) as [[r1 a1] n1] eqn:Ea.
      intros [= <- <- <-] (k & d & Hk & Hr).
      destruct k as [|k].
      * replace (attempt + 0)%nat with attempt in Hr by lia.
        rewrite Hr, classify_403 in Ec. discriminate.
      * eapply IH; [exact Ea|]. exists k, d. split; [lia|].
        by replace (S attempt + k)%nat with (attempt + S k)%nat by lia.
Qed.

Lemma fetch_latched cfg ramal resps s :
  _argusAuthFailed s = true → fetchArgusForRamal cfg ramal resps s = (None, s, O).
Proof.
  intros H. unfold fetchArgusForRamal. rewrite H. by destruct (_ || _).
Qed.

Lemma fetch_flag_mono cfg ramal resps s :
  _argusAuthFailed s = true →
  _argusAuthFailed (snd (fst (fetchArgusForRamal cfg ramal resps s))) = true.
Proof. intros H. by rewrite fetch_latched. Qed.

Lemma update_flag_mono cfg t w s out s' :
  updateStatusOperadores cfg t w s = Some (out, s') →
  _argusAuthFailed s = true → _argusAuthFailed s' = true.
Proof.
  unfold updateStatusOperadores. destruct (update_guard cfg t s).
  { by intros [= <- <-]. }
  destruct (update_try _ _ _) as [[[e|r] s1]|] eqn:E; [| |done].
  - apply update_try_control in E as (_ & Ha & _).
    unfold update_catch. destruct (Js.includes _ _); intros [= _ <-] H; simpl; auto.
  - apply update_try_control in E as (_ & Ha & _).
    intros [= _ <-] H. simpl. auto.
Qed.

Lemma get_flag_mono cfg t gw s :
  _argusAuthFailed (snd (getStatusOperadores cfg t gw s)) = _argusAuthFailed s.
Proof.
  unfold getStatusOperadores.
  destruct (match cache_data s with Some _ => _ | None => _ end); [done|].
  assert (∀ out s1, get_try cfg t gw s = (out, s1) →
            _argusAuthFailed s1 = _argusAuthFailed s) as Htry.
  { unfold get_try. intros out s1. destruct (gw_pool gw).
    2,3: by intros [= <- <-].
    destruct (detectColumns (TABELA_COLAB cfg) _ s) as [cc s2] eqn:E1.
    destruct (detectColumns (TABELA_STATUS cfg) _ s2) as [sc s3] eqn:E2.
    apply detectColumns_flag in E1, E2.
    destruct (gw_rows gw); intros [= <- <-]; simpl; congruence. }
  destruct (get_try cfg t gw s) as [[e|p] s1] eqn:E; specialize (Htry _ _ eq_refl).
  - simpl. destruct (cache_data s1); simpl; done.
  - simpl. unfold update_start. by destruct (update_guard _ _ _).
Qed.

(** Once the flag is raised the later chunks of a batch send nothing. *)
Lemma processBatch_go_latched cfg argus c fuel : ∀ items s,
  _argusAuthFailed s = true →
  processBatch_go cfg argus c fuel items s = ([], s, O).
Proof.
  assert (∀ s chunk, _argusAuthFailed s = true →
            run_chunk cfg argus s chunk = ([], s, O)) as Hchunk.
  { intros s chunk Hs. unfold run_chunk.
    assert (map (fetch_item cfg argus s) chunk
            = map (λ _, (None, true, O)) chunk) as ->.
    { apply map_ext. intros [i row]. unfold fetch_item.
      by rewrite (fetch_latched _ _ _ _ Hs), Hs. }
    assert (set_argusAuthFailed true s = s) as Hset
      by (destruct s; simpl in *; by subst).
    f_equal; [f_equal|].
    - induction chunk as [|x chunk IH]; [done|exact IH].
    - destruct (existsb _ _); [exact Hset|done].
    - induction chunk as [|x chunk IH]; [done|exact IH]. }
  induction fuel as [|fuel IH]; intros items s Hs; [done|].
  cbn [processBatch_go]. destruct items as [|it items]; [done|].
  rewrite (Hchunk _ _ Hs). by rewrite (IH _ _ Hs).
Qed.

Lemma run_call_flag_mono cfg c s s' :
  run_call cfg c s = Some s' →
  _argusAuthFailed s = true → _argusAuthFailed s' = true.
Proof.
  destruct c as [ramal resps|t w|t gw]; simpl.
  - intros [= <-]. apply fetch_flag_mono.
  - destruct (updateStatusOperadores cfg t w s) as [[out s1]|] eqn:E; [|done].
    intros [= <-]. eapply update_flag_mono; eauto.
  - intros [= <-] H. by rewrite get_flag_mono.
Qed.

Lemma run_calls_flag_mono cfg cs : ∀ s s',
  run_calls cfg cs s = Some s' →
  _argusAuthFailed s = true → _argusAuthFailed s' = true.
Proof.
  induction cs as [|c cs IH]; intros s s'; simpl.
  - by intros [= <-].
  - destruct (run_call cfg c s) as [s1|] eqn:E; [|done].
    intros Hr Hs. eapply IH; [exact Hr|]. eapply run_call_flag_mono; eauto.
Qed.

(** C4: when a call of [fetchArgusForRamal] gets a 403 to one of the
    requests it sends, it returns [null] and raises the flag; after any
    further calls on the module the flag is still raised, and every
    call of [fetchArgusForRamal] then sends no request, returns [null]
    and leaves the state as it is. *)
Theorem C4_403_latch cfg ramal resps s r s1 n :
  fetchArgusForRamal cfg ramal resps s = (r, s1, n) →
  (∃ k d, (k < n)%nat ∧ resps k = Response 403 d) →
  r = None ∧ _argusAuthFailed s1 = true
  ∧ ∀ calls s2, run_calls cfg calls s1 = Some s2 →
      _argusAuthFailed s2 = true
      ∧ ∀ ramal' resps', fetchArgusForRamal cfg ramal' resps' s2 = (None, s2, O).
Proof.
  intros Hf H403.
  assert (r = None ∧ _argusAuthFailed s1 = true) as [-> Hs1].
  { revert Hf. unfold fetchArgusForRamal.
    destruct (_ || _).
    { intros [= <- <- <-]. destruct H403 as (k & d & Hk & _). lia. }
    destruct (_argusAuthFailed s).
    { intros [= <- <- <-]. destruct H403 as (k & d & Hk & _). lia. }
    destruct (attempts _ _ _ _ _) as [[r0 a0] n0] eqn:Ea.
    intros [= <- <- <-].
    destruct (attempts_403 _ _ _ _ _ _ _ _ Ea H403) as [-> ->]. done. }
  repeat split; [done|..].
  - eapply run_calls_flag_mono; eauto.
  - intros. apply fetch_latched. eapply run_calls_flag_mono; eauto.
Qed.

Lemma C4_403_latch_witness :
  (None : option argus_result) = None
  ∧ _argusAuthFailed (set_argusAuthFailed true initial_state) = true
  ∧ ∀ calls s2,
      run_calls cfg_default calls (set_argusAuthFailed true initial_state) = Some s2 →
      _argusAuthFailed s2 = true
      ∧ ∀ ramal' resps',
          fetchArgusForRamal cfg_default ramal' resps' s2 = (None, s2, O).
Proof.
  apply (C4_403_latch cfg_default "1001" resps_403 initial_state
           None (set_argusAuthFailed true initial_state) 1%nat).
  - vm_compute. reflexivity.
  - exists O, None. split; [lia|reflexivity].
Defined.

(** C10, in the form the code satisfies: with a positive
    [ARGUS_CONCURRENCY] every call of
    [updateStatusOperadores] settles, and it resolves (it never
    rejects).  A call that passes the guards ends with [isFetching]
    lowered, whether the run succeeds or fails, so the in-flight guard
    does not stop the next call; a call stopped by a guard resolves to
    the skip object and leaves the state, the flag included, as it found
    it; hence a call that finds the flag lowered leaves it lowered. *)
Theorem C10_fetch_flag_released cfg t w s :
  0 < ARGUS_CONCURRENCY cfg →
  ∃ r s', updateStatusOperadores cfg t w s = Some (Js.Resolved r, s')
    ∧ (update_guard cfg t s = None →
         isFetching s' = false ∧ ∀ t', update_guard cfg t' s' ≠ Some InFlight)
    ∧ (∀ why, update_guard cfg t s = Some why → r = Skipped why ∧ s' = s)
    ∧ (isFetching s = false → isFetching s' = false).
Proof.
  intros Hc. unfold updateStatusOperadores.
  destruct (update_guard cfg t s) as [why|] eqn:Eg.
  - exists (Skipped why), s. split; [done|]. split; [done|]. split; [|done].
    by intros ? [= <-].
  - assert (∀ s', isFetching s' = false → ∀ t', update_guard cfg t' s' ≠ Some InFlight) as Hg.
    { intros s' Hs' t'. unfold update_guard. rewrite Hs'.
      destruct (t' <? nextAllowedAt s'); [done|].
      destruct (negb (has_token cfg)); [done|].
      by destruct (_argusAuthFailed s'). }
    destruct (update_try_terminates cfg w (set_isFetching true s) Hc) as [[[e|r] s1] ->].
    + destruct (update_catch w e s1) as [r s2]. exists r, (set_isFetching false s2).
      split; [done|]. split; [by auto|]. by split.
    + exists r, (set_isFetching false s1).
      split; [done|]. split; [by auto|]. by split.
Qed.

Lemma C10_fetch_flag_released_witness :
  ∃ r s', updateStatusOperadores cfg_default 0 world_pool_down initial_state
          = Some (Js.Resolved r, s')
    ∧ (update_guard cfg_default 0 initial_state = None →
         isFetching s' = false ∧ ∀ t', update_guard cfg_default t' s' ≠ Some InFlight)
    ∧ (∀ why, update_guard cfg_default 0 initial_state = Some why →
         r = Skipped why ∧ s' = initial_state)
    ∧ (isFetching initial_state = false → isFetching s' = false).
Proof.
  apply (C10_fetch_flag_released cfg_default 0 world_pool_down initial_state).
  reflexivity.
Defined.

(** A call made while another run is in flight resolves to the skip
    object and ends with the flag still raised. *)
Lemma C10_call_in_flight_keeps_flag :
  updateStatusOperadores cfg_default 0 world_ok (set_isFetching true initial_state)
  = Some (Js.Resolved (Skipped InFlight), set_isFetching true initial_state)
  ∧ isFetching (set_isFetching true initial_state) = true
  ∧ ¬ (∀ cfg t w s r s',
         updateStatusOperadores cfg t w s = Some (Js.Resolved r, s') →
         isFetching s' = false).
Proof.
  split; [reflexivity|]. split; [reflexivity|].
  intros H.
  specialize (H cfg_default 0 world_ok (set_isFetching true initial_state)
                _ _ eq_refl).
  discriminate H.
Qed.

End StatusLatch.

(** ** The TTL cache *)

Section CacheFacts.
Import CacheService.
Context {V : Type}.

(** What [get] answers after a [set] of the same key. *)
Lemma get_after_set (T0 T t : Z) (k : string) (v : V) (c : CacheService.t V) :
  fst (get T k (set T0 k v (Some t) c)) = if T - T0 <=? t then Some v else None.
Proof.
  unfold get, set. simpl. rewrite lookup_insert_eq. simpl.
  destruct (Z.ltb_spec (T0 + t) T), (Z.leb_spec (T - T0) t); simpl; done || lia.
Qed.

Lemma get_absent (T : Z) (k : string) (c : CacheService.t V) :
  cache c !! k = None → fst (get T k c) = None.
Proof. intros H. unfold get. by rewrite H. Qed.

Lemma has_after_set (T0 T t : Z) (k : string) (v : V) (c : CacheService.t V) :
  has T k (set T0 k v (Some t) c) = (T - T0 <? t).
Proof.
  unfold has, set. simpl. rewrite lookup_insert_eq. simpl.
  destruct (Z.ltb_spec T (T0 + t)), (Z.ltb_spec (T - T0) t); done || lia.
Qed.

Lemma cleanup_after_set (T0 T t : Z) (k : string) (v : V) (c : CacheService.t V) :
  t ≤ T - T0 → cache (cleanup T (set T0 k v (Some t) c)) !! k = None.
Proof.
  intros H. unfold cleanup, set. simpl.
  apply map_lookup_filter_None. right. intros e He.
  rewrite lookup_insert_eq in He. injection He as <-. simpl. lia.
Qed.

End CacheFacts.

(** C7, at the instant of expiry: after [set("k", 7, 10)] at time [100],
    [get("k")] at time [110], when [T - T0 = ttl], still returns the
    value and keeps the entry, while [has("k")] answers [false] and
    [cleanup()] evicts the entry at that same instant. *)
Theorem C7_get_at_expiry_returns_value :
  fst (CacheService.get 110 "k" CacheService.sample) = Some 7%nat
  ∧ CacheService.cache (snd (CacheService.get 110 "k" CacheService.sample)) !! "k"
    = Some (CacheService.Entry 7%nat 110)
  ∧ CacheService.has 110 "k" CacheService.sample = false
  ∧ CacheService.cache (CacheService.cleanup 110 CacheService.sample) !! "k" = None.
Proof.
  unfold CacheService.sample. split; [|split; [|split]].
  - by rewrite get_after_set.
  - unfold CacheService.get, CacheService.set. simpl.
    rewrite lookup_insert_eq. simpl. by rewrite lookup_insert_eq.
  - by rewrite has_after_set.
  - by apply cleanup_after_set.
Qed.

(** ** The photo service *)

Section FotoFacts.
Import FotoService.

Lemma truthy_true (s : string) : Js.truthy s = true ↔ s ≠ "".
Proof.
  unfold Js.truthy. destruct (String.eqb_spec s ""); simpl; split; congruence.
Qed.

Lemma append_nonempty_r (a b : string) : b ≠ "" → a +:+ b ≠ "".
Proof. destruct a; simpl; [done|discriminate]. Qed.

Lemma placeholder_nonempty cfg : placeholder cfg ≠ "".
Proof. unfold placeholder. by apply append_nonempty_r. Qed.

Lemma append_assoc (a b c : string) : (a +:+ b) +:+ c = a +:+ (b +:+ c).
Proof.
  induction a as [|x a IH]; [done|].
  change (String x ((a +:+ b) +:+ c) = String x (a +:+ (b +:+ c))).
  by rewrite IH.
Qed.

Lemma placeholder_shape cfg : url_shape cfg (placeholder cfg).
Proof.
  split; [apply placeholder_nonempty|]. right.
  exists "/vieira-icone.jpg?v=1". split; [done|].
  change (placeholder cfg) with ((APP_BASE cfg +:+ "/vieira-icone.jpg") +:+ "?v=1").
  by rewrite append_assoc.
Qed.

Lemma trim_slash_head (s : string) : ∃ r, Js.trim ("/" +:+ s) = String "/"%char r.
Proof.
  unfold Js.trim.
  change (Js.trimStart ("/" +:+ s)) with (String "/"%char s).
  cbn [Js.trimEnd]. destruct (Js.trimEnd s); eexists; by vm_compute.
Qed.

Lemma toAbsoluteUrl_slash cfg (s : string) :
  ∃ r, toAbsoluteUrl cfg ("/" +:+ s) = APP_BASE cfg +:+ String "/"%char r.
Proof.
  destruct (trim_slash_head s) as [r Hr]. exists r.
  unfold toAbsoluteUrl.
  change (Js.truthy ("/" +:+ s)) with true. cbn [negb]. by rewrite Hr.
Qed.

Lemma path_char_not_white (c : ascii) :
  is_path_char c = true → Js.is_white c = false.
Proof.
  destruct c as [b0 b1 b2 b3 b4 b5 b6 b7].
  destruct b0, b1, b2, b3, b4, b5, b6, b7; by vm_compute.
Qed.

Lemma trim_path (s : string) :
  Js.all_chars is_path_char s = true → Js.trim s = s.
Proof.
  intros H. unfold Js.trim.
  assert (Js.trimStart s = s) as ->.
  { destruct s as [|c r]; [done|]. simpl in *.
    apply andb_prop in H as [Hc _]. by rewrite (path_char_not_white c Hc). }
  induction s as [|c r IH]; [done|]. simpl in *.
  apply andb_prop in H as [Hc Hr]. rewrite (IH Hr), (path_char_not_white c Hc).
  by destruct r.
Qed.

Lemma drop_chars_path (n : nat) (s : string) :
  Js.all_chars is_path_char s = true →
  Js.all_chars is_path_char (Js.drop_chars n s) = true.
Proof.
  revert s. induction n as [|n IH]; intros s H; [done|].
  destruct s as [|c r]; [done|]. simpl in *.
  apply andb_prop in H as [_ Hr]. by apply IH.
Qed.

(** For a name of image file the two returns of [sanitizeFotoPath], the
    one taken when the file exists under the public directory and the
    other, give the same string. *)
Lemma image_file_url cfg (s : string) :
  is_image_file s = true →
  toAbsoluteUrl cfg ("/" +:+ strip_dot_slash s)
  = APP_BASE cfg +:+ "/" +:+ strip_dot_slash s.
Proof.
  intros H. unfold is_image_file in H. apply andb_prop in H as [H _].
  assert (Js.all_chars is_path_char ("/" +:+ strip_dot_slash s) = true) as Hp.
  { change (Js.all_chars is_path_char (strip_dot_slash s) = true).
    unfold strip_dot_slash. destruct (Js.startsWith "./" s); [|done].
    by apply drop_chars_path. }
  unfold toAbsoluteUrl. rewrite (trim_path _ Hp). reflexivity.
Qed.

(** [sanitizeFotoPath] always returns a string of that shape. *)
Lemma sanitizeFotoPath_shape cfg raw : url_shape cfg (sanitizeFotoPath cfg raw).
Proof.
  unfold sanitizeFotoPath.
  destruct (Js.truthy (Js.trim (default "" raw))) eqn:Et; cbn [negb];
    [|apply placeholder_shape].
  apply truthy_true in Et.
  destruct (_ || _ || _ || _ || _); [apply placeholder_shape|].
  destruct (_ || _) eqn:Eu; [by split; [|left]|].
  destruct (Js.startsWith "/" _); [split; [by apply append_nonempty_r|right; eauto]|].
  destruct (is_image_file _); [|apply placeholder_shape].
  destruct (toAbsoluteUrl_slash cfg (strip_dot_slash (Js.trim (default "" raw))))
    as [r ->].
  split; [by apply append_nonempty_r|]. right.
  exists (String "/"%char r). by split.
Qed.

(** In particular it never returns the empty string. *)
Lemma sanitizeFotoPath_nonempty cfg raw : sanitizeFotoPath cfg raw ≠ "".
Proof. apply sanitizeFotoPath_shape. Qed.

Lemma sanitizeFotoPath_null cfg : sanitizeFotoPath cfg None = placeholder cfg.
Proof. reflexivity. Qed.

Lemma foldl_inv {A B} (P : A → Prop) (f : A → B → A) (l : list B) (a : A) :
  (∀ a b, b ∈ l → P a → P (f a b)) → P a → P (foldl f a l).
Proof.
  revert a. induction l as [|b l IH]; intros a Hf Ha; simpl; [done|].
  apply IH.
  - intros a' b' Hb'. apply Hf. by right.
  - apply Hf; [by left|done].
Qed.

Lemma good_insert a id raw c p cfg :
  good cfg a → good cfg (Acc (<[id := sanitizeFotoPath cfg raw]> (outMap a)) c p).
Proof.
  intros H. unfold good. simpl. apply map_Forall_insert_2; [|done].
  apply sanitizeFotoPath_shape.
Qed.

Lemma check_cache_good cfg o t0 a id : good cfg a → good cfg (check_cache cfg o t0 a id).
Proof.
  intros H. unfold check_cache. destruct (useCache o); [|done].
  destruct (cache a !! id) as [[raw ts]|]; [|done].
  destruct (_ <? _); [|done]. by apply good_insert.
Qed.

Lemma check_cache_covers cfg o t0 a id id' :
  covers a id' ∨ id' = id → covers (check_cache cfg o t0 a id) id'.
Proof.
  unfold covers, check_cache. intros H.
  assert (is_Some (outMap a !! id') ∨ id' ∈ pending a ++ [id]) as Hmiss.
  { destruct H as [[H|H]| ->]; [by left| |]; right;
      rewrite elem_of_app, list_elem_of_singleton; tauto. }
  destruct (useCache o); simpl; [|done].
  destruct (cache a !! id) as [[raw ts]|]; simpl; [|done].
  destruct (_ <? _); simpl; [|done].
  destruct (decide (id' = id)) as [->|Hne].
  - left. rewrite lookup_insert_eq. by eexists.
  - rewrite lookup_insert_ne by done. destruct H as [H|H]; [done|congruence].
Qed.

Lemma check_all_covers cfg o t0 ids : ∀ a id,
  covers a id ∨ id ∈ ids → covers (foldl (check_cache cfg o t0) a ids) id.
Proof.
  induction ids as [|x ids IH]; intros a id H; simpl.
  - destruct H as [H|H]; [done|]. by apply elem_of_nil in H.
  - apply IH. destruct H as [H|H].
    + left. apply check_cache_covers. by left.
    + apply elem_of_cons in H as [->|H]; [|by right].
      left. apply check_cache_covers. by right.
Qed.

Lemma elem_of_set_of_list (x : string) (l : list string) :
  x ∈ set_of_list l ↔ x ∈ l.
Proof.
  unfold set_of_list.
  assert (∀ acc, x ∈ foldl (λ acc x, if bool_decide (x ∈ acc) then acc else acc ++ [x])
                       acc l ↔ x ∈ acc ∨ x ∈ l) as H.
  { induction l as [|y l IH]; intros acc; simpl.
    - rewrite elem_of_nil. tauto.
    - rewrite IH, elem_of_cons. case_bool_decide as Hy.
      + split; [tauto|]. intros [?|[->|?]]; tauto.
      + rewrite elem_of_app, list_elem_of_singleton. tauto. }
  rewrite H, elem_of_nil. tauto.
Qed.

Lemma elem_of_set_delete (x y : string) (l : list string) :
  y ∈ set_delete x l ↔ y ∈ l ∧ y ≠ x.
Proof.
  unfold set_delete. rewrite !list_elem_of_In, filter_In.
  destruct (String.eqb_spec x y); simpl; split; intros []; split; congruence.
Qed.

Lemma store_found_good cfg t1 m a id : good cfg a → good cfg (store_found cfg t1 m a id).
Proof.
  intros H. unfold store_found. destruct (m !! id); [|done]. by apply good_insert.
Qed.

Lemma store_found_covers cfg t1 m a id id' :
  covers a id' → covers (store_found cfg t1 m a id) id'.
Proof.
  unfold covers, store_found. intros H. destruct (m !! id); [|done]. simpl.
  destruct (decide (id' = id)) as [->|Hne].
  - left. rewrite lookup_insert_eq. by eexists.
  - rewrite lookup_insert_ne by done. rewrite elem_of_set_delete. tauto.
Qed.

Lemma fetch_source_inv cfg t1 db a useCloud id :
  good cfg a ∧ covers a id → 
  good cfg (fetch_source cfg t1 db a useCloud) ∧ covers (fetch_source cfg t1 db a useCloud) id.
Proof.
  intros H. unfold fetch_source. destruct (pending a); [done|].
  apply (foldl_inv (λ a, good cfg a ∧ covers a id)); [|done].
  intros a' batch _ H'. unfold fetch_batch. destruct (db useCloud batch); [|done].
  apply (foldl_inv (λ a, good cfg a ∧ covers a id)); [|done].
  intros a'' i _ [Hg Hc]. split; [by apply store_found_good|by apply store_found_covers].
Qed.

Lemma store_fallback_all cfg t1 l : ∀ a id,
  good cfg a →
  good cfg (foldl (store_fallback cfg t1) a l)
  ∧ (is_Some (outMap a !! id) ∨ id ∈ l →
     is_Some (outMap (foldl (store_fallback cfg t1) a l) !! id)).
Proof.
  induction l as [|x l IH]; intros a id Hg; simpl.
  - split; [done|]. intros [H|H]; [done|]. by apply elem_of_nil in H.
  - assert (good cfg (store_fallback cfg t1 a x)) as Hg' by by apply good_insert.
    destruct (IH (store_fallback cfg t1 a x) id Hg') as [IH1 IH2].
    split; [done|]. intros H. apply IH2. simpl.
    destruct (decide (id = x)) as [->|Hne].
    + left. rewrite lookup_insert_eq. by eexists.
    + rewrite lookup_insert_ne by done.
      destruct H as [H|H]; [by left|]. apply elem_of_cons in H as [?|?]; [done|by right].
Qed.

(** The map returned has the requested ids and only non-empty URLs. *)
Lemma fetchFotosMap_total cfg o t0 t1 db ids c :
  (∀ id, id ∈ ids → is_Some (fst (fetchFotosMap cfg o t0 t1 db ids c) !! id))
  ∧ map_Forall (λ _ (url : string), url_shape cfg url) (fst (fetchFotosMap cfg o t0 t1 db ids c)).
Proof.
  unfold fetchFotosMap.
  set (a1 := foldl (check_cache cfg o t0) (Acc ∅ c []) ids).
  assert (good cfg a1) as Hg1.
  { apply (foldl_inv (good cfg)); [|apply map_Forall_empty].
    intros. by apply check_cache_good. }
  assert (∀ id, id ∈ ids → covers a1 id) as Hc1.
  { intros id Hid. apply check_all_covers. by right. }
  destruct (pending a1) as [|x toFetch] eqn:Ep; simpl.
  - split; [|done]. intros id Hid. destruct (Hc1 id Hid) as [H|H]; [done|].
    rewrite Ep in H. by apply elem_of_nil in H.
  - set (a0 := Acc (outMap a1) (cache a1) (set_of_list (x :: toFetch))).
    set (a2 := foldl _ a0 _).
    assert (good cfg a0) as Hg0 by exact Hg1.
    assert (∀ id, id ∈ ids → covers a0 id) as Hc0.
    { intros id Hid. destruct (Hc1 id Hid) as [H|H]; [by left|right].
      simpl. apply elem_of_set_of_list. by rewrite <- Ep. }
    assert (∀ id, covers a0 id → good cfg a2 ∧ covers a2 id) as H2.
    { intros id Hid. apply (foldl_inv (λ a, good cfg a ∧ covers a id)); [|done].
      intros a b _. apply fetch_source_inv. }
    assert (good cfg a2) as Hg2.
    { apply (H2 x). right. simpl. apply elem_of_set_of_list. by left. }
    split.
    + intros id Hid.
      destruct (store_fallback_all cfg t1 (pending a2) a2 id Hg2) as [_ H3].
      apply H3. by apply H2, Hc0.
    + by destruct (store_fallback_all cfg t1 (pending a2) a2 x Hg2) as [Hg3 _].
Qed.

(** An id that is not cached and that no answer of the database holds
    gets the default icon. *)
Lemma fetchFotosMap_default cfg o t0 t1 db ids c id :
  id ∈ ids → c !! id = None →
  (∀ b batch m, db b batch = Some m → m !! id = None) →
  fst (fetchFotosMap cfg o t0 t1 db ids c) !! id = Some (placeholder cfg).
Proof.
  intros Hid Hc Hdb. unfold fetchFotosMap.
  set (a1 := foldl (check_cache cfg o t0) (Acc ∅ c []) ids).
  assert (outMap a1 !! id = None ∧ cache a1 !! id = None) as [Ho1 _].
  { apply (foldl_inv (λ a, outMap a !! id = None ∧ cache a !! id = None)); [|done].
    intros a id' _ [Ho Hca]. unfold check_cache.
    destruct (useCache o); [|done].
    destruct (cache a !! id') as [[raw ts]|] eqn:E; [|done].
    assert (id' ≠ id) by congruence.
    destruct (_ <? _); simpl.
    - by rewrite lookup_insert_ne.
    - by rewrite lookup_delete_ne. }
  assert (id ∈ pending a1) as Hp1.
  { destruct (check_all_covers cfg o t0 ids (Acc ∅ c []) id (or_intror Hid)) as [[u Hu]|H];
      [|done]. fold a1 in Hu. congruence. }
  destruct (pending a1) as [|x toFetch] eqn:Ep; [by apply elem_of_nil in Hp1|].
  set (a0 := Acc (outMap a1) (cache a1) (set_of_list (x :: toFetch))).
  set (a2 := foldl _ a0 _).
  assert (outMap a2 !! id = None ∧ id ∈ pending a2) as [Ho2 Hp2].
  { apply (foldl_inv (λ a, outMap a !! id = None ∧ id ∈ pending a)).
    - intros a b _ H. unfold fetch_source. destruct (pending a) eqn:Epa.
      { by rewrite Epa. }
      rewrite <- Epa in *. clear Epa.
      apply (foldl_inv (λ a, outMap a !! id = None ∧ id ∈ pending a)); [|done].
      intros a' batch _ H'. unfold fetch_batch.
      destruct (db b batch) as [m|] eqn:Em; [|done].
      apply (foldl_inv (λ a, outMap a !! id = None ∧ id ∈ pending a)); [|done].
      intros a'' i _ [Ho'' Hp'']. unfold store_found.
      destruct (m !! i) as [raw|] eqn:Ei; [|done]. simpl.
      assert (i ≠ id) by (intros ->; rewrite (Hdb _ _ _ Em) in Ei; done).
      rewrite lookup_insert_ne by done. split; [done|].
      apply elem_of_set_delete. split; [done|congruence].
    - split; [done|]. simpl. by apply elem_of_set_of_list. }
  simpl. revert Hp2. generalize (pending a2) as l. generalize a2 as a. clear.
  intros a l. revert a.
  assert (∀ a, (outMap a !! id = Some (placeholder cfg) ∨ id ∈ l) →
               outMap (foldl (store_fallback cfg t1) a l) !! id
               = Some (placeholder cfg)) as H.
  { induction l as [|y l IH]; intros a Ha; simpl.
    - destruct Ha as [Ha|Ha]; [done|]. by apply elem_of_nil in Ha.
    - apply IH. simpl. destruct (decide (id = y)) as [->|Hne].
      + left. by rewrite lookup_insert_eq.
      + rewrite lookup_insert_ne by done.
        destruct Ha as [Ha|Ha]; [by left|].
        apply elem_of_cons in Ha as [?|?]; [done|by right]. }
  intros a Ha. apply H. by right.
Qed.

(** C9: the map [fetchFotosMap] returns has an entry for every
    requested id; every entry is a non-empty string, which is an
    [http(s)://] or [data:image] URL or a path appended to [APP_BASE];
    and an id that is not cached and for which the database has no row,
    or fails at every lookup, is mapped to the sanitised default icon. *)
Theorem C9_fetchFotosMap_total cfg o t0 t1 db ids c :
  (∀ id, id ∈ ids →
     ∃ url, fst (fetchFotosMap cfg o t0 t1 db ids c) !! id = Some url ∧ url ≠ "")
  ∧ (∀ id url, fst (fetchFotosMap cfg o t0 t1 db ids c) !! id = Some url →
       url ≠ ""
       ∧ ((is_http url || is_data_image url) = true
          ∨ ∃ path, path ≠ "" ∧ url = APP_BASE cfg +:+ path))
  ∧ (∀ id, id ∈ ids → c !! id = None →
       (∀ b batch m, db b batch = Some m → m !! id = None) →
       fst (fetchFotosMap cfg o t0 t1 db ids c) !! id
       = Some (sanitizeFotoPath cfg None))
  ∧ sanitizeFotoPath cfg None = (APP_BASE cfg +:+ "/vieira-icone.jpg") +:+ "?v=1".
Proof.
  destruct (fetchFotosMap_total cfg o t0 t1 db ids c) as [Hall Hgood].
  split; [|split; [|split]].
  - intros id Hid. destruct (Hall id Hid) as [url Hurl].
    exists url. split; [done|]. by apply (Hgood id url).
  - intros id url. apply (Hgood id url).
  - intros id Hid Hc Hdb. rewrite sanitizeFotoPath_null.
    by apply fetchFotosMap_default.
  - reflexivity.
Qed.

(** One id, nothing cached, both databases down: the default icon. *)
Lemma C9_fetchFotosMap_total_witness :
  fst (fetchFotosMap (Config "http://localhost:8003" 15000) (Opts true true) 0 5
         (λ _ _, None) ["7"] ∅) !! "7"
  = Some (sanitizeFotoPath (Config "http://localhost:8003" 15000) None).
Proof.
  apply (proj1 (proj2 (proj2 (C9_fetchFotosMap_total
           (Config "http://localhost:8003" 15000) (Opts true true) 0 5
           (λ _ _, None) ["7"] ∅)))).
  - by left.
  - reflexivity.
  - discriminate.
Defined.

End FotoFacts.

(** ** The ranking *)

Section RankingFacts.
Import RankingController.

Lemma insert_desc_perm x l : insert_desc x l ≡ₚ x :: l.
Proof.
  induction l as [|y l IH]; simpl; [done|].
  destruct (snd x <? snd y); [|done].
  rewrite IH. apply Permutation_swap.
Qed.

Lemma sort_desc_perm l : sort_desc l ≡ₚ l.
Proof.
  induction l as [|x l IH]; simpl; [done|].
  rewrite insert_desc_perm. by rewrite IH.
Qed.

Lemma insert_desc_sorted x l :
  StronglySorted desc l → StronglySorted desc (insert_desc x l).
Proof.
  induction l as [|y l IH]; intros Hs; simpl.
  - by repeat constructor.
  - apply StronglySorted_inv in Hs as [Hl Hy].
    destruct (Z.ltb_spec (snd x) (snd y)).
    + constructor; [by apply IH|].
      rewrite insert_desc_perm. constructor; [unfold desc; lia|done].
    + constructor; [by constructor|]. constructor; [done|].
      eapply List.Forall_impl; [|exact Hy]. unfold desc. simpl. intros; lia.
Qed.

Lemma sort_desc_sorted l : StronglySorted desc (sort_desc l).
Proof.
  induction l as [|x l IH]; simpl; [constructor|]. by apply insert_desc_sorted.
Qed.

(** Insertion keeps the order of the entries of equal amount. *)
Lemma insert_desc_ties v x l : ties v (insert_desc x l) = ties v (x :: l).
Proof.
  induction l as [|y l IH]; [done|]. cbn [insert_desc].
  destruct (Z.ltb_spec (snd x) (snd y)); [|done].
  unfold ties in *. cbn [List.filter] in *. rewrite IH.
  destruct (Z.eqb_spec (snd x) v), (Z.eqb_spec (snd y) v); try done. lia.
Qed.

(** The sort is stable. *)
Lemma sort_desc_ties v l : ties v (sort_desc l) = ties v l.
Proof.
  induction l as [|x l IH]; [done|]. cbn [sort_desc foldr].
  rewrite insert_desc_ties. unfold ties in *. cbn [List.filter].
  fold (sort_desc l). by rewrite IH.
Qed.

Lemma ties_take v n l : ties v (take n l) `prefix_of` ties v l.
Proof.
  exists (ties v (drop n l)). unfold ties.
  by rewrite <- List.filter_app, take_drop.
Qed.

Lemma build_rows_entries cfg key vendedores fotosMap topRows :
  map entry_of (build_rows cfg key vendedores fotosMap topRows) = topRows.
Proof.
  unfold build_rows. apply list_eq. intros i.
  change (map entry_of) with (fmap (M:=list) entry_of).
  rewrite list_lookup_fmap, list_lookup_imap.
  destruct (topRows !! i) as [[id v]|]; done.
Qed.

Lemma build_rows_posicao cfg key vendedores fotosMap topRows i r :
  build_rows cfg key vendedores fotosMap topRows !! i = Some r →
  r_posicao r = Z.of_nat i + 1.
Proof.
  unfold build_rows. rewrite list_lookup_imap.
  destruct (topRows !! i); [|done]. by intros [= <-].
Qed.

Lemma sorted_of_entries (l : list row) :
  StronglySorted desc (map entry_of l) →
  StronglySorted (λ a b, r_valorVendido b ≤ r_valorVendido a) l.
Proof.
  induction l as [|r l IH]; simpl; intros H; [constructor|].
  apply StronglySorted_inv in H as [Hl Hr]. constructor; [by apply IH|].
  apply List.Forall_forall. intros r' Hr'.
  rewrite List.Forall_forall in Hr. apply (Hr (entry_of r')).
  by apply in_map.
Qed.

(** The properties of the list [updateRanking] builds from the totals. *)
Lemma ranking_of_spec cfg key vendedores salesMap fotosMap :
  let out := ranking_of cfg key vendedores salesMap fotosMap in
  map entry_of out = take 5 (sort_desc salesMap)
  ∧ StronglySorted (λ a b, r_valorVendido b ≤ r_valorVendido a) out
  ∧ length out = Nat.min 5 (length salesMap)
  ∧ (∀ i r, out !! i = Some r → r_posicao r = Z.of_nat i + 1)
  ∧ (∀ v, ties v (map entry_of out) `prefix_of` ties v salesMap).
Proof.
  intros out.
  assert (map entry_of out = take 5 (sort_desc salesMap)) as He
    by apply build_rows_entries.
  split; [done|]. split; [|split; [|split]].
  - apply sorted_of_entries. rewrite He.
    pose proof (sort_desc_sorted salesMap) as Hs.
    rewrite <- (take_drop 5 (sort_desc salesMap)) in Hs.
    by apply StronglySorted_app_1_l in Hs.
  - rewrite <- (length_map entry_of), He, length_take.
    by rewrite (Permutation_length (sort_desc_perm salesMap)).
  - intros i r. apply build_rows_posicao.
  - intros v. rewrite He, <- (sort_desc_ties v salesMap). apply ties_take.
Qed.

(** The entries the ranking leaves out: what is beyond the fifth place,
    none of them with an amount above that of a row kept. *)
Lemma ranking_of_rest cfg key vendedores salesMap fotosMap :
  let out := ranking_of cfg key vendedores salesMap fotosMap in
  ∃ rest, salesMap ≡ₚ map entry_of out ++ rest
    ∧ length rest = (length salesMap - 5)%nat
    ∧ (∀ r e, r ∈ out → e ∈ rest → snd e ≤ r_valorVendido r).
Proof.
  intros out. exists (drop 5 (sort_desc salesMap)).
  assert (He : map entry_of out = take 5 (sort_desc salesMap))
    by apply build_rows_entries.
  pose proof (sort_desc_perm salesMap) as Hp.
  split; [|split].
  - by rewrite He, take_drop.
  - by rewrite length_drop, (Permutation_length Hp).
  - intros r e Hr Hrest.
    pose proof (sort_desc_sorted salesMap) as Hs.
    rewrite <- (take_drop 5 (sort_desc salesMap)) in Hs.
    assert (Hin : entry_of r ∈ take 5 (sort_desc salesMap)).
    { rewrite <- He. apply list_elem_of_In, in_map. by apply list_elem_of_In. }
    exact (StronglySorted_app_1_elem_of desc _ _ _ _ Hs Hin Hrest).
Qed.

(** C8: when the sellers have ids and the totals of the day are a
    non-empty map, [updateRanking] returns, and stores in the cache,
    the list built from the totals sorted by descending amount with
    equal amounts in their order in the map, cut to five rows: the
    list is in descending order of [valorVendido], has five rows, or
    as many as the map has entries when these are fewer, [posicao] is
    the index plus one, the rows of each amount come in the order their
    ids have in the map, and the rows are the entries of the map with
    the greatest amounts: the entries of the map are those of the list
    and the entries left out, and no entry left out has an amount
    above that of a row of the list. *)
Theorem C8_ranking_construction cfg empresa now w cells vendedores salesMap :
  w_pool w = Db.PoolOk →
  w_vendedores w = Some vendedores →
  List.filter Js.truthy (map v_id_new vendedores) ≠ [] →
  w_sales w = Some salesMap →
  salesMap ≠ [] →
  ∃ cells' out,
    updateRanking cfg empresa now w cells = Some (cells', out)
    ∧ cells' !! key_of cfg empresa = Some (Cell (Some out) now false None)
    ∧ map entry_of out = take 5 (sort_desc salesMap)
    ∧ sort_desc salesMap ≡ₚ salesMap
    ∧ StronglySorted (λ a b, r_valorVendido b ≤ r_valorVendido a) out
    ∧ (length out ≤ 5)%nat
    ∧ (∀ i r, out !! i = Some r → r_posicao r = Z.of_nat i + 1)
    ∧ (∀ v, ties v (map entry_of out) `prefix_of` ties v salesMap)
    ∧ length out = Nat.min 5 (length salesMap)
    ∧ ∃ rest, salesMap ≡ₚ map entry_of out ++ rest
        ∧ length rest = (length salesMap - 5)%nat
        ∧ (∀ r e, r ∈ out → e ∈ rest → snd e ≤ r_valorVendido r).
Proof.
  intros Hp Hv Hids Hs Hne.
  set (key := key_of cfg empresa).
  set (out := ranking_of cfg key vendedores salesMap (default ∅ (w_fotos w))).
  exists (store key out now cells), out.
  destruct (ranking_of_spec cfg key vendedores salesMap (default ∅ (w_fotos w)))
    as (He & Hsorted & Hlen & Hpos & Hties).
  pose proof (ranking_of_rest cfg key vendedores salesMap (default ∅ (w_fotos w)))
    as Hrest.
  split; [|split; [|split; [|split; [|split; [|split; [|split; [|split; [|split]]]]]]]];
    try done.
  - unfold updateRanking. fold key. cbn [run resume]. rewrite Hp.
    cbn [run resume]. rewrite Hv.
    destruct (List.filter Js.truthy (map v_id_new vendedores)); [done|].
    cbn [run resume]. rewrite Hs. destruct salesMap as [|s0 salesMap]; [done|].
    reflexivity.
  - unfold store. by rewrite lookup_insert_eq.
  - apply sort_desc_perm.
  - fold out in Hlen. lia.
Qed.

Lemma C8_ranking_construction_witness :
  ∃ cells' out,
    updateRanking cfg_default "VIEIRACRED" 1000 world_six ∅ = Some (cells', out)
    ∧ cells' !! key_of cfg_default "VIEIRACRED" = Some (Cell (Some out) 1000 false None)
    ∧ map entry_of out = take 5 (sort_desc six_totals)
    ∧ sort_desc six_totals ≡ₚ six_totals
    ∧ StronglySorted (λ a b, r_valorVendido b ≤ r_valorVendido a) out
    ∧ (length out ≤ 5)%nat
    ∧ (∀ i r, out !! i = Some r → r_posicao r = Z.of_nat i + 1)
    ∧ (∀ v, ties v (map entry_of out) `prefix_of` ties v six_totals)
    ∧ length out = Nat.min 5 (length six_totals)
    ∧ ∃ rest, six_totals ≡ₚ map entry_of out ++ rest
        ∧ length rest = (length six_totals - 5)%nat
        ∧ (∀ r e, r ∈ out → e ∈ rest → snd e ≤ r_valorVendido r).
Proof.
  apply (C8_ranking_construction cfg_default "VIEIRACRED" 1000 world_six ∅ sellers
           six_totals).
  - reflexivity.
  - reflexivity.
  - vm_compute. discriminate.
  - reflexivity.
  - discriminate.
Defined.

(** Of six totals in ascending order the greatest five are kept, the
    last of the map first, and the first of the map is left out. *)
Example ranking_of_six :
  map entry_of (ranking_of cfg_default "VIEIRACRED" sellers six_totals ∅)
  = [("f", 10000); ("e", 5000); ("d", 4000); ("c", 3000); ("b", 2000)].
Proof. by vm_compute. Qed.

(** On the totals A:100.00, B:250.50, C:250.50 the order is B, C, A. *)
Example ranking_of_sample :
  map entry_of (ranking_of cfg_default "VIEIRACRED" sellers
                  [("1", 10000); ("2", 25050); ("3", 25050)] ∅)
  = [("2", 25050); ("3", 25050); ("1", 10000)].
Proof. by vm_compute. Qed.

End RankingFacts.

(** ** Requests on the event loop *)

Lemma woken_elem {A} (aw : list (nat * nat)) (r p : nat) (out : A)
    (rest : list (nat * A)) :
  (r, p) ∈ aw →
  (r, out) ∈ rev (map (λ a, (fst a, out)) (List.filter (λ a, Nat.eqb (snd a) p) aw))
             ++ rest.
Proof.
  intros H. apply elem_of_app. left.
  apply list_elem_of_In, in_rev. rewrite rev_involutive.
  apply (in_map (λ a, (fst a, out)) _ (r, p)), filter_In.
  split; [by apply list_elem_of_In|apply Nat.eqb_refl].
Qed.

Section RankingLoop.
Import RankingController.

(** A refresh that runs to its end answers every handler that awaits
    its promise with what [updateRanking] returns, and leaves the cells
    as [updateRanking] left them, flags cleared. *)
Lemma settle_all_run cfg p w now key : ∀ fuel ph m cells' out r,
  tasks m !! p = Some (Task key ph) →
  run cfg key now w fuel ph (cells m) = Some (cells', out) →
  (r, p) ∈ awaiting m →
  (r, out) ∈ responses (settle_all cfg p w now fuel m)
  ∧ cells (settle_all cfg p w now fuel m) = release key cells'
  ∧ tasks (settle_all cfg p w now fuel m) !! p = None.
Proof.
  induction fuel as [|fuel IH]; intros ph m cells' out r Ht Hrun Hr; [done|].
  cbn [settle_all run] in *. rewrite Ht.
  unfold on_settle. rewrite Ht.
  destruct (resume cfg key now w ph (cells m)) as [c1 [ph'|out1]] eqn:Er.
  - apply IH with (ph := ph'); simpl; [by rewrite lookup_insert_eq|done|done].
  - injection Hrun as <- <-.
    assert (∀ m', tasks m' !! p = None → settle_all cfg p w now fuel m' = m') as Hstop.
    { intros m' Hm'. destruct fuel; [done|]. simpl. by rewrite Hm'. }
    rewrite Hstop by (simpl; apply lookup_delete_eq). simpl.
    split; [by apply woken_elem|]. split; [done|apply lookup_delete_eq].
Qed.

(** A request that finds neither a fresh value nor a refresh to join
    starts one: the cell is flagged, a promise is created and the
    handler awaits it. *)
Lemma getRanking_starts cfg empresa now m :
  is_fresh cfg now (cells m !! key_of cfg empresa) = None →
  in_flight (cells m !! key_of cfg empresa) = None →
  let m' := getRanking cfg empresa now m in
  let c := cells m !! key_of cfg empresa in
  cells m' = <[key_of cfg empresa :=
                 Cell (c ≫= data) (default 0 (ts <$> c)) true (Some (fetches m))]> (cells m)
  ∧ tasks m' !! fetches m = Some (Task (key_of cfg empresa) AtPool)
  ∧ (requests m, fetches m) ∈ awaiting m'
  ∧ fetches m' = S (fetches m).
Proof.
  intros Hf Hi. unfold getRanking. rewrite Hf, Hi. simpl.
  split; [done|]. split; [by rewrite lookup_insert_eq|]. split; [|done].
  apply elem_of_app. right. by apply list_elem_of_singleton.
Qed.

(** A request that finds a refresh in flight joins it: no new call of
    [updateRanking], the handler awaits the promise of the cell. *)
Lemma getRanking_joins cfg empresa now m p :
  is_fresh cfg now (cells m !! key_of cfg empresa) = None →
  in_flight (cells m !! key_of cfg empresa) = Some p →
  resolved m !! p = None →
  let m' := getRanking cfg empresa now m in
  fetches m' = fetches m ∧ tasks m' = tasks m ∧ cells m' = cells m
  ∧ awaiting m' = awaiting m ++ [(requests m, p)].
Proof.
  intros Hf Hi Hr. unfold getRanking. by rewrite Hf, Hi, Hr.
Qed.

(** What a request served alone gets when it has to refresh. *)
Lemma serve_response cfg empresa now w m cells' out :
  is_fresh cfg now (cells m !! key_of cfg empresa) = None →
  in_flight (cells m !! key_of cfg empresa) = None →
  run cfg (key_of cfg empresa) now w 6 AtPool (cells (getRanking cfg empresa now m))
    = Some (cells', out) →
  (requests m, out) ∈ responses (serve cfg empresa now w m)
  ∧ cells (serve cfg empresa now w m) = release (key_of cfg empresa) cells'.
Proof.
  intros Hf Hi Hrun.
  destruct (getRanking_starts cfg empresa now m Hf Hi) as (_ & Ht & Ha & _).
  unfold serve.
  destruct (settle_all_run cfg (fetches m) w now (key_of cfg empresa) 6 AtPool
              (getRanking cfg empresa now m) cells' out (requests m) Ht Hrun Ha)
    as (? & ? & _).
  done.
Qed.

End RankingLoop.

Section EmpresaLoop.
Import EmpresaController.

Lemma empresa_settle_all_run p w now : ∀ fuel ph m c' out r,
  tasks m !! p = Some ph →
  run now w fuel ph (empresasCache m) = Some (c', out) →
  (r, p) ∈ awaiting m →
  (r, out) ∈ responses (settle_all p w now fuel m)
  ∧ empresasCache (settle_all p w now fuel m) = c'
  ∧ tasks (settle_all p w now fuel m) !! p = None.
Proof.
  induction fuel as [|fuel IH]; intros ph m c' out r Ht Hrun Hr; [done|].
  cbn [settle_all run] in *. rewrite Ht.
  unfold on_settle. rewrite Ht.
  destruct (resume now w ph (empresasCache m)) as [c1 [ph'|out1]] eqn:Er.
  - apply IH with (ph := ph'); simpl; [by rewrite lookup_insert_eq|done|done].
  - injection Hrun as <- <-.
    assert (∀ m', tasks m' !! p = None → settle_all p w now fuel m' = m') as Hstop.
    { intros m' Hm'. destruct fuel; [done|]. simpl. by rewrite Hm'. }
    rewrite Hstop by (simpl; apply lookup_delete_eq). simpl.
    split; [by apply woken_elem|]. split; [done|apply lookup_delete_eq].
Qed.

(** What a request served alone gets when it has to refresh. *)
Lemma empresa_serve_response cfg now w m c' out :
  is_fresh cfg now (empresasCache m) = None →
  in_flight (empresasCache m) = None →
  run now w 3 AtPool (Cell (data (empresasCache m)) (ts (empresasCache m))
                           true (Some (fetches m)))
    = Some (c', out) →
  (requests m, out) ∈ responses (serve cfg now w m)
  ∧ empresasCache (serve cfg now w m) = c'
  ∧ tasks (serve cfg now w m) !! fetches m = None.
Proof.
  intros Hf Hi Hrun. unfold serve.
  apply (empresa_settle_all_run (fetches m) w now 3 AtPool).
  - unfold getEmpresas. rewrite Hf, Hi. simpl. by rewrite lookup_insert_eq.
  - unfold getEmpresas. by rewrite Hf, Hi.
  - unfold getEmpresas. rewrite Hf, Hi. simpl.
    apply elem_of_app. right. by apply list_elem_of_singleton.
Qed.

(** A refresh that fails returns the cached list, or the empty list,
    and lowers [isFetching] while [fetchPromise] stays. *)
Lemma updateEmpresas_fails now w c :
  w_pool w ≠ Db.PoolOk ∨ w_empresas w = None →
  run now w 3 AtPool c
  = Some (Cell (data c) (ts c) false (fetchPromise c), default [] (data c)).
Proof.
  intros H. cbn [run resume].
  destruct (w_pool w) eqn:Ep; [|done..].
  destruct H as [H|H]; [done|]. cbn [run resume]. by rewrite H.
Qed.

End EmpresaLoop.

Section RankingFailures.
Import RankingController.

Lemma run_S cfg key now w fuel ph cells :
  run cfg key now w (S fuel) ph cells
  = match resume cfg key now w ph cells with
    | (cells', inl ph') => run cfg key now w fuel ph' cells'
    | (cells', inr out) => Some (cells', out)
    end.
Proof. done. Qed.

Lemma run_outer_failure cfg key now w cells c :
  cells !! key = Some c →
  w_pool w ≠ Db.PoolOk ∨ w_vendedores w = None →
  ∃ cells',
    run cfg key now w 6 AtPool cells
    = Some (cells', match data c with Some d => d | None => w_persisted w end).
Proof.
  intros Hc H.
  assert (∀ fuel, ∃ cells',
            match outer_catch key cells with
            | (c1, inl ph') => run cfg key now w (S fuel) ph' c1
            | (c1, inr out) => Some (c1, out)
            end
            = Some (cells', match data c with Some d => d | None => w_persisted w end))
    as Hcatch.
  { intros fuel. unfold outer_catch. rewrite Hc.
    destruct (data c); eexists; reflexivity. }
  rewrite run_S. cbn [resume]. destruct (w_pool w) eqn:Ep; [|apply Hcatch..].
  destruct H as [H|H]; [done|]. rewrite run_S. cbn [resume]. rewrite H. apply Hcatch.
Qed.

Lemma run_sales_failure cfg key now w cells c vendedores :
  cells !! key = Some c →
  w_pool w = Db.PoolOk →
  w_vendedores w = Some vendedores →
  List.filter Js.truthy (map v_id_new vendedores) ≠ [] →
  w_sales w = None →
  run cfg key now w 6 AtPool cells
  = Some (cells, match w_persisted w with
                 | [] => default [] (data c)
                 | persisted => persisted
                 end).
Proof.
  intros Hc Hp Hv Hids Hs. rewrite run_S. cbn [resume]. rewrite Hp.
  rewrite run_S. cbn [resume]. rewrite Hv.
  destruct (List.filter Js.truthy (map v_id_new vendedores)); [done|].
  rewrite run_S. cbn [resume]. rewrite Hs. rewrite run_S. cbn [resume].
  destruct (w_persisted w); [|done]. rewrite Hc.
  by destruct c as [[d|] ? ? ?].
Qed.

End RankingFailures.

Section StatusFailures.
Import StatusController.

Lemma get_try_failure_cache cfg t gw s e s1 :
  get_try cfg t gw s = (inl e, s1) → cache_data s1 = cache_data s.
Proof.
  unfold get_try. destruct (gw_pool gw).
  2,3: by intros [= _ <-].
  destruct (detectColumns (TABELA_COLAB cfg) _ s) as [cc s2] eqn:E1.
  destruct (detectColumns (TABELA_STATUS cfg) _ s2) as [sc s3] eqn:E2.
  apply detectColumns_control in E1 as (_ & _ & _ & H1 & _).
  apply detectColumns_control in E2 as (_ & _ & _ & H2 & _).
  destruct (gw_rows gw); [|done]. intros [= _ <-]. congruence.
Qed.

(** The handler always answers with status 200. *)
Lemma status_always_200 cfg t gw s :
  res_status (fst (getStatusOperadores cfg t gw s)) = 200.
Proof.
  unfold getStatusOperadores.
  destruct (match cache_data s with Some _ => _ | None => _ end); [done|].
  destruct (get_try cfg t gw s) as [[e|p] s1]; [|done].
  simpl. by destruct (cache_data s1).
Qed.

(** When the read fails the handler sends the cached payload, or the
    empty payload when nothing is cached. *)
Lemma status_failure_response cfg t gw s e s1 :
  get_try cfg t gw s = (inl e, s1) →
  res_body (fst (getStatusOperadores cfg t gw s))
  = default empty_payload (cache_data s).
Proof.
  intros Hg. unfold getStatusOperadores.
  destruct (cache_data s) as [d|] eqn:Ec.
  - destruct (_ <? _); [done|]. rewrite Hg. simpl.
    by rewrite (get_try_failure_cache _ _ _ _ _ _ Hg), Ec.
  - rewrite Hg. simpl. by rewrite (get_try_failure_cache _ _ _ _ _ _ Hg), Ec.
Qed.

End StatusFailures.

(** C2, in the form the code satisfies.  The three handlers answer a
    failed refresh with
    status 200 and never throw (the models of [getRanking] and
    [getEmpresas] record the body only: every response of theirs is sent
    with [res.json] or [res.status(200).json]).
    - Status: the body is the cached payload, or the empty payload when
      nothing is cached.
    - Companies: the body is the cached list, or the empty list.
    - Ranking, when the pool or the query of the sellers fails: the body
      is the cached ranking or, when nothing is cached, the ranking
      saved today in [ranking_operador], which is empty when none was
      saved.
    - Ranking, when the sales cannot be read: the body is the ranking
      saved today when there is one, else the cached ranking, else the
      empty list. *)
Theorem C2_failed_refresh_response :
  (∀ cfg t gw s,
     StatusController.res_status (fst (StatusController.getStatusOperadores cfg t gw s)) = 200
     ∧ ∀ e s1, StatusController.get_try cfg t gw s = (inl e, s1) →
         StatusController.res_body (fst (StatusController.getStatusOperadores cfg t gw s))
         = default StatusController.empty_payload (StatusController.cache_data s))
  ∧ (∀ cfg now w m,
       EmpresaController.is_fresh cfg now (EmpresaController.empresasCache m) = None →
       EmpresaController.in_flight (EmpresaController.empresasCache m) = None →
       EmpresaController.w_pool w ≠ Db.PoolOk ∨ EmpresaController.w_empresas w = None →
       (EmpresaController.requests m,
        default [] (EmpresaController.data (EmpresaController.empresasCache m)))
       ∈ EmpresaController.responses (EmpresaController.serve cfg now w m))
  ∧ (∀ cfg empresa now w m,
       let key := RankingController.key_of cfg empresa in
       RankingController.is_fresh cfg now (RankingController.cells m !! key) = None →
       RankingController.in_flight (RankingController.cells m !! key) = None →
       RankingController.w_pool w ≠ Db.PoolOk ∨ RankingController.w_vendedores w = None →
       (RankingController.requests m,
        match RankingController.cached (RankingController.cells m) key with
        | Some d => d
        | None => RankingController.w_persisted w
        end)
       ∈ RankingController.responses (RankingController.serve cfg empresa now w m))
  ∧ (∀ cfg empresa now w m vendedores,
       let key := RankingController.key_of cfg empresa in
       RankingController.is_fresh cfg now (RankingController.cells m !! key) = None →
       RankingController.in_flight (RankingController.cells m !! key) = None →
       RankingController.w_pool w = Db.PoolOk →
       RankingController.w_vendedores w = Some vendedores →
       List.filter Js.truthy (map RankingController.v_id_new vendedores) ≠ [] →
       RankingController.w_sales w = None →
       (RankingController.requests m,
        match RankingController.w_persisted w with
        | [] => default [] (RankingController.cached (RankingController.cells m) key)
        | persisted => persisted
        end)
       ∈ RankingController.responses (RankingController.serve cfg empresa now w m)).
Proof.
  split; [|split; [|split]].
  - intros cfg t gw s. split; [apply status_always_200|].
    intros e s1. apply status_failure_response.
  - intros cfg now w m Hf Hi Hw.
    pose proof (updateEmpresas_fails now w
                  (EmpresaController.Cell
                     (EmpresaController.data (EmpresaController.empresasCache m))
                     (EmpresaController.ts (EmpresaController.empresasCache m))
                     true (Some (EmpresaController.fetches m))) Hw) as Hrun.
    by destruct (empresa_serve_response cfg now w m _ _ Hf Hi Hrun) as [? _].
  - intros cfg empresa now w m key Hf Hi Hw.
    destruct (getRanking_starts cfg empresa now m Hf Hi) as (Hc & _).
    edestruct (run_outer_failure cfg key now w
                 (RankingController.cells (RankingController.getRanking cfg empresa now m)))
      as [cells' Hrun]; [|exact Hw|].
    { rewrite Hc. apply lookup_insert_eq. }
    simpl in Hrun.
    by destruct (serve_response cfg empresa now w m _ _ Hf Hi Hrun) as [? _].
  - intros cfg empresa now w m vendedores key Hf Hi Hp Hv Hids Hs.
    destruct (getRanking_starts cfg empresa now m Hf Hi) as (Hc & _).
    assert (RankingController.cells (RankingController.getRanking cfg empresa now m)
              !! key
            = Some (RankingController.Cell
                      (RankingController.cached (RankingController.cells m) key)
                      (default 0 (RankingController.ts <$> RankingController.cells m !! key))
                      true (Some (RankingController.fetches m)))) as Hk.
    { rewrite Hc. apply lookup_insert_eq. }
    pose proof (run_sales_failure cfg key now w _ _ vendedores Hk Hp Hv Hids Hs) as Hrun.
    by destruct (serve_response cfg empresa now w m _ _ Hf Hi Hrun) as [? _].
Qed.

(** The ranking handler on a cold start with the database down: the
    answer is the empty list. *)
Lemma C2_failed_refresh_response_witness :
  (0%nat, [])
  ∈ RankingController.responses
      (RankingController.serve RankingController.cfg_default "VIEIRACRED" 0
         RankingController.world_down RankingController.initial).
Proof.
  apply (proj1 (proj2 (proj2 C2_failed_refresh_response))
           RankingController.cfg_default "VIEIRACRED" 0
           RankingController.world_down RankingController.initial).
  - reflexivity.
  - reflexivity.
  - left. discriminate.
Defined.

(** A ranking of three rows is cached; a later request finds it stale,
    the sales cannot be read and a ranking was saved in the table
    today: the handler answers with the saved row and not with the
    cached ranking. *)
Lemma C2_ranking_prefers_saved_rows :
  (map RankingController.r_id
     <$> RankingController.cached
           (RankingController.cells RankingController.after_first_request)
           "VIEIRACRED") = Some ["2"; "3"; "1"]
  ∧ RankingController.responses RankingController.after_sales_down !! 0%nat
    = Some (1%nat, [RankingController.saved_row])
  ∧ RankingController.cached
      (RankingController.cells RankingController.after_first_request) "VIEIRACRED"
    ≠ Some [RankingController.saved_row].
Proof.
  split; [by vm_compute|]. split; [by vm_compute|].
  intros H. apply (f_equal (fmap (M:=option) (length (A:=_)))) in H.
  vm_compute in H. discriminate H.
Qed.

(** ** Single flight *)

Section ArgusFacts.
Import ArgusService.
Context {D : Type}.

Lemma argus_step_inv cfg (m : machine D) e :
  argus_inv m → argus_inv (step cfg m e).
Proof.
  unfold argus_inv. intros H. destruct e as [force now|c answer now]; simpl.
  - unfold fetchArgusData.
    destruct (CacheService.get now CACHE_KEY (cache m)) as [[d|] cache'];
      [destruct force|]; simpl; try done;
      destruct (isFetching m); simpl; try done;
      destruct H as [-> _]; by eexists.
  - unfold fetchArgusData_done. case_bool_decide as Hc; [|done]. simpl.
    destruct (isFetching m).
    + destruct H as [c0 H]. rewrite H in Hc |- *.
      apply list_elem_of_singleton in Hc as ->. simpl.
      by rewrite Nat.eqb_refl.
    + destruct H as [H _]. rewrite H in Hc. by apply elem_of_nil in Hc.
Qed.

Lemma argus_exec_inv cfg es : ∀ m : machine D,
  argus_inv m → argus_inv (exec cfg es m).
Proof.
  induction es as [|e es IH]; intros m H; [done|].
  apply IH. by apply argus_step_inv.
Qed.

(** X1: [fetchArgusData] is single-flight: at no point of a run is more
    than one [requestArgusData] pending; a call made while one is
    pending starts none; and when it settles, the call that started it
    and every call that waited settle the same way. *)
Lemma fetchArgusData_single_flight cfg ttl (es : list (event D)) :
  let m := exec cfg es (initial ttl) in
  (length (running m) ≤ 1)%nat
  ∧ (∀ force now, isFetching m = true →
       upstream (fetchArgusData force now m) = upstream m
       ∧ running (fetchArgusData force now m) = running m)
  ∧ (∀ c answer now, c ∈ running m →
       ∃ s, ∀ q, q = c ∨ q ∈ queue m →
              (q, s) ∈ outcomes (fetchArgusData_done cfg c answer now m)).
Proof.
  intros m.
  assert (argus_inv m) as Hinv by (apply argus_exec_inv; by split).
  split; [|split].
  - unfold argus_inv in Hinv. destruct (isFetching m).
    + destruct Hinv as [c ->]. simpl. lia.
    + destruct Hinv as [-> _]. simpl. lia.
  - intros force now Hf. unfold fetchArgusData.
    destruct (CacheService.get now CACHE_KEY (cache m)) as [[d|] cache'];
      [destruct force|]; simpl; rewrite ?Hf; done.
  - intros c answer now Hc. unfold fetchArgusData_done. rewrite bool_decide_eq_true_2 by done.
    eexists. intros q Hq. simpl. destruct Hq as [->|Hq]; [by left|].
    right. apply elem_of_app. left.
    apply list_elem_of_In, in_rev. rewrite rev_involutive.
    apply (in_map (λ q, (q, _)) _ q). by apply list_elem_of_In.
Qed.

End ArgusFacts.

Section RankingSingleFlight.
Import RankingController.

(** When a refresh returns, every handler that awaits its promise gets
    what [updateRanking] returned. *)
Lemma on_settle_answers_all cfg p w now m key ph cells' out r :
  tasks m !! p = Some (Task key ph) →
  resume cfg key now w ph (cells m) = (cells', inr out) →
  (r, p) ∈ awaiting m →
  (r, out) ∈ responses (on_settle cfg p w now m).
Proof.
  intros Ht Hr Ha. unfold on_settle. rewrite Ht, Hr. simpl. by apply woken_elem.
Qed.

(** Requests that arrive while the cell shows a refresh in flight
    ([isFetching] up and [fetchPromise] set) all join its promise: no
    call of [updateRanking] is made for them. *)
Lemma requests_join_in_flight cfg empresa p (times : list Z) : ∀ m,
  in_flight (cells m !! key_of cfg empresa) = Some p →
  resolved m !! p = None →
  (∀ now, now ∈ times → is_fresh cfg now (cells m !! key_of cfg empresa) = None) →
  let m' := exec cfg (map (Request empresa) times) m in
  fetches m' = fetches m ∧ tasks m' = tasks m ∧ cells m' = cells m
  ∧ resolved m' = resolved m
  ∧ awaiting m' = awaiting m ++ imap (λ i _, ((requests m + i)%nat, p)) times.
Proof.
  induction times as [|now times IH]; intros m Hi Hr Hf.
  - simpl. by rewrite app_nil_r.
  - assert (is_fresh cfg now (cells m !! key_of cfg empresa) = None) as Hnow
      by (apply Hf; by left).
    destruct (getRanking_joins cfg empresa now m p Hnow Hi Hr) as (H1 & H2 & H3 & H4).
    assert (resolved (getRanking cfg empresa now m) = resolved m
            ∧ requests (getRanking cfg empresa now m) = S (requests m)) as [H5 H6].
    { unfold getRanking. by rewrite Hnow, Hi, Hr. }
    cbn [map exec foldl step]. unfold exec in IH.
    destruct (IH (getRanking cfg empresa now m)) as (I1 & I2 & I3 & I4 & I5).
    + by rewrite H3.
    + by rewrite H5.
    + intros now' Hnow'. rewrite H3. apply Hf. by right.
    + rewrite I1, I2, I3, I4, I5, H1, H2, H3, H4, H5, H6.
      repeat split; try done.
      rewrite <- app_assoc. f_equal. cbn [imap]. rewrite Nat.add_0_r.
      cbn [app]. f_equal. apply imap_ext. intros i x _. simpl. f_equal. lia.
Qed.

End RankingSingleFlight.

(** C1, on [getRanking]: a first request on a cold cache starts a
    refresh; the database cannot be reached, so [updateRanking]
    lowers [isFetching] in its [catch] and goes on to read the saved
    ranking; a second request for the same key arrives then.  It does
    not join the pending promise: a second [updateRanking] starts while
    the first has not returned.  Once both have ended the two requests
    have been answered with different lists. *)
Theorem C1_getRanking_second_fetch_in_flight :
  RankingController.fetches
    (RankingController.exec RankingController.cfg_default RankingController.race
       RankingController.initial) = 2%nat
  ∧ RankingController.t_phase
      <$> RankingController.tasks
            (RankingController.exec RankingController.cfg_default RankingController.race
               RankingController.initial) !! 0%nat
    = Some RankingController.AtPersistedOuter
  ∧ RankingController.t_phase
      <$> RankingController.tasks
            (RankingController.exec RankingController.cfg_default RankingController.race
               RankingController.initial) !! 1%nat
    = Some RankingController.AtPool
  ∧ map (λ x, (fst x, map RankingController.r_id (snd x)))
      (RankingController.responses
         (RankingController.exec RankingController.cfg_default
            (RankingController.race ++ RankingController.race_end)
            RankingController.initial))
    = [(1%nat, ["2"; "3"; "1"]); (0%nat, [])].
Proof. by vm_compute. Qed.

(** C5.  On [getEmpresas]: a request on a cold cache starts a refresh
    and the database cannot be reached; when the request has been answered and
    no promise is pending, the cell has [isFetching = false] and a
    [fetchPromise] that is not [null].  On [getRanking]: in the race of
    two requests above, the cell of the key has [isFetching = false] and
    [fetchPromise] set while the first refresh reads the saved ranking,
    and two promises are pending for the key after the second
    request. *)
Theorem C5_failed_refresh_breaks_coherence :
  EmpresaController.tasks
    (EmpresaController.exec EmpresaController.cfg_default
       EmpresaController.failed_request EmpresaController.initial) = ∅
  ∧ EmpresaController.responses
      (EmpresaController.exec EmpresaController.cfg_default
         EmpresaController.failed_request EmpresaController.initial) = [(0%nat, [])]
  ∧ EmpresaController.isFetching
      (EmpresaController.empresasCache
         (EmpresaController.exec EmpresaController.cfg_default
            EmpresaController.failed_request EmpresaController.initial)) = false
  ∧ EmpresaController.fetchPromise
      (EmpresaController.empresasCache
         (EmpresaController.exec EmpresaController.cfg_default
            EmpresaController.failed_request EmpresaController.initial)) = Some 0%nat
  ∧ RankingController.cells
      (RankingController.exec RankingController.cfg_default
         (take 2 RankingController.race) RankingController.initial) !! "VIEIRACRED"
    = Some (RankingController.Cell None 0 false (Some 0%nat))
  ∧ map (λ x, (fst x, RankingController.t_key (snd x)))
      (map_to_list
         (RankingController.tasks
            (RankingController.exec RankingController.cfg_default
               RankingController.race RankingController.initial)))
    ≡ₚ [(0%nat, "VIEIRACRED"); (1%nat, "VIEIRACRED")].
Proof.
  split; [by vm_compute|]. split; [by vm_compute|]. split; [by vm_compute|].
  split; [by vm_compute|]. split; [by vm_compute|].
  vm_compute. apply Permutation_swap.
Qed.

(** The same holds after every refresh of [getEmpresas] that fails. *)
Lemma failed_getEmpresas_keeps_fetchPromise cfg now w m :
  EmpresaController.is_fresh cfg now (EmpresaController.empresasCache m) = None →
  EmpresaController.in_flight (EmpresaController.empresasCache m) = None →
  EmpresaController.w_pool w ≠ Db.PoolOk ∨ EmpresaController.w_empresas w = None →
  EmpresaController.tasks (EmpresaController.serve cfg now w m)
    !! EmpresaController.fetches m = None
  ∧ EmpresaController.isFetching
      (EmpresaController.empresasCache (EmpresaController.serve cfg now w m)) = false
  ∧ EmpresaController.fetchPromise
      (EmpresaController.empresasCache (EmpresaController.serve cfg now w m))
    = Some (EmpresaController.fetches m).
Proof.
  intros Hf Hi Hw.
  pose proof (updateEmpresas_fails now w
                (EmpresaController.Cell
                   (EmpresaController.data (EmpresaController.empresasCache m))
                   (EmpresaController.ts (EmpresaController.empresasCache m))
                   true (Some (EmpresaController.fetches m))) Hw) as Hrun.
  destruct (empresa_serve_response cfg now w m _ _ Hf Hi Hrun) as (_ & -> & Ht).
  by split.
Qed.

(** * Further properties of the code *)

(** ** Strings *)

Section StringFacts.

Lemma all_chars_app f s t :
  Js.all_chars f (s +:+ t) = Js.all_chars f s && Js.all_chars f t.
Proof.
  induction s as [|c s IH]; [done|].
  change (String c s +:+ t) with (String c (s +:+ t)).
  cbn [Js.all_chars]. rewrite IH. by destruct (f c).
Qed.

Lemma append_empty_r s : s +:+ "" = s.
Proof.
  induction s as [|c s IH]; [done|].
  change (String c s +:+ "") with (String c (s +:+ "")). by rewrite IH.
Qed.

Lemma all_chars_impl (f g : ascii → bool) s :
  (∀ c, f c = true → g c = true) →
  Js.all_chars f s = true → Js.all_chars g s = true.
Proof.
  intros Hfg. induction s as [|c s IH]; [done|]. cbn [Js.all_chars].
  intros [Hc Hs]%andb_prop. by rewrite (Hfg _ Hc), (IH Hs).
Qed.

Lemma split_nonempty sep s : Js.split sep s ≠ [].
Proof.
  destruct s as [|c s]; [done|]. cbn [Js.split].
  destruct (Ascii.eqb c sep); [done|]. by destruct (Js.split sep s).
Qed.

(** No part holds the separator, and a class of characters that holds
    all of the string holds all of each part. *)
Lemma split_parts f sep s :
  Js.all_chars f s = true →
  Forall (λ p, Js.all_chars (λ c, negb (Ascii.eqb c sep) && f c) p = true)
         (Js.split sep s).
Proof.
  induction s as [|c s IH]; cbn [Js.split Js.all_chars].
  - intros _. by constructor.
  - intros [Hc Hs]%andb_prop. specialize (IH Hs).
    destruct (Ascii.eqb c sep) eqn:E.
    + by constructor.
    + destruct (Js.split sep s) as [|h t] eqn:Es.
      * constructor; [|done]. cbn [Js.all_chars]. by rewrite E, Hc.
      * inversion IH as [|? ? Hh Ht]; subst. constructor; [|done].
        cbn [Js.all_chars]. by rewrite E, Hc, Hh.
Qed.

Lemma split_plain sep s :
  Js.all_chars (λ c, negb (Ascii.eqb c sep)) s = true → Js.split sep s = [s].
Proof.
  induction s as [|c s IH]; [done|]. cbn [Js.split Js.all_chars].
  intros [Hc Hs]%andb_prop. apply negb_true_iff in Hc. by rewrite Hc, (IH Hs).
Qed.

Lemma split_app sep s t :
  Js.all_chars (λ c, negb (Ascii.eqb c sep)) s = true →
  Js.split sep (s +:+ String sep t) = s :: Js.split sep t.
Proof.
  induction s as [|c s IH].
  - intros _. change ("" +:+ String sep t) with (String sep t).
    cbn [Js.split]. by rewrite Ascii.eqb_refl.
  - cbn [Js.all_chars]. intros [Hc Hs]%andb_prop. apply negb_true_iff in Hc.
    change (String c s +:+ String sep t) with (String c (s +:+ String sep t)).
    cbn [Js.split]. by rewrite Hc, (IH Hs).
Qed.

Lemma remove_chars_none f s :
  Js.all_chars (λ c, negb (f c)) s = true → Js.remove_chars f s = s.
Proof.
  induction s as [|c s IH]; [done|]. cbn [Js.all_chars Js.remove_chars].
  intros [Hc Hs]%andb_prop. apply negb_true_iff in Hc. by rewrite Hc, (IH Hs).
Qed.

Lemma remove_chars_all f s :
  Js.all_chars (λ c, negb (f c)) (Js.remove_chars f s) = true.
Proof.
  induction s as [|c s IH]; [done|]. cbn [Js.remove_chars].
  destruct (f c) eqn:E; [done|]. cbn [Js.all_chars]. by rewrite E, IH.
Qed.

Lemma remove_chars_app f s t :
  Js.remove_chars f (s +:+ t) = Js.remove_chars f s +:+ Js.remove_chars f t.
Proof.
  induction s as [|c s IH]; [done|].
  change (String c s +:+ t) with (String c (s +:+ t)).
  cbn [Js.remove_chars]. rewrite IH. by destruct (f c).
Qed.

Lemma join_all_chars f sep l :
  Js.all_chars f sep = true →
  Forall (λ p, Js.all_chars f p = true) l →
  Js.all_chars f (Js.join sep l) = true.
Proof.
  intros Hsep. induction 1 as [|x l Hx Hl IH]; [done|].
  cbn [Js.join]. destruct l as [|y l]; [done|].
  by rewrite !all_chars_app, Hx, Hsep, IH.
Qed.

End StringFacts.

(** ** Table names *)

Section TableNames.
Import StatusController.

Lemma name_char_parts full :
  Forall (λ p, Js.all_chars name_char p = true)
         (Js.split "." (Js.remove_chars is_bracket full)).
Proof. apply (split_parts (λ c, negb (is_bracket c))), remove_chars_all. Qed.

(** X2: whatever the name given, neither the schema nor the table that
    [parseTableName] returns holds a dot or a bracket. *)
Theorem parseTableName_plain (fullName : string) :
  Js.all_chars name_char (fst (parseTableName fullName)) = true
  ∧ Js.all_chars name_char (snd (parseTableName fullName)) = true.
Proof.
  unfold parseTableName. pose proof (name_char_parts fullName) as H.
  destruct (Js.split "." (Js.remove_chars is_bracket fullName))
    as [|a [|b [|c l]]] eqn:E.
  - done.
  - inversion H; subst. done.
  - inversion H as [|? ? Ha Hb]; subst. inversion Hb; subst. done.
  - inversion H as [|? ? Ha Hb]; subst. cbn [hd tl fst snd]. split; [done|].
    by apply join_all_chars.
Qed.

Lemma name_char_no_dot s :
  Js.all_chars name_char s = true →
  Js.all_chars (λ c, negb (Ascii.eqb c ".")) s = true.
Proof. apply all_chars_impl. by intros c [? _]%andb_prop. Qed.

Lemma name_char_no_bracket s :
  Js.all_chars name_char s = true →
  Js.all_chars (λ c, negb (is_bracket c)) s = true.
Proof. apply all_chars_impl. by intros c [_ ?]%andb_prop. Qed.

(** X3: for a schema and a table without dots and brackets,
    [parseTableName] splits [schema.table] and [[schema].[table]] back
    into the two, gives the schema [dbo] to a table named alone, and
    joins with [_] what follows the first dot of a name of three
    parts. *)
Theorem parseTableName_round_trip (schema table : string) :
  Js.all_chars name_char schema = true →
  Js.all_chars name_char table = true →
  parseTableName (schema +:+ "." +:+ table) = (schema, table)
  ∧ parseTableName ("[" +:+ schema +:+ "].[" +:+ table +:+ "]") = (schema, table)
  ∧ parseTableName table = ("dbo", table)
  ∧ ∀ server, Js.all_chars name_char server = true →
      parseTableName (server +:+ "." +:+ schema +:+ "." +:+ table)
      = (server, schema +:+ "_" +:+ table).
Proof.
  intros Hs Ht.
  pose proof (name_char_no_dot _ Hs) as Hsd. pose proof (name_char_no_dot _ Ht) as Htd.
  pose proof (name_char_no_bracket _ Hs) as Hsb.
  pose proof (name_char_no_bracket _ Ht) as Htb.
  assert (E1 : parseTableName (schema +:+ "." +:+ table) = (schema, table)).
  { unfold parseTableName.
    rewrite remove_chars_app, (remove_chars_app _ "." table), !remove_chars_none by done.
    change ("." +:+ table) with (String "." table).
    by rewrite split_app, split_plain. }
  split; [exact E1|]. split; [|split].
  - unfold parseTableName in *.
    rewrite !remove_chars_app.
    change (Js.remove_chars is_bracket "[") with "".
    change (Js.remove_chars is_bracket "].[") with ".".
    change (Js.remove_chars is_bracket "]") with "".
    rewrite !remove_chars_none by done.
    change ("" +:+ schema +:+ "." +:+ table +:+ "") with (schema +:+ "." +:+ table +:+ "").
    rewrite append_empty_r.
    change ("." +:+ table) with (String "." table).
    by rewrite split_app, split_plain.
  - unfold parseTableName. by rewrite remove_chars_none, split_plain.
  - intros server Hv.
    pose proof (name_char_no_dot _ Hv) as Hvd.
    pose proof (name_char_no_bracket _ Hv) as Hvb.
    unfold parseTableName.
    rewrite !remove_chars_app, !remove_chars_none by done.
    change (Js.remove_chars is_bracket ".") with ".".
    change ("." +:+ schema +:+ "." +:+ table) with (String "." (schema +:+ String "." table)).
    by rewrite split_app, split_app, split_plain.
Qed.

(** The tables of the default settings. *)
Lemma parseTableName_round_trip_witness :
  parseTableName ("dbo" +:+ "." +:+ "status_operador") = ("dbo", "status_operador")
  ∧ parseTableName ("[" +:+ "dbo" +:+ "].[" +:+ "status_operador" +:+ "]")
    = ("dbo", "status_operador")
  ∧ parseTableName "status_operador" = ("dbo", "status_operador")
  ∧ ∀ server, Js.all_chars name_char server = true →
      parseTableName (server +:+ "." +:+ "dbo" +:+ "." +:+ "status_operador")
      = (server, "dbo" +:+ "_" +:+ "status_operador").
Proof.
  apply (parseTableName_round_trip "dbo" "status_operador"); reflexivity.
Defined.

End TableNames.

(** ** Column detection *)

Section ColumnDetection.
Import StatusController.

(** X4: [detectColumns] asks INFORMATION_SCHEMA once for each table: a
    second call for the same table returns the set of the first and
    leaves the state as it is, whatever the database would answer, and
    the sets kept for the other tables are untouched.  So, after a
    query that failed, the empty set is returned for good. *)
Theorem detectColumns_memo (table : string) (info info' : option (list string))
    (s : state) :
  detectColumns table info' (snd (detectColumns table info s))
  = detectColumns table info s
  ∧ (∀ table', table' ≠ table →
       _colsCache (snd (detectColumns table info s)) !! table' = _colsCache s !! table')
  ∧ (_colsCache s !! table = None →
     detectColumns table info' (snd (detectColumns table None s))
     = (∅, snd (detectColumns table None s))).
Proof.
  unfold detectColumns.
  destruct (_colsCache s !! table) as [c|] eqn:E.
  - cbn [snd]. rewrite E. by repeat split.
  - destruct info as [names|]; cbn [snd set_cols _colsCache];
      rewrite !lookup_insert_eq; (split; [done|]);
      (split; [intros t' Ht; by rewrite lookup_insert_ne|done]).
Qed.

(** A failed detection on the initial state, then a call that the
    database would answer. *)
Lemma detectColumns_memo_witness :
  detectColumns "dbo.colaboradores" (Some ["id_argus"])
    (snd (detectColumns "dbo.colaboradores" None initial_state))
  = (∅, snd (detectColumns "dbo.colaboradores" None initial_state)).
Proof.
  apply (detectColumns_memo "dbo.colaboradores" None (Some ["id_argus"]) initial_state).
  reflexivity.
Defined.

Lemma elem_of_lower_names (x : string) (names : list string) :
  Js.toLowerCase x ∈ (list_to_set (map Js.toLowerCase names) : gset string)
  ↔ ∃ name, name ∈ names ∧ Js.toLowerCase name = Js.toLowerCase x.
Proof.
  rewrite elem_of_list_to_set, list_elem_of_In, in_map_iff.
  split; intros (name & H1 & H2); exists name.
  - by rewrite <- list_elem_of_In in H2.
  - by rewrite <- list_elem_of_In.
Qed.

(** X5: on the columns [detectColumns] reads for a table, [findFirst]
    compares without regard to case: it returns the first candidate
    that equals some column name once both are lower-cased. *)
Theorem detectColumns_findFirst (table : string) (names cands : list string)
    (x : string) (s : state) :
  _colsCache s !! table = None →
  findFirst (fst (detectColumns table (Some names) s)) cands = Some x
  ↔ ∃ before after, cands = before ++ x :: after
      ∧ (∃ name, name ∈ names ∧ Js.toLowerCase name = Js.toLowerCase x)
      ∧ Forall (λ y, ∀ name, name ∈ names → Js.toLowerCase name ≠ Js.toLowerCase y)
               before.
Proof.
  intros E. unfold detectColumns. rewrite E. cbn [fst].
  rewrite findFirst_Some. split.
  - intros (before & after & -> & Hx & Hb). exists before, after.
    split; [done|]. split; [by apply elem_of_lower_names|].
    eapply List.Forall_impl; [|exact Hb]. intros y Hy name Hn Heq. cbn in Hy.
    apply Hy, elem_of_lower_names. eauto.
  - intros (before & after & -> & Hx & Hb). exists before, after.
    split; [done|]. split; [by apply elem_of_lower_names|].
    eapply List.Forall_impl; [|exact Hb]. intros y Hy. cbn in Hy.
    rewrite elem_of_lower_names. intros (name & Hn & Heq). by eapply Hy.
Qed.

(** The column [Status] of [colaboradores] answers the candidate
    [status]. *)
Lemma detectColumns_findFirst_witness :
  findFirst (fst (detectColumns "dbo.colaboradores" (Some ["id_argus"; "Status"])
                    initial_state)) ["ativo"; "status"] = Some "status"
  ↔ ∃ before after, ["ativo"; "status"] = before ++ "status" :: after
      ∧ (∃ name, name ∈ ["id_argus"; "Status"]
                 ∧ Js.toLowerCase name = Js.toLowerCase "status")
      ∧ Forall (λ y, ∀ name, name ∈ ["id_argus"; "Status"] →
                             Js.toLowerCase name ≠ Js.toLowerCase y) before.
Proof.
  apply (detectColumns_findFirst "dbo.colaboradores" ["id_argus"; "Status"]
           ["ativo"; "status"] "status" initial_state).
  reflexivity.
Defined.

End ColumnDetection.

(** ** Requests to Argus *)

Section ArgusRequests.
Import StatusController.

Lemma classify_Continue cfg ramal attempt o :
  classify cfg ramal attempt o = Continue → final_answer o = false.
Proof.
  destruct o as [|st d]; [done|]. unfold classify, final_answer.
  destruct (st =? 200) eqn:E200, d as [body|]; cbn [Js.present andb orb].
  - by destruct (_ && _).
  - destruct (st =? 403); [done|]. by destruct (st =? 400).
  - destruct (st =? 403); [done|]. by destruct (st =? 400).
  - destruct (st =? 403); [done|]. by destruct (st =? 400).
Qed.

Lemma classify_Some cfg ramal attempt o a b :
  classify cfg ramal attempt o = Return (Some a) b →
  ∃ body, o = Response 200 (Some body)
    ∧ (codStatus body = 0 ∨ codStatus body = 1) ∧ ar_ramal a = ramal.
Proof.
  destruct o as [|st d]; unfold classify.
  { by destruct (_ <? _). }
  destruct (st =? 200) eqn:E200, d as [body|].
  - destruct (codStatus body =? 0) eqn:E0, (codStatus body =? 1) eqn:E1;
      cbn [negb andb]; intros [= <- _]; try done;
      exists body; apply Z.eqb_eq in E200; subst st; (split; [done|]); split; try done;
      lia.
  - destruct (st =? 403); [done|]. destruct (st =? 400); [done|].
    destruct (500 <=? st); [|done]. by destruct (_ <? _).
  - destruct (st =? 403); [done|]. destruct (st =? 400); [done|].
    destruct (500 <=? st); [|done]. by destruct (_ <? _).
  - destruct (st =? 403); [done|]. destruct (st =? 400); [done|].
    destruct (500 <=? st); [|done]. by destruct (_ <? _).
Qed.

Lemma attempts_requests cfg ramal resps : ∀ fuel attempt r a n,
  attempts cfg ramal resps fuel attempt = (r, a, n) →
  (n ≤ fuel)%nat
  ∧ (∀ k, (S k < n)%nat → final_answer (resps (attempt + k)%nat) = false)
  ∧ (∀ x, r = Some x →
       ∃ body, (0 < n)%nat ∧ resps (attempt + pred n)%nat = Response 200 (Some body)
         ∧ (codStatus body = 0 ∨ codStatus body = 1) ∧ ar_ramal x = ramal).
Proof.
  induction fuel as [|fuel IH]; intros attempt r a n; cbn [attempts].
  - intros [= <- <- <-]. split; [lia|]. split; [intros; lia|done].
  - destruct (classify cfg ramal (Z.of_nat attempt) (resps attempt)) as [r0 a0|] eqn:Ec.
    + intros [= <- <- <-]. split; [lia|]. split; [intros; lia|].
      intros x ->. apply classify_Some in Ec as (body & Hb & Hc & Hr).
      exists body. split; [lia|]. by rewrite Nat.add_0_r.
    + destruct (attempts cfg ramal resps fuel (S attempt)) as [[r1 a1] n1] eqn:Ea.
      intros [= <- <- <-]. apply IH in Ea as (Hn & Hk & Hr).
      split; [lia|]. split.
      * intros [|k] Hlt.
        -- rewrite Nat.add_0_r. by eapply classify_Continue.
        -- replace (attempt + S k)%nat with (S attempt + k)%nat by lia.
           apply Hk. lia.
      * intros x Hx. destruct (Hr x Hx) as (body & H0 & Hb & Hc).
        exists body. split; [lia|]. split; [|done].
        replace (attempt + pred (S n1))%nat with (S attempt + pred n1)%nat by lia.
        done.
Qed.

(** X6: [fetchArgusForRamal] sends at most [ARGUS_RETRY + 1] requests;
    it sends another one only after an answer that is neither a 200
    with a body, nor a 403, nor a 400; a result comes from a 200 whose
    [codStatus] is absent or [1], it is the answer to the last request
    and it carries the extension asked for; and the only change of the
    state is the raising of the 403 flag. *)
Theorem fetchArgusForRamal_requests cfg ramal resps s r s' n :
  fetchArgusForRamal cfg ramal resps s = (r, s', n) →
  (n ≤ Z.to_nat (ARGUS_RETRY cfg + 1))%nat
  ∧ (∀ k, (S k < n)%nat → final_answer (resps k) = false)
  ∧ (∀ a, r = Some a →
       ∃ body, (0 < n)%nat ∧ resps (pred n) = Response 200 (Some body)
         ∧ (codStatus body = 0 ∨ codStatus body = 1) ∧ ar_ramal a = ramal)
  ∧ (s' = s ∨ s' = set_argusAuthFailed true s).
Proof.
  unfold fetchArgusForRamal.
  destruct (_ || _).
  { intros [= <- <- <-]. split; [lia|]. split; [intros; lia|]. split; [done|by left]. }
  destruct (_argusAuthFailed s).
  { intros [= <- <- <-]. split; [lia|]. split; [intros; lia|]. split; [done|by left]. }
  destruct (attempts cfg ramal resps (Z.to_nat (ARGUS_RETRY cfg + 1)) 0)
    as [[r1 a1] n1] eqn:Ea.
  intros [= <- <- <-]. apply attempts_requests in Ea as (Hn & Hk & Hr).
  split; [done|]. split; [exact Hk|]. split; [exact Hr|].
  destruct a1; [by right|by left].
Qed.

(** Argus answers a 502, then a 200 with a status: two requests. *)
Lemma fetchArgusForRamal_requests_witness :
  let resps := λ k : nat,
    match k with
    | O => Response 502 None
    | _ => Response 200 (Some (ArgusBody 1 (Some (StatusOperador "Livre" 65000))))
    end in
  (2 ≤ Z.to_nat (ARGUS_RETRY cfg_default + 1))%nat
  ∧ (∀ k, (S k < 2)%nat → final_answer (resps k) = false)
  ∧ (∀ a, Some (ArgusResult "1001" "Livre" 65) = Some a →
       ∃ body, (0 < 2)%nat ∧ resps (pred 2) = Response 200 (Some body)
         ∧ (codStatus body = 0 ∨ codStatus body = 1) ∧ ar_ramal a = "1001")
  ∧ (initial_state = initial_state
     ∨ initial_state = set_argusAuthFailed true initial_state).
Proof.
  intros resps.
  apply (fetchArgusForRamal_requests cfg_default "1001" resps initial_state).
  vm_compute. reflexivity.
Defined.

Lemma fetchArgusForRamal_count cfg ramal resps s r s' n :
  fetchArgusForRamal cfg ramal resps s = (r, s', n) →
  (n ≤ Z.to_nat (ARGUS_RETRY cfg + 1))%nat.
Proof.
  unfold fetchArgusForRamal.
  destruct (_ || _); [intros [= _ _ <-]; lia|].
  destruct (_argusAuthFailed s); [intros [= _ _ <-]; lia|].
  destruct (attempts cfg ramal resps (Z.to_nat (ARGUS_RETRY cfg + 1)) 0)
    as [[r1 a1] n1] eqn:Ea.
  intros [= _ _ <-]. by apply attempts_requests in Ea as (Hn & _).
Qed.

Lemma fetch_item_spec cfg argus s i row u a n :
  fetch_item cfg argus s (i, row) = (u, a, n) →
  (n ≤ Z.to_nat (ARGUS_RETRY cfg + 1))%nat
  ∧ (∀ x, u = Some x → u_id_argus x = rr_id_argus row).
Proof.
  unfold fetch_item.
  destruct (fetchArgusForRamal cfg (rr_id_argus row) (argus i) s) as [[r s1] n1] eqn:E.
  intros [= <- <- <-]. apply fetchArgusForRamal_count in E.
  split; [done|]. destruct r; intros x; [by intros [= <-]|done].
Qed.

Lemma run_chunk_spec cfg argus s chunk us s' n :
  run_chunk cfg argus s chunk = (us, s', n) →
  sublist (map u_id_argus us) (map (λ it, rr_id_argus (snd it)) chunk)
  ∧ (n ≤ length chunk * Z.to_nat (ARGUS_RETRY cfg + 1))%nat.
Proof.
  unfold run_chunk. intros [= <- _ <-]. clear s'.
  induction chunk as [|[i row] chunk [IH1 IH2]]; [by split; [constructor|]|].
  cbn [map omap fold_right length list_omap].
  destruct (fetch_item cfg argus s (i, row)) as [[u a] n1] eqn:E.
  apply fetch_item_spec in E as [Hn Hu]. cbn [fst snd]. split.
  - destruct u as [x|]; cbn [map].
    + rewrite (Hu x eq_refl). by constructor.
    + by constructor.
  - cbn [fst snd] in *. lia.
Qed.

Lemma processBatch_go_spec cfg argus c fuel : ∀ items s us s' n,
  processBatch_go cfg argus c fuel items s = (us, s', n) →
  sublist (map u_id_argus us) (map (λ it, rr_id_argus (snd it)) items)
  ∧ (n ≤ length items * Z.to_nat (ARGUS_RETRY cfg + 1))%nat.
Proof.
  induction fuel as [|fuel IH]; intros items s us s' n; cbn [processBatch_go].
  - intros [= <- _ <-]. split; [apply sublist_nil_l|lia].
  - destruct items as [|it items].
    + intros [= <- _ <-]. split; [constructor|lia].
    + destruct (run_chunk cfg argus s (take c (it :: items))) as [[us1 s1] n1] eqn:E1.
      destruct (processBatch_go cfg argus c fuel (drop c (it :: items)) s1)
        as [[us2 s2] n2] eqn:E2.
      intros [= <- _ <-].
      apply run_chunk_spec in E1 as [H1 H1']. apply IH in E2 as [H2 H2'].
      rewrite <- (take_drop c (it :: items)).
      rewrite !map_app, length_app. split; [by apply sublist_app|lia].
Qed.

(** X7: the updates [processBatch] collects follow the order of the
    rows, at most one for each row and always for a row of the list,
    and the whole batch sends at most [ARGUS_RETRY + 1] requests for
    each row. *)
Theorem processBatch_updates cfg argus items s us s' n :
  processBatch cfg argus items s = Some (us, s', n) →
  sublist (map u_id_argus us) (map rr_id_argus items)
  ∧ (length us ≤ length items)%nat
  ∧ (n ≤ length items * Z.to_nat (ARGUS_RETRY cfg + 1))%nat.
Proof.
  intros E.
  assert (H : sublist (map u_id_argus us) (map rr_id_argus items)
              ∧ (n ≤ length items * Z.to_nat (ARGUS_RETRY cfg + 1))%nat).
  { unfold processBatch in E. destruct items as [|it items].
    - injection E as <- _ <-. split; [constructor|lia].
    - destruct (_ <=? _); [done|]. apply (inj Some) in E.
      apply processBatch_go_spec in E as [H1 H2].
      rewrite length_imap in H2. split; [|done].
      replace (map rr_id_argus (it :: items))
        with (map (λ it0 : nat * ramal_row, rr_id_argus (snd it0))
                (imap (λ i r, (i, r)) (it :: items))); [done|].
      generalize (it :: items). clear. intros l.
      change (map (λ it0 : nat * ramal_row, rr_id_argus (snd it0))
                (imap (λ i r, (i, r)) l))
        with ((λ it0 : nat * ramal_row, rr_id_argus (snd it0)) <$>
                (imap (λ i r, (i, r)) l)).
      rewrite fmap_imap. change (map rr_id_argus l) with (rr_id_argus <$> l).
      by rewrite <- imap_const. }
  destruct H as [H1 H2]. split; [done|]. split; [|done].
  apply sublist_length in H1. by rewrite !length_map in H1.
Qed.

(** Two rows, answered with a status each. *)
Lemma processBatch_updates_witness :
  sublist (map u_id_argus [Update "1001" "Livre" 65 (Some "7");
                           Update "1002" "Livre" 65 None])
          (map rr_id_argus [RamalRow "1001" (Some "7"); RamalRow "1002" None])
  ∧ (2 ≤ 2)%nat
  ∧ (2 ≤ 2 * Z.to_nat (ARGUS_RETRY cfg_default + 1))%nat.
Proof.
  apply (processBatch_updates cfg_default (uw_argus world_ok)
           [RamalRow "1001" (Some "7"); RamalRow "1002" None] initial_state
           [Update "1001" "Livre" 65 (Some "7"); Update "1002" "Livre" 65 None]
           initial_state 2).
  vm_compute. reflexivity.
Defined.

End ArgusRequests.

(** ** The status cache and the backoff window *)

Section StatusCaching.
Import StatusController.

(** X8: after a run of [updateStatusOperadores] that failed, the next
    attempt is allowed between 15 s and 5 min after the failure, and
    every call before that time is skipped: it resolves with the time
    left, whatever the database and Argus would answer, and leaves the
    state as it is. *)
Theorem failed_update_opens_backoff cfg t w s msg s1 :
  updateStatusOperadores cfg t w s = Some (Js.Resolved (Failed msg), s1) →
  15000 ≤ nextAllowedAt s1 - uw_now w ≤ 300000
  ∧ ∀ t' w', t' < nextAllowedAt s1 →
      updateStatusOperadores cfg t' w' s1
      = Some (Js.Resolved (Skipped (Backoff (nextAllowedAt s1 - t'))), s1).
Proof.
  intros E. split.
  - revert E. unfold updateStatusOperadores.
    destruct (update_guard cfg t s); [done|].
    destruct (update_try _ _ _) as [[[e|r] s0]|] eqn:Et; [| |done].
    + unfold update_catch.
      assert (0 < 2 ^ Z.of_nat (failCount s0)) by (apply Z.pow_pos_nonneg; lia).
      destruct (Js.includes _ _); intros [= _ <-]; cbn;
        rewrite delaySec_before; lia.
    + intros [= -> <-].
      by apply update_try_control in Et as (_ & _ & []).
  - intros t' w' Ht. unfold updateStatusOperadores, update_guard.
    by destruct (Z.ltb_spec t' (nextAllowedAt s1)); [|lia].
Qed.

(** The database cannot be reached at the first run. *)
Lemma failed_update_opens_backoff_witness :
  ∃ msg s1,
    updateStatusOperadores cfg_default 0 world_pool_down initial_state
    = Some (Js.Resolved (Failed msg), s1)
    ∧ 15000 ≤ nextAllowedAt s1 - uw_now world_pool_down ≤ 300000
    ∧ ∀ t' w', t' < nextAllowedAt s1 →
        updateStatusOperadores cfg_default t' w' s1
        = Some (Js.Resolved (Skipped (Backoff (nextAllowedAt s1 - t'))), s1).
Proof.
  eexists _, _. split; [vm_compute; reflexivity|].
  eapply (failed_update_opens_backoff cfg_default 0 world_pool_down initial_state).
  vm_compute. reflexivity.
Defined.

Lemma update_start_cache cfg t s :
  cache_data (update_start cfg t s) = cache_data s
  ∧ cache_ts (update_start cfg t s) = cache_ts s.
Proof. unfold update_start. by destruct (update_guard cfg t s). Qed.

Lemma get_try_cached cfg t gw s p s1 :
  get_try cfg t gw s = (inr p, s1) → cache_data s1 = Some p ∧ cache_ts s1 = t.
Proof.
  unfold get_try. destruct (gw_pool gw); [|done..].
  destruct (detectColumns (TABELA_COLAB cfg) _ s) as [cc s2].
  destruct (detectColumns (TABELA_STATUS cfg) _ s2) as [sc s3].
  destruct (gw_rows gw); [done|]. by intros [= <- <-].
Qed.

Lemma filter_no_teams cfg ops :
  LOG_EQUIPES cfg = [] → List.filter (counts_as_logado cfg) ops = ops.
Proof.
  intros Hq. induction ops as [|o ops IH]; [done|]. cbn [List.filter].
  unfold counts_as_logado at 1. rewrite Hq. by rewrite IH.
Qed.

(** X10: in the payload a successful read builds, [total] is the number
    of operators listed and [logados_total] repeats [logados]; when the
    count of the database is not there, [logados] is counted in memory
    and lies between [0] and [total], and it is [total] when no team is
    set in [LOG_EQUIPES]; and the payload is what the cache holds
    afterwards, stamped with the time of the request. *)
Theorem get_try_payload cfg t gw s p s1 :
  get_try cfg t gw s = (inr p, s1) →
  total p = Some (Z.of_nat (length (operadores p)))
  ∧ logados_total p = logados p
  ∧ (gw_countLogados gw = None →
     0 ≤ logados p ≤ Z.of_nat (length (operadores p))
     ∧ (LOG_EQUIPES cfg = [] → logados p = Z.of_nat (length (operadores p))))
  ∧ cache_data s1 = Some p ∧ cache_ts s1 = t.
Proof.
  intros E. pose proof (get_try_cached _ _ _ _ _ _ E) as [Hc Ht].
  revert E. unfold get_try. destruct (gw_pool gw); [|done..].
  destruct (detectColumns (TABELA_COLAB cfg) _ s) as [cc s2].
  destruct (detectColumns (TABELA_STATUS cfg) _ s2) as [sc s3].
  destruct (gw_rows gw) as [e|ops]; [done|]. intros [= <- _].
  cbn [total operadores logados logados_total].
  split; [done|]. split; [done|]. split; [|done].
  intros ->. cbn [default].
  assert (Hl : logados_fallback cfg ops
               = Z.of_nat (length (List.filter (counts_as_logado cfg) ops))) by done.
  assert (Hb : (length (List.filter (counts_as_logado cfg) ops) ≤ length ops)%nat)
    by apply List.filter_length_le.
  assert (He : LOG_EQUIPES cfg = [] → logados_fallback cfg ops = Z.of_nat (length ops)).
  { intros Hq. rewrite Hl. f_equal. f_equal. by apply filter_no_teams. }
  destruct (_ && _); (split; [lia|done]).
Qed.

(** The sample read: two operators, one logged. *)
Lemma get_try_payload_witness :
  ∃ p s1, get_try cfg_default 1000 get_world_ok initial_state = (inr p, s1)
    ∧ total p = Some (Z.of_nat (length (operadores p)))
    ∧ logados_total p = logados p
    ∧ (gw_countLogados get_world_ok = None →
       0 ≤ logados p ≤ Z.of_nat (length (operadores p))
       ∧ (LOG_EQUIPES cfg_default = [] → logados p = Z.of_nat (length (operadores p))))
    ∧ cache_data s1 = Some p ∧ cache_ts s1 = 1000.
Proof.
  eexists _, _. split; [vm_compute; reflexivity|].
  apply (get_try_payload cfg_default 1000 get_world_ok initial_state).
  vm_compute. reflexivity.
Defined.

End StatusCaching.

(** ** What a refresh does to the cached payload *)

Section StatusCacheKept.
Import StatusController.

Lemma update_try_cache cfg w s out s' :
  update_try cfg w s = Some (out, s') →
  match out with
  | inr (Updated _ false) =>
      (cache_data s' = cache_data s ∧ cache_ts s' = cache_ts s)
      ∨ (cache_data s' = None ∧ cache_ts s' = 0)
  | _ => cache_data s' = cache_data s ∧ cache_ts s' = cache_ts s
  end.
Proof.
  unfold update_try. destruct (uw_pool w).
  2,3: by intros [= <- <-].
  destruct (detectColumns (TABELA_COLAB cfg) _ s) as [cc s1] eqn:E1.
  destruct (detectColumns (TABELA_STATUS cfg) _ s1) as [sc s2] eqn:E2.
  pose proof (same_control_trans _ _ _ (detectColumns_control _ _ _ _ _ E1)
                (detectColumns_control _ _ _ _ _ E2)) as (_ & _ & _ & Hd & Ht & _).
  destruct (_ && _).
  { intros [= <- <-]. by left. }
  destruct (uw_ramais w) as [e|[|r rs]].
  { by intros [= <- <-]. }
  { intros [= <- <-]. by left. }
  destruct (processBatch _ _ _ _) as [[[us s3] n]|] eqn:E3; [|done].
  apply processBatch_control in E3 as (_ & _ & _ & Hd3 & Ht3 & _).
  destruct us as [|u us].
  { intros [= <- <-]. left. cbn. split; congruence. }
  destruct (findFirst sc _); intros [= <- <-]; cbn.
  - by right.
  - split; congruence.
Qed.

(** X11: a run of [updateStatusOperadores] that is skipped, that fails
    or that returns the warning leaves the cached payload and its time
    as they are; only a run that returns [{ updated }] can clear the
    cache, and when it does the time is reset to [0]. *)
Theorem updateStatusOperadores_keeps_cache cfg t w s r s' :
  updateStatusOperadores cfg t w s = Some (Js.Resolved r, s') →
  match r with
  | Updated _ false =>
      (cache_data s' = cache_data s ∧ cache_ts s' = cache_ts s)
      ∨ (cache_data s' = None ∧ cache_ts s' = 0)
  | _ => cache_data s' = cache_data s ∧ cache_ts s' = cache_ts s
  end.
Proof.
  unfold updateStatusOperadores.
  destruct (update_guard cfg t s); [by intros [= <- <-]|].
  destruct (update_try _ _ _) as [[[e|r0] s1]|] eqn:Et; [| |done].
  - apply update_try_cache in Et. cbn in Et. unfold update_catch.
    destruct (Js.includes _ _); by intros [= <- <-].
  - apply update_try_cache in Et. intros [= <- <-].
    destruct r0 as [?|n [|]|?]; exact Et.
Qed.

(** A payload is cached and the database goes down. *)
Lemma updateStatusOperadores_keeps_cache_witness :
  let s := set_cache (Some empty_payload) 500 initial_state in
  ∃ msg s',
    updateStatusOperadores cfg_default 1000 world_pool_down s
    = Some (Js.Resolved (Failed msg), s')
    ∧ cache_data s' = cache_data s ∧ cache_ts s' = cache_ts s.
Proof.
  intros s. eexists _, _. split; [vm_compute; reflexivity|].
  apply (updateStatusOperadores_keeps_cache cfg_default 1000 world_pool_down s
           (Failed "Não foi possível conectar colaboradores: timeout")).
  vm_compute. reflexivity.
Defined.

End StatusCacheKept.

(** ** The cached payload and the refresh a read fires *)

Section StatusCacheAfterRefresh.
Import StatusController.

(** A request served from the cache changes nothing. *)
Lemma cache_hit cfg t' gw' s p :
  cache_data s = Some p →
  t' - cache_ts s < STATUS_CACHE_MS cfg →
  getStatusOperadores cfg t' gw' s = (json p, s).
Proof.
  intros Hd Ht. unfold getStatusOperadores. rewrite Hd.
  by destruct (Z.ltb_spec (t' - cache_ts s) (STATUS_CACHE_MS cfg)); [|lia].
Qed.

Lemma get_try_failed_cache cfg t gw s e s3 :
  get_try cfg t gw s = (inl e, s3) → cache_data s3 = cache_data s.
Proof.
  unfold get_try. destruct (gw_pool gw).
  2,3: by intros [= _ <-].
  destruct (detectColumns (TABELA_COLAB cfg) _ s) as [cc s1] eqn:E1.
  destruct (detectColumns (TABELA_STATUS cfg) _ s1) as [sc s2] eqn:E2.
  pose proof (same_control_trans _ _ _ (detectColumns_control _ _ _ _ _ E1)
                (detectColumns_control _ _ _ _ _ E2)) as (_ & _ & _ & Hd & _).
  destruct (gw_rows gw); [|done]. by intros [= _ <-].
Qed.

(** With nothing cached the handler reads the database. *)
Lemma cache_miss cfg t' gw' s :
  cache_data s = None →
  getStatusOperadores cfg t' gw' s
  = match get_try cfg t' gw' s with
    | (inr p', s3) => (json p', update_start cfg (gw_now gw') s3)
    | (inl e, s3) => (HttpResponse 200 empty_payload, set_lastError e s3)
    end.
Proof.
  intros Hd. unfold getStatusOperadores. rewrite Hd.
  destruct (get_try cfg t' gw' s) as [[e|p'] s3] eqn:Eg; [|done].
  apply get_try_failed_cache in Eg.
  replace (cache_data (set_lastError e s3)) with (cache_data s3) by done.
  by rewrite Eg, Hd.
Qed.

(** X9: when [getStatusOperadores] reads the database at time [t] it
    answers with the payload it built, caches it and fires
    [updateStatusOperadores], which the handler leaves suspended. Until
    that refresh ends, a request that comes less than [STATUS_CACHE_MS]
    after [t] gets the same payload, whatever the database would answer
    then, and changes nothing in the state, so that the refresh goes on
    from the state the read left. Once the refresh has ended, either
    it has left the cache as it was, and such requests are still
    answered with the payload, or it has returned [{ updated }] and
    cleared the cache: then every request reads the database again,
    and gets the empty payload when that read fails. *)
Theorem getStatusOperadores_then_refresh cfg t gw s p s0 w r s2 :
  cache_data s = None ∨ STATUS_CACHE_MS cfg ≤ t - cache_ts s →
  get_try cfg t gw s = (inr p, s0) →
  updateStatusOperadores cfg (gw_now gw) w s0 = Some (Js.Resolved r, s2) →
  getStatusOperadores cfg t gw s = (json p, update_start cfg (gw_now gw) s0)
  ∧ (∀ t' gw', t' - t < STATUS_CACHE_MS cfg →
       getStatusOperadores cfg t' gw' (update_start cfg (gw_now gw) s0)
       = (json p, update_start cfg (gw_now gw) s0))
  ∧ ((cache_data s2 = Some p ∧ cache_ts s2 = t
      ∧ ∀ t' gw', t' - t < STATUS_CACHE_MS cfg →
          getStatusOperadores cfg t' gw' s2 = (json p, s2))
     ∨ ((∃ n, r = Updated n false) ∧ cache_data s2 = None ∧ cache_ts s2 = 0
        ∧ ∀ t' gw',
            getStatusOperadores cfg t' gw' s2
            = match get_try cfg t' gw' s2 with
              | (inr p', s3) => (json p', update_start cfg (gw_now gw') s3)
              | (inl e, s3) => (HttpResponse 200 empty_payload, set_lastError e s3)
              end)).
Proof.
  intros Hstale Hg Hu.
  destruct (get_try_cached _ _ _ _ _ _ Hg) as [Hd0 Ht0].
  split; [|split].
  - unfold getStatusOperadores.
    destruct Hstale as [->|Hs]; [by rewrite Hg|].
    destruct (cache_data s); [|by rewrite Hg].
    destruct (Z.ltb_spec (t - cache_ts s) (STATUS_CACHE_MS cfg)); [lia|].
    by rewrite Hg.
  - intros t' gw' Ht'.
    destruct (update_start_cache cfg (gw_now gw) s0) as [Hd1 Ht1].
    apply cache_hit; [congruence|]. rewrite Ht1, Ht0. lia.
  - assert (Hc : (cache_data s2 = cache_data s0 ∧ cache_ts s2 = cache_ts s0)
                 ∨ ((∃ n, r = Updated n false)
                    ∧ cache_data s2 = None ∧ cache_ts s2 = 0)).
    { revert Hu. unfold updateStatusOperadores.
      destruct (update_guard cfg (gw_now gw) s0); [intros [= _ <-]; by left|].
      destruct (update_try _ _ _) as [[[e|r0] s3]|] eqn:Et; [| |done].
      - apply update_try_cache in Et. cbn in Et. unfold update_catch.
        destruct (Js.includes _ _); intros [= _ <-]; by left.
      - apply update_try_cache in Et. intros [= <- <-].
        destruct r0 as [?|n [|]|?]; try (by left).
        destruct Et as [Et|Et]; [by left|]. right. split; [by exists n|done]. }
    destruct Hc as [[Hd2 Ht2]|(Hr & Hd2 & Ht2)].
    + left. split; [congruence|]. split; [congruence|].
      intros t' gw' Ht'. apply cache_hit; [congruence|]. rewrite Ht2, Ht0. lia.
    + right. split; [done|]. split; [done|]. split; [done|].
      intros t' gw'. by apply cache_miss.
Qed.

(** A read at time 1000; the refresh it fires writes the status of two
    extensions and clears the cache. *)
Lemma getStatusOperadores_then_refresh_witness :
  getStatusOperadores cfg_default 1000 get_world_ok initial_state
  = (json payload_ok, update_start cfg_default 5000 after_read)
  ∧ (∀ t' gw', t' - 1000 < STATUS_CACHE_MS cfg_default →
       getStatusOperadores cfg_default t' gw' (update_start cfg_default 5000 after_read)
       = (json payload_ok, update_start cfg_default 5000 after_read))
  ∧ ((cache_data after_refresh = Some payload_ok ∧ cache_ts after_refresh = 1000
      ∧ ∀ t' gw', t' - 1000 < STATUS_CACHE_MS cfg_default →
          getStatusOperadores cfg_default t' gw' after_refresh
          = (json payload_ok, after_refresh))
     ∨ ((∃ n, Updated 2 false = Updated n false)
        ∧ cache_data after_refresh = None ∧ cache_ts after_refresh = 0
        ∧ ∀ t' gw',
            getStatusOperadores cfg_default t' gw' after_refresh
            = match get_try cfg_default t' gw' after_refresh with
              | (inr p', s3) => (json p', update_start cfg_default (gw_now gw') s3)
              | (inl e, s3) => (HttpResponse 200 empty_payload, set_lastError e s3)
              end)).
Proof.
  apply (getStatusOperadores_then_refresh cfg_default 1000 get_world_ok initial_state
           payload_ok after_read world_ok (Updated 2 false) after_refresh).
  - left. reflexivity.
  - reflexivity.
  - reflexivity.
Defined.

(** The payload read at time 1000 is served ten seconds later while the
    refresh is suspended, the database being down; once the refresh has
    written its rows the cache is empty and the same request gets the
    empty payload. *)
Example getStatusOperadores_refresh_sample :
  getStatusOperadores cfg_default 1000 get_world_ok initial_state
  = (json payload_ok, update_start cfg_default 5000 after_read)
  ∧ operadores payload_ok ≠ []
  ∧ fst (getStatusOperadores cfg_default 11000 get_world_down
           (update_start cfg_default 5000 after_read)) = json payload_ok
  ∧ updateStatusOperadores cfg_default 5000 world_ok after_read
    = Some (Js.Resolved (Updated 2 false), after_refresh)
  ∧ cache_data after_refresh = None
  ∧ fst (getStatusOperadores cfg_default 11000 get_world_down after_refresh)
    = HttpResponse 200 empty_payload.
Proof. repeat split; by vm_compute. Qed.

(** When the refresh fails, here because the database cannot be reached,
    the payload stays cached and is served. *)
Example getStatusOperadores_refresh_failed_sample :
  ∃ msg s2,
    updateStatusOperadores cfg_default 5000 world_pool_down after_read
    = Some (Js.Resolved (Failed msg), s2)
    ∧ fst (getStatusOperadores cfg_default 11000 get_world_down s2) = json payload_ok.
Proof. eexists _, _. split; [vm_compute; reflexivity|]. by vm_compute. Qed.

End StatusCacheAfterRefresh.

(** ** The scheduler of the status refresh *)

Section StatusScheduler.
Import StatusController.

Lemma schedule_all_scheduled cfg calls : ∀ s id l,
  schedule_all cfg calls (s, Timers (Some id) l)
  = (map (λ _, id) calls, (s, Timers (Some id) l)).
Proof.
  induction calls as [|[i t] calls IH]; intros s id l; [done|].
  cbn [schedule_all scheduleStatusUpdater schedulerId]. by rewrite IH.
Qed.

(** X12: however often [scheduleStatusUpdater] is called, one timer is
    made, by the first call; its period is the interval of that call
    raised to 10 s at least, the later intervals are ignored, every call
    returns that timer and only the first starts a refresh.  The test
    the timer makes before it calls [updateStatusOperadores] repeats
    the guards of that function: a tick does what a call does. *)
Theorem scheduleStatusUpdater_once cfg intervalMs t calls s :
  schedule_all cfg ((intervalMs, t) :: calls) (s, Timers None [])
  = (map (λ _, O) ((intervalMs, t) :: calls),
     (update_start cfg t s, Timers (Some O) [Z.max 10000 intervalMs]))
  ∧ ∀ t' s', tick cfg t' s' = update_start cfg t' s'.
Proof.
  split.
  - cbn [schedule_all scheduleStatusUpdater schedulerId intervals length app].
    by rewrite schedule_all_scheduled.
  - intros t' s'. unfold tick, update_start, update_guard.
    destruct (isFetching s'), (t' <? nextAllowedAt s'); done.
Qed.

End StatusScheduler.

(** ** The TTL cache: counters and eviction *)

Section CacheOps.
Import CacheService.
Context {V : Type}.

Lemma apply_op_inv (c : CacheService.t V) (o : op V) :
  size_ (stats c) = size (cache c) →
  size_ (stats (apply_op c o)) = size (cache (apply_op c o))
  ∧ defaultTTL (apply_op c o) = defaultTTL c
  ∧ (hits (stats (apply_op c o)) + misses (stats (apply_op c o))
     = hits (stats c) + misses (stats c) + if is_get o then 1 else 0)%nat
  ∧ sets (stats (apply_op c o)) = (sets (stats c) + if is_set o then 1 else 0)%nat
  ∧ (deletes (stats c) ≤ deletes (stats (apply_op c o))
     ≤ deletes (stats c) + if is_delete o then 1 else 0)%nat.
Proof.
  intros H. destruct o as [now k v ttl|now k|k|now|]; cbn [apply_op is_get is_set is_delete].
  - unfold set. cbn. repeat split; lia.
  - unfold get. destruct (cache c !! k) as [e|]; [destruct (expiresAt e <? now)|];
      cbn; repeat split; lia.
  - unfold delete_. destruct (cache c !! k); cbn; repeat split; lia.
  - unfold cleanup. cbn. repeat split; lia.
  - unfold clear. cbn. rewrite map_size_empty. repeat split; lia.
Qed.

(** X13: on a cache made by [new CacheService(ttl)], after any calls of
    [set], [get], [delete], [cleanup] and [clear], the counter [size]
    is the number of entries (so [getMetrics] reports the same number
    three times), [hits + misses] is the number of calls of [get],
    [sets] the number of calls of [set], [deletes] at most the number
    of calls of [delete], and the default TTL is the one given. *)
Theorem cache_counters (ttl : Z) (os : list (op V)) :
  let c := run_ops os (create ttl) in
  size_ (stats c) = size (cache c)
  ∧ getMetrics c = (stats c, size_ (stats c), size_ (stats c))
  ∧ (hits (stats c) + misses (stats c))%nat = length (List.filter is_get os)
  ∧ sets (stats c) = length (List.filter is_set os)
  ∧ (deletes (stats c) ≤ length (List.filter is_delete os))%nat
  ∧ defaultTTL c = ttl.
Proof.
  cbv zeta.
  assert (H : ∀ (os : list (op V)) (c0 : CacheService.t V),
    size_ (stats c0) = size (cache c0) →
    let c := run_ops os c0 in
    size_ (stats c) = size (cache c)
    ∧ (hits (stats c) + misses (stats c)
       = hits (stats c0) + misses (stats c0) + length (List.filter is_get os))%nat
    ∧ sets (stats c) = (sets (stats c0) + length (List.filter is_set os))%nat
    ∧ (deletes (stats c) ≤ deletes (stats c0) + length (List.filter is_delete os))%nat
    ∧ defaultTTL c = defaultTTL c0).
  { clear. induction os as [|o os IH]; intros c0 H0; cbv zeta.
    - cbn. repeat split; lia.
    - destruct (apply_op_inv c0 o H0) as (H1 & H2 & H3 & H4 & H5).
      destruct (IH (apply_op c0 o) H1) as (I1 & I2 & I3 & I4 & I5).
      change (run_ops (o :: os) c0) with (run_ops os (apply_op c0 o)).
      cbn [List.filter].
      split; [done|].
      destruct o; cbn [is_get is_set is_delete length] in *;
        repeat split; try lia; congruence. }
  destruct (H os (create ttl)) as (H1 & H2 & H3 & H4 & H5); [by cbn|].
  split; [done|]. split; [by unfold getMetrics; rewrite H1|].
  cbn in H2, H3, H4, H5. repeat split; try done; lia.
Qed.

(** X14: [cleanup] keeps the entries that [has] reports at that instant
    and no other; while [has] reports a key, [get] returns its value
    and leaves the entries as they are. *)
Theorem cleanup_keeps_what_has_reports (now : Z) (k : string) (c : CacheService.t V) :
  cache (cleanup now c) !! k = (if has now k c then cache c !! k else None)
  ∧ (has now k c = true →
     ∃ e, cache c !! k = Some e
       ∧ fst (get now k c) = Some (value e)
       ∧ cache (snd (get now k c)) = cache c
       ∧ has now k (snd (get now k c)) = true).
Proof.
  split.
  - unfold cleanup, has. cbn [cache].
    destruct (cache c !! k) as [e|] eqn:E.
    + destruct (Z.ltb_spec now (expiresAt e)).
      * apply map_lookup_filter_Some. split; [done|]. cbn. lia.
      * apply map_lookup_filter_None. right. intros e' He'. cbn.
        rewrite E in He'. injection He' as <-. lia.
    + apply map_lookup_filter_None. by left.
  - unfold has, get. destruct (cache c !! k) as [e|] eqn:E; [|done].
    intros Hn. apply Z.ltb_lt in Hn. exists e. split; [done|].
    destruct (Z.ltb_spec (expiresAt e) now); [lia|]. cbn.
    rewrite E. repeat split; try done. by apply Z.ltb_lt.
Qed.

(** [set] on a key changes nothing to what [get] answers for
    another key; after [delete] the key is gone for [get] and for
    [has]; and [delete] tells whether the key was there. *)
Theorem cache_set_delete_get (now now' : Z) (k k' : string) (v : V)
    (ttl : option Z) (c : CacheService.t V) :
  k' ≠ k →
  fst (get now' k' (set now k v ttl c)) = fst (get now' k' c)
  ∧ fst (get now' k (snd (delete_ k c))) = None
  ∧ has now' k (snd (delete_ k c)) = false
  ∧ fst (delete_ k c) = bool_decide (is_Some (cache c !! k))
  ∧ cache (snd (delete_ k c)) !! k' = cache c !! k'.
Proof.
  intros Hne. split; [|split; [|split; [|split]]].
  - unfold get, set. cbn [cache]. rewrite lookup_insert_ne by done.
    destruct (cache c !! k') as [e|]; [|done]. by destruct (expiresAt e <? now').
  - unfold delete_. destruct (cache c !! k) eqn:E; cbn [snd].
    + unfold get. cbn [cache]. by rewrite lookup_delete_eq.
    + unfold get. by rewrite E.
  - unfold delete_. destruct (cache c !! k) eqn:E; cbn [snd]; unfold has.
    + cbn [cache]. by rewrite lookup_delete_eq.
    + by rewrite E.
  - unfold delete_. by destruct (cache c !! k).
  - unfold delete_. destruct (cache c !! k); [|done]. cbn [snd cache].
    by rewrite lookup_delete_ne.
Qed.

End CacheOps.

(** The sample entry, five time units after it was set: [has] reports
    it and [get] reads it. *)
Lemma cleanup_keeps_what_has_reports_witness :
  ∃ e, CacheService.cache CacheService.sample !! "k" = Some e
    ∧ fst (CacheService.get 105 "k" CacheService.sample) = Some (CacheService.value e)
    ∧ CacheService.cache (snd (CacheService.get 105 "k" CacheService.sample))
      = CacheService.cache CacheService.sample
    ∧ CacheService.has 105 "k" (snd (CacheService.get 105 "k" CacheService.sample)) = true.
Proof.
  apply (proj2 (cleanup_keeps_what_has_reports 105 "k" CacheService.sample)).
  reflexivity.
Defined.

(** The sample cache and a second key. *)
Lemma cache_set_delete_get_witness :
  fst (CacheService.get 105 "k" (CacheService.set 101 "j" 8%nat None CacheService.sample))
  = fst (CacheService.get 105 "k" CacheService.sample)
  ∧ fst (CacheService.get 105 "j"
           (snd (CacheService.delete_ "j" CacheService.sample))) = None
  ∧ CacheService.has 105 "j" (snd (CacheService.delete_ "j" CacheService.sample)) = false
  ∧ fst (CacheService.delete_ "j" CacheService.sample)
    = bool_decide (is_Some (CacheService.cache CacheService.sample !! "j"))
  ∧ CacheService.cache (snd (CacheService.delete_ "j" CacheService.sample)) !! "k"
    = CacheService.cache CacheService.sample !! "k".
Proof.
  apply (cache_set_delete_get 101 105 "j" "k" 8%nat None CacheService.sample).
  discriminate.
Defined.

(** ** Lists of ids in the queries *)

Section SqlLists.

Lemma append_String c s t : String c s +:+ t = String c (s +:+ t).
Proof. done. Qed.

(** After the doubled text of an id and a closing quote, the server has
    read the id, whatever follows that is not a quote. *)
Lemma read_literal_double_quotes (s rest : string) :
  Js.startsWith "'" rest = false →
  Db.read_literal (Js.double_quotes s +:+ "'" +:+ rest) = Some (s, rest).
Proof.
  intros Hr. induction s as [|c s IH].
  - change (Js.double_quotes "" +:+ "'" +:+ rest) with (String "'" rest).
    cbn [Db.read_literal]. rewrite Ascii.eqb_refl.
    destruct rest as [|c' rest]; [done|].
    cbn [Js.startsWith] in Hr. rewrite andb_true_r in Hr.
    by rewrite Ascii.eqb_sym, Hr.
  - cbn [Js.double_quotes]. destruct (Ascii.eqb c "'") eqn:E.
    + apply Ascii.eqb_eq in E as ->.
      change (String "'" (String "'" ?x) +:+ ?t)
        with (String "'" (String "'" (x +:+ t))).
      cbn [Db.read_literal]. rewrite Ascii.eqb_refl. by rewrite IH.
    + change (String c ?x +:+ ?t) with (String c (x +:+ t)).
      cbn [Db.read_literal]. by rewrite E, IH.
Qed.

Lemma join_cons sep x (l : list string) :
  l ≠ [] → Js.join sep (x :: l) = x +:+ sep +:+ Js.join sep l.
Proof. by destruct l. Qed.

Lemma read_list_quoted (f : string → string) :
  (∀ id, f id = Js.double_quotes id) →
  ∀ ids, ids ≠ [] →
    Db.read_list (length ids) (Js.join "," (map (λ id, "'" +:+ f id +:+ "'") ids))
    = Some ids.
Proof.
  intros Hf. induction ids as [|id ids IH]; [done|]. intros _.
  destruct (decide (ids = [])) as [->|Hne].
  - cbn [map Js.join length].
    change ("'" +:+ f id +:+ "'") with (String "'" (f id +:+ "'")).
    cbn [Db.read_list]. rewrite Ascii.eqb_refl, Hf.
    rewrite <- (append_empty_r (Js.double_quotes id +:+ "'")).
    rewrite append_assoc.
    by rewrite read_literal_double_quotes.
  - specialize (IH Hne).
    change (map ?g (id :: ids)) with (g id :: map g ids).
    rewrite join_cons by (by destruct ids).
    change (("'" +:+ f id +:+ "'") +:+ "," +:+ ?t)
      with (String "'" ((f id +:+ "'") +:+ String "," t)).
    cbn [length Db.read_list]. rewrite Ascii.eqb_refl, Hf.
    rewrite append_assoc.
    rewrite read_literal_double_quotes by done.
    rewrite Ascii.eqb_refl. by rewrite IH.
Qed.

(** X15: the list [toInList] writes for an [IN (...)] reads back, by
    the rule of SQL string literals, as the ids it was made from: no
    id, whatever quotes it holds, ends its literal early or adds an
    element.  Both modules that define [toInList] agree. *)
Theorem toInList_round_trip (ids : list string) :
  ids ≠ [] →
  Db.read_list (length ids) (FotoService.toInList ids) = Some ids
  ∧ Db.read_list (length ids) (RankingController.toInList ids) = Some ids.
Proof.
  intros H. split; by apply read_list_quoted.
Qed.

(** Two ids, one of them with a quote that would close its literal. *)
Lemma toInList_round_trip_witness :
  Db.read_list 2 (FotoService.toInList ["7"; "x' OR '1'='1"])
  = Some ["7"; "x' OR '1'='1"]
  ∧ Db.read_list 2 (RankingController.toInList ["7"; "x' OR '1'='1"])
    = Some ["7"; "x' OR '1'='1"].
Proof.
  apply (toInList_round_trip ["7"; "x' OR '1'='1"]). discriminate.
Defined.

End SqlLists.

(** ** The photo cache *)

Section FotoCache.
Import FotoService.

Lemma batches_go_spec n : (0 < n)%nat → ∀ fuel l,
  (length l ≤ fuel)%nat →
  concat (batches_go n fuel l) = l
  ∧ Forall (λ b, b ≠ [] ∧ (length b ≤ n)%nat) (batches_go n fuel l).
Proof.
  intros Hn. induction fuel as [|fuel IH]; intros l Hl.
  - destruct l; [by split; [|constructor]|]. cbn in Hl. lia.
  - destruct l as [|x l]; [by split; [|constructor]|].
    cbn [batches_go]. destruct (IH (drop n (x :: l))) as [IH1 IH2].
    { rewrite length_drop. cbn [length] in *. lia. }
    split.
    + cbn [concat]. rewrite IH1. apply take_drop.
    + constructor; [|done]. split.
      * destruct n; [lia|]. done.
      * rewrite length_take. lia.
Qed.

(** X16: the slices the loops cut an array into, for a positive size,
    are not empty, hold at most that many elements and, put end to end,
    give the array back: every id is asked for once, in order. *)
Theorem batches_partition (n : nat) (l : list string) :
  (0 < n)%nat →
  concat (batches n l) = l
  ∧ Forall (λ b, b ≠ [] ∧ (length b ≤ n)%nat) (batches n l).
Proof. intros Hn. by apply batches_go_spec. Qed.

(** Five ids in slices of two. *)
Lemma batches_partition_witness :
  concat (batches 2 ["1"; "2"; "3"; "4"; "5"]) = ["1"; "2"; "3"; "4"; "5"]
  ∧ Forall (λ b, b ≠ [] ∧ (length b ≤ 2)%nat) (batches 2 ["1"; "2"; "3"; "4"; "5"]).
Proof. apply (batches_partition 2 ["1"; "2"; "3"; "4"; "5"]). lia. Defined.

Lemma elem_of_batches_go n x : ∀ fuel l b,
  b ∈ batches_go n fuel l → x ∈ b → x ∈ l.
Proof.
  induction fuel as [|fuel IH]; intros l b; cbn [batches_go].
  - by intros ?%elem_of_nil.
  - destruct l as [|y l]; [by intros ?%elem_of_nil|].
    intros [->|Hb]%elem_of_cons Hx.
    + rewrite <- (take_drop n (y :: l)). apply elem_of_app. by left.
    + rewrite <- (take_drop n (y :: l)). apply elem_of_app. right. by eapply IH.
Qed.

(** When every id has a fresh entry, the answer is read from the cache:
    the database is not used and the cache stays as it is. *)
Lemma fetchFotosMap_from_cache cfg o t0 t1 db ids c :
  useCache o = true →
  (∀ id, id ∈ ids → ∃ raw ts, c !! id = Some (raw, ts) ∧ t0 - ts < CACHE_TTL cfg) →
  snd (fetchFotosMap cfg o t0 t1 db ids c) = c
  ∧ ∀ id, fst (fetchFotosMap cfg o t0 t1 db ids c) !! id
          = if bool_decide (id ∈ ids)
            then (λ e, sanitizeFotoPath cfg (Some (fst e))) <$> c !! id
            else None.
Proof.
  intros Hu Hall. unfold fetchFotosMap.
  assert (H : ∀ (done_ todo : list string) (a : acc),
    (∀ id, id ∈ todo → id ∈ ids) →
    cache a = c → pending a = [] →
    (∀ id, outMap a !! id
           = if bool_decide (id ∈ done_)
             then (λ e, sanitizeFotoPath cfg (Some (fst e))) <$> c !! id else None) →
    let a' := foldl (check_cache cfg o t0) a todo in
    cache a' = c ∧ pending a' = []
    ∧ ∀ id, outMap a' !! id
            = if bool_decide (id ∈ done_ ++ todo)
              then (λ e, sanitizeFotoPath cfg (Some (fst e))) <$> c !! id else None).
  { intros done_ todo. revert done_.
    induction todo as [|x todo IH]; intros done_ a Hsub Hc Hp Ho; cbv zeta.
    - cbn [foldl]. by rewrite app_nil_r.
    - cbn [foldl].
      destruct (Hall x) as (raw & ts & Hx & Hfresh); [apply Hsub; by left|].
      assert (Ea : check_cache cfg o t0 a x
                   = Acc (<[x := sanitizeFotoPath cfg (Some raw)]> (outMap a))
                         (cache a) (pending a)).
      { unfold check_cache. rewrite Hu, Hc, Hx.
        by destruct (Z.ltb_spec (t0 - ts) (CACHE_TTL cfg)); [|lia]. }
      rewrite Ea.
      destruct (IH (done_ ++ [x])
                  (Acc (<[x := sanitizeFotoPath cfg (Some raw)]> (outMap a))
                       (cache a) (pending a))) as (I1 & I2 & I3); try done.
      { intros id Hid. apply Hsub. by right. }
      { intros id. cbn [outMap]. destruct (decide (id = x)) as [->|Hne].
        - rewrite lookup_insert_eq, Hx. cbn.
          rewrite bool_decide_eq_true_2; [done|].
          apply elem_of_app. right. by left.
        - rewrite lookup_insert_ne by done. rewrite Ho.
          destruct (decide (id ∈ done_)) as [Hin|Hnin].
          + rewrite !bool_decide_eq_true_2; [done| |done].
            apply elem_of_app. by left.
          + rewrite !bool_decide_eq_false_2; [done| |done].
            rewrite elem_of_app, list_elem_of_singleton. tauto. }
      split; [done|]. split; [done|]. intros id. rewrite I3.
      by rewrite <- app_assoc. }
  assert (H0 : ∀ id, outMap (Acc ∅ c []) !! id
                     = if bool_decide (id ∈ @nil string)
                       then (λ e, sanitizeFotoPath cfg (Some (fst e))) <$> c !! id
                       else None).
  { intros id. cbn [outMap]. rewrite lookup_empty.
    by rewrite bool_decide_eq_false_2 by apply not_elem_of_nil. }
  destruct (H [] ids (Acc ∅ c []) (λ _ h, h) eq_refl eq_refl H0) as (H1 & H2 & H3).
  rewrite H2. cbn [fst snd]. split; [done|]. intros id. by rewrite H3.
Qed.

Lemma linked_insert_ne cfg t0 t1 c a id x url e :
  id ≠ x →
  linked cfg t0 t1 c a id →
  linked cfg t0 t1 c (Acc (<[x := url]> (outMap a)) (<[x := e]> (cache a)) (pending a)) id.
Proof.
  intros Hne (raw & ts & H1 & H2 & H3). exists raw, ts. cbn [cache outMap].
  by rewrite !lookup_insert_ne.
Qed.

Lemma store_found_consistent cfg t0 t1 c ids m a i :
  i ∈ ids →
  consistent cfg t0 t1 c ids a → consistent cfg t0 t1 c ids (store_found cfg t1 m a i).
Proof.
  intros Hi [Ho Hp]. unfold store_found. destruct (m !! i) as [raw|]; [|done].
  split.
  - intros id. cbn [outMap]. destruct (decide (id = i)) as [->|Hne].
    + intros _. split; [done|]. exists raw, t1. cbn [cache outMap].
      rewrite !lookup_insert_eq. split; [done|]. split; [done|by left].
    + rewrite lookup_insert_ne by done. intros Hs.
      destruct (Ho id Hs) as [Hin (raw' & ts & H1 & H2 & H3)].
      split; [done|]. exists raw', ts. cbn [cache outMap].
      by rewrite !lookup_insert_ne.
  - intros id. cbn [pending]. rewrite elem_of_set_delete. intros [H _]. by apply Hp.
Qed.

Lemma fetch_source_consistent cfg t0 t1 c ids db a useCloud :
  consistent cfg t0 t1 c ids a →
  consistent cfg t0 t1 c ids (fetch_source cfg t1 db a useCloud).
Proof.
  intros H. unfold fetch_source.
  destruct (pending a) as [|x l] eqn:Ep; [done|].
  assert (Hsub : ∀ id, id ∈ x :: l → id ∈ ids).
  { intros id Hid. apply H. by rewrite Ep. }
  apply (foldl_inv (consistent cfg t0 t1 c ids)); [|done].
  intros a' batch Hb H'. unfold fetch_batch.
  destruct (db useCloud batch) as [m|]; [|done].
  apply (foldl_inv (consistent cfg t0 t1 c ids)); [|done].
  intros a'' i Hi. apply store_found_consistent. apply Hsub.
  unfold batches in Hb. by eapply elem_of_batches_go.
Qed.

Lemma store_fallback_consistent cfg t0 t1 c ids l : ∀ a,
  (∀ id, id ∈ l → id ∈ ids) →
  consistent cfg t0 t1 c ids a →
  consistent cfg t0 t1 c ids (foldl (store_fallback cfg t1) a l).
Proof.
  induction l as [|x l IH]; intros a Hl H; [done|]. cbn [foldl].
  apply IH; [intros id Hid; apply Hl; by right|].
  destruct H as [Ho Hp]. split; [|done].
  intros id. unfold store_fallback. cbn [outMap].
  destruct (decide (id = x)) as [->|Hne].
  - intros _. split; [apply Hl; by left|]. exists "", t1. cbn [cache outMap].
    rewrite !lookup_insert_eq. split; [done|]. split; [done|by left].
  - rewrite lookup_insert_ne by done. intros Hs.
    destruct (Ho id Hs) as [Hin (raw' & ts & H1 & H2 & H3)].
    split; [done|]. exists raw', ts. cbn [cache outMap].
    by rewrite !lookup_insert_ne.
Qed.

Lemma check_cache_consistent cfg o t0 (t1 : Z) (c : gmap string (string * Z))
    (ids : list string) a i :
  i ∈ ids →
  (∀ id e, cache a !! id = Some e → c !! id = Some e)
  ∧ (∀ id, is_Some (outMap a !! id) →
       id ∈ ids ∧ ∃ raw ts, cache a !! id = Some (raw, ts)
         ∧ outMap a !! id = Some (sanitizeFotoPath cfg (Some raw))
         ∧ t0 - ts < CACHE_TTL cfg)
  ∧ (∀ id, id ∈ pending a → id ∈ ids) →
  let a' := check_cache cfg o t0 a i in
  (∀ id e, cache a' !! id = Some e → c !! id = Some e)
  ∧ (∀ id, is_Some (outMap a' !! id) →
       id ∈ ids ∧ ∃ raw ts, cache a' !! id = Some (raw, ts)
         ∧ outMap a' !! id = Some (sanitizeFotoPath cfg (Some raw))
         ∧ t0 - ts < CACHE_TTL cfg)
  ∧ (∀ id, id ∈ pending a' → id ∈ ids).
Proof.
  intros Hi (Hc & Ho & Hp). cbv zeta.
  assert (Hp' : ∀ id, id ∈ pending a ++ [i] → id ∈ ids).
  { intros id [H|H]%elem_of_app; [by apply Hp|].
    apply list_elem_of_singleton in H as ->. done. }
  unfold check_cache. destruct (useCache o); [|done].
  destruct (cache a !! i) as [[raw ts]|] eqn:Ei; [|done].
  destruct (Z.ltb_spec (t0 - ts) (CACHE_TTL cfg)) as [Hf|Hf]; cbn [cache outMap pending].
  - split; [done|]. split; [|done]. intros id.
    destruct (decide (id = i)) as [->|Hne].
    + intros _. split; [done|]. exists raw, ts. by rewrite lookup_insert_eq.
    + rewrite lookup_insert_ne by done. apply Ho.
  - split; [|split; [|done]].
    + intros id e He. apply Hc. by apply lookup_delete_Some in He as [_ He].
    + intros id Hs. destruct (Ho id Hs) as [Hin (raw' & ts' & H1 & H2 & H3)].
      split; [done|]. exists raw', ts'. split; [|done].
      rewrite lookup_delete_ne; [done|]. intros <-. rewrite Ei in H1.
      injection H1 as <- <-. lia.
Qed.

(** Every entry of the map belongs to a requested id and goes with a
    cache entry of that id. *)
Lemma fetchFotosMap_consistent cfg o t0 t1 db ids c :
  ∀ id, is_Some (fst (fetchFotosMap cfg o t0 t1 db ids c) !! id) →
    id ∈ ids
    ∧ ∃ raw ts, snd (fetchFotosMap cfg o t0 t1 db ids c) !! id = Some (raw, ts)
        ∧ fst (fetchFotosMap cfg o t0 t1 db ids c) !! id
          = Some (sanitizeFotoPath cfg (Some raw))
        ∧ (ts = t1 ∨ (c !! id = Some (raw, ts) ∧ t0 - ts < CACHE_TTL cfg)).
Proof.
  unfold fetchFotosMap.
  set (a1 := foldl (check_cache cfg o t0) (Acc ∅ c []) ids).
  assert (H1 : (∀ id e, cache a1 !! id = Some e → c !! id = Some e)
    ∧ (∀ id, is_Some (outMap a1 !! id) →
         id ∈ ids ∧ ∃ raw ts, cache a1 !! id = Some (raw, ts)
           ∧ outMap a1 !! id = Some (sanitizeFotoPath cfg (Some raw))
           ∧ t0 - ts < CACHE_TTL cfg)
    ∧ (∀ id, id ∈ pending a1 → id ∈ ids)).
  { apply (foldl_inv (λ a, (∀ id e, cache a !! id = Some e → c !! id = Some e)
      ∧ (∀ id, is_Some (outMap a !! id) →
           id ∈ ids ∧ ∃ raw ts, cache a !! id = Some (raw, ts)
             ∧ outMap a !! id = Some (sanitizeFotoPath cfg (Some raw))
             ∧ t0 - ts < CACHE_TTL cfg)
      ∧ (∀ id, id ∈ pending a → id ∈ ids))).
    - intros a i Hi Ha. by apply (check_cache_consistent cfg o t0 t1 c ids a i).
    - cbn. split; [done|]. split.
      + intros id [? Hs]. by rewrite lookup_empty in Hs.
      + by intros id ?%elem_of_nil. }
  destruct H1 as (Hc1 & Ho1 & Hp1).
  assert (C1 : ∀ l, (∀ id, id ∈ l → id ∈ ids) →
            consistent cfg t0 t1 c ids (Acc (outMap a1) (cache a1) l)).
  { intros l Hl. split; [|done]. intros id Hs. cbn [outMap] in Hs.
    destruct (Ho1 id Hs) as [Hin (raw & ts & E1 & E2 & E3)].
    split; [done|]. exists raw, ts. cbn [cache outMap].
    split; [done|]. split; [done|]. right. split; [by apply Hc1|done]. }
  destruct (pending a1) as [|x toFetch] eqn:Ep; cbn [fst snd].
  - intros id Hs. destruct (C1 [] ltac:(by intros ? ?%elem_of_nil)) as [Ho _].
    exact (Ho id Hs).
  - set (a0 := Acc (outMap a1) (cache a1) (set_of_list (x :: toFetch))).
    set (a2 := foldl _ a0 _).
    assert (C0 : consistent cfg t0 t1 c ids a0).
    { apply C1. intros id Hid. apply Hp1. by apply elem_of_set_of_list. }
    assert (C2 : consistent cfg t0 t1 c ids a2).
    { apply (foldl_inv (consistent cfg t0 t1 c ids)); [|done].
      intros a b _. apply fetch_source_consistent. }
    assert (Cf : consistent cfg t0 t1 c ids (foldl (store_fallback cfg t1) a2 (pending a2))).
    { apply store_fallback_consistent; [|done]. apply C2. }
    intros id Hs. destruct Cf as [Ho _]. exact (Ho id Hs).
Qed.

(** X17: a call of [fetchFotosMap] repeated while the entries the first
    call wrote or used are fresh answers with the same map and leaves
    the cache as it is, whatever the databases would answer then. *)
Theorem fetchFotosMap_twice cfg o t0 t1 db ids c t0' t1' db' :
  useCache o = true →
  t0' - t1 < CACHE_TTL cfg →
  (∀ id raw ts, id ∈ ids → c !! id = Some (raw, ts) →
     t0 - ts < CACHE_TTL cfg → t0' - ts < CACHE_TTL cfg) →
  fetchFotosMap cfg o t0' t1' db' ids (snd (fetchFotosMap cfg o t0 t1 db ids c))
  = fetchFotosMap cfg o t0 t1 db ids c.
Proof.
  intros Hu Ht Hold.
  pose proof (fetchFotosMap_consistent cfg o t0 t1 db ids c) as Hcons.
  destruct (fetchFotosMap_total cfg o t0 t1 db ids c) as [Hall _].
  set (R := fetchFotosMap cfg o t0 t1 db ids c) in *.
  destruct (fetchFotosMap_from_cache cfg o t0' t1' db' ids (snd R) Hu) as [H1 H2].
  { intros id Hid. destruct (Hcons id (Hall id Hid)) as [_ (raw & ts & E1 & _ & E3)].
    exists raw, ts. split; [done|]. destruct E3 as [->|[E3 E4]]; [done|].
    by eapply Hold. }
  rewrite (surjective_pairing (fetchFotosMap cfg o t0' t1' db' ids (snd R))).
  rewrite (surjective_pairing R) at 3. f_equal; [|done].
  apply map_eq. intros id. rewrite H2.
  case_bool_decide as Hid.
  - destruct (Hcons id (Hall id Hid)) as [_ (raw & ts & E1 & E2 & _)].
    by rewrite E1, E2.
  - destruct (fst R !! id) eqn:E; [|done].
    destruct (Hcons id ltac:(by eexists)) as [Hin _]. done.
Qed.

(** Two ids read from the cloud at time 5, asked for again ten seconds
    later while both databases are down. *)
Lemma fetchFotosMap_twice_witness :
  let cfg := Config "http://localhost:8003" 15000 in
  let db := λ (_ : bool) (_ : list string),
    Some ({["7" := "/fotos/7.png"]} : gmap string string) in
  fetchFotosMap cfg (Opts true true) 10000 10005 (λ _ _, None) ["7"; "8"]
    (snd (fetchFotosMap cfg (Opts true true) 0 5 db ["7"; "8"] ∅))
  = fetchFotosMap cfg (Opts true true) 0 5 db ["7"; "8"] ∅.
Proof.
  intros cfg db.
  apply (fetchFotosMap_twice cfg (Opts true true) 0 5 db ["7"; "8"] ∅
           10000 10005 (λ _ _, None)).
  - reflexivity.
  - reflexivity.
  - intros id raw ts _ H. by rewrite lookup_empty in H.
Defined.

End FotoCache.

(** ** One photo *)

Section OneFoto.
Import FotoService.

(** X18: [fetchFoto] never resolves to [undefined] nor to the empty
    string: it gives the entry of the id in the map [fetchFotosMap]
    builds for that id alone, and the default icon when nothing is
    cached for the id and no database has a row for it. *)
Theorem fetchFoto_defined cfg o t0 t1 db id c :
  ∃ url, fetchFoto cfg o t0 t1 db id c
         = (Some url, snd (fetchFotosMap cfg o t0 t1 db [id] c))
    ∧ url ≠ ""
    ∧ (c !! id = None → (∀ b batch m, db b batch = Some m → m !! id = None) →
       url = placeholder cfg).
Proof.
  destruct (fetchFotosMap_total cfg o t0 t1 db [id] c) as [Hall Hgood].
  destruct (Hall id ltac:(by left)) as [url Hurl].
  exists url. unfold fetchFoto.
  destruct (fetchFotosMap cfg o t0 t1 db [id] c) as [m c'] eqn:E. cbn [fst snd] in *.
  rewrite Hurl. split; [done|]. split.
  - by apply (Hgood id url).
  - intros Hc Hdb.
    pose proof (fetchFotosMap_default cfg o t0 t1 db [id] c id ltac:(by left) Hc Hdb) as Hd.
    rewrite E in Hd. cbn [fst] in Hd. congruence.
Qed.

End OneFoto.

(** ** The ranking: the rows kept and the totals behind them *)

Section RankingTop.
Import RankingController.

(** X19: the rows of the ranking are the entries of the map of totals
    with the greatest amounts: the entries left out are those beyond
    the fifth, none of them has an amount above that of a row kept,
    and when the ids of the map are distinct no seller is listed
    twice. *)
Theorem ranking_of_top cfg key vendedores salesMap fotosMap :
  let out := ranking_of cfg key vendedores salesMap fotosMap in
  ∃ rest, salesMap ≡ₚ map entry_of out ++ rest
    ∧ length rest = (length salesMap - 5)%nat
    ∧ (∀ r e, r ∈ out → e ∈ rest → snd e ≤ r_valorVendido r)
    ∧ (NoDup (map fst salesMap) → NoDup (map r_id out)).
Proof.
  intros out. exists (drop 5 (sort_desc salesMap)).
  assert (He : map entry_of out = take 5 (sort_desc salesMap))
    by apply build_rows_entries.
  pose proof (sort_desc_perm salesMap) as Hp.
  split; [|split; [|split]].
  - by rewrite He, take_drop.
  - by rewrite length_drop, (Permutation_length Hp).
  - intros r e Hr Hrest.
    pose proof (sort_desc_sorted salesMap) as Hs.
    rewrite <- (take_drop 5 (sort_desc salesMap)) in Hs.
    assert (Hin : entry_of r ∈ take 5 (sort_desc salesMap)).
    { rewrite <- He. apply list_elem_of_In, in_map. by apply list_elem_of_In. }
    exact (StronglySorted_app_1_elem_of desc _ _ _ _ Hs Hin Hrest).
  - intros Hnd.
    assert (Hm : map r_id out = map fst (take 5 (sort_desc salesMap))).
    { rewrite <- He, map_map. done. }
    rewrite Hm.
    assert (Hnd' : NoDup (map fst (sort_desc salesMap))).
    { pose proof (Permutation_map fst Hp) as HpM. by rewrite HpM. }
    rewrite <- (take_drop 5 (sort_desc salesMap)), map_app in Hnd'.
    by apply NoDup_app in Hnd' as [? _].
Qed.

Lemma map_get_None k (acc : list (string * float)) :
  map_get k acc = None ↔ k ∉ map fst acc.
Proof.
  induction acc as [|[k0 x] acc IH]; cbn [map_get map fst].
  - split; [intros _; apply not_elem_of_nil|done].
  - rewrite not_elem_of_cons. destruct (String.eqb_spec k0 k) as [->|Hne].
    + split; [done|]. by intros [? _].
    + rewrite IH. split; [by intros ?; split|by intros [_ ?]].
Qed.

Lemma map_set_spec (k : string) (v : float) (acc : list (string * float)) :
  NoDup (map fst acc) →
  NoDup (map fst (map_set k v acc))
  ∧ map_get k (map_set k v acc) = Some v
  ∧ ∀ k', (k' ≠ k → map_get k' (map_set k v acc) = map_get k' acc)
          ∧ (k' ∈ map fst (map_set k v acc) ↔ k' = k ∨ k' ∈ map fst acc).
Proof.
  induction acc as [|[k0 x] acc IH]; intros Hnd.
  - cbn [map_set map_get map fst]. split; [apply NoDup_singleton|].
    rewrite String.eqb_refl. split; [done|]. intros k'. split.
    + intros Hne. by destruct (String.eqb_spec k k').
    + rewrite list_elem_of_singleton, elem_of_nil. tauto.
  - cbn [map fst] in Hnd. apply NoDup_cons in Hnd as [Hk0 Hnd].
    destruct (IH Hnd) as (IH1 & IH2 & IH3). cbn [map_set].
    destruct (String.eqb_spec k0 k) as [->|Hne].
    + cbn [map_get map fst]. rewrite String.eqb_refl.
      split; [by apply NoDup_cons|]. split; [done|]. intros k'. split.
      * intros Hk. by destruct (String.eqb_spec k k').
      * rewrite !elem_of_cons. tauto.
    + cbn [map_get map fst]. split.
      * apply NoDup_cons. split; [|done].
        intros Hin. apply IH3 in Hin as [?|?]; done.
      * destruct (String.eqb_spec k0 k); [done|]. split; [done|].
        intros k'. destruct (IH3 k') as [I1 I2]. split.
        -- intros Hk. destruct (String.eqb k0 k'); [done|]. by apply I1.
        -- rewrite !elem_of_cons, I2. tauto.
Qed.

Lemma add_rows_spec (rows : list (string * float)) : ∀ acc,
  NoDup (map fst acc) →
  NoDup (map fst (add_rows rows acc))
  ∧ ∀ k, map_get k (add_rows rows acc) = total_from (map_get k acc) k rows
         ∧ (k ∈ map fst (add_rows rows acc) ↔ k ∈ map fst acc ∨ k ∈ map fst rows).
Proof.
  induction rows as [|[k0 v] rows IH]; intros acc Hnd.
  - change (add_rows [] acc) with acc. split; [done|]. intros k.
    split; [done|]. cbn [map]. rewrite elem_of_nil. tauto.
  - destruct (map_set_spec k0 (add_amount (map_get k0 acc) v) acc Hnd)
      as (M1 & M2 & M3).
    fold (map_add k0 v acc) in M1, M2, M3.
    destruct (IH (map_add k0 v acc) M1) as [I1 I2].
    change (add_rows ((k0, v) :: rows) acc) with (add_rows rows (map_add k0 v acc)).
    split; [done|]. intros k. destruct (I2 k) as [J1 J2], (M3 k) as [N1 N2].
    split.
    + rewrite J1. unfold total_from. cbn [foldl fst snd].
      destruct (String.eqb_spec k0 k) as [->|Hne]; [by rewrite M2|].
      rewrite N1; [done|]. by intros ->.
    + rewrite J2, N2. cbn [map fst]. rewrite elem_of_cons. tauto.
Qed.

Lemma add_rows_app rows1 rows2 acc :
  add_rows (rows1 ++ rows2) acc = add_rows rows2 (add_rows rows1 acc).
Proof. unfold add_rows. apply foldl_app. Qed.

Lemma batches_go_fuel n : (0 < n)%nat → ∀ fuel fuel' (l : list string),
  (length l ≤ fuel)%nat → (length l ≤ fuel')%nat →
  FotoService.batches_go n fuel l = FotoService.batches_go n fuel' l.
Proof.
  intros Hn. induction fuel as [|fuel IH]; intros fuel' l H1 H2.
  - destruct l; [by destruct fuel'|cbn in H1; lia].
  - destruct l as [|x l]; [by destruct fuel'|].
    destruct fuel' as [|fuel']; [cbn in H2; lia|].
    cbn [FotoService.batches_go]. f_equal.
    apply IH; rewrite length_drop; cbn [length] in *; lia.
Qed.

Lemma batches_unfold n (l : list string) :
  (0 < n)%nat → l ≠ [] →
  FotoService.batches n l = take n l :: FotoService.batches n (drop n l).
Proof.
  intros Hn Hl. unfold FotoService.batches. destruct l as [|x l]; [done|].
  cbn [length FotoService.batches_go]. f_equal.
  apply batches_go_fuel; [done| |done]. rewrite length_drop. cbn [length]. lia.
Qed.

Lemma slice_chunk (b : Z) (n : nat) (ids : list string) :
  0 < b → (n < length ids)%nat →
  Js.slice (Z.of_nat n) (Z.of_nat n + b) ids = take (Z.to_nat b) (drop n ids).
Proof.
  intros Hb Hn. unfold Js.slice.
  destruct (Z.ltb_spec (Z.of_nat n) 0); [lia|].
  destruct (Z.ltb_spec (Z.of_nat n + b) 0); [lia|].
  rewrite (Z.min_l (Z.of_nat n)) by lia. rewrite Nat2Z.id.
  destruct (Z.le_gt_cases (Z.of_nat n + b) (Z.of_nat (length ids))).
  - rewrite Z.min_l by lia. f_equal. lia.
  - rewrite Z.min_r by lia.
    rewrite !take_ge; [done| |]; rewrite length_drop; lia.
Qed.

Lemma sales_go_spec query (b : Z) (ids : list string) :
  0 < b → ∀ fuel n acc,
  (length ids - n < fuel)%nat →
  ∃ res, sales_go query b ids fuel (Z.of_nat n) acc = Some res
    ∧ match res with
      | inr acc' =>
          ∃ rowss,
            Forall2 (λ chunk rows, query chunk = inr rows)
                    (FotoService.batches (Z.to_nat b) (drop n ids)) rowss
            ∧ acc' = add_rows (concat rowss) acc
      | inl e =>
          ∃ before chunk after,
            FotoService.batches (Z.to_nat b) (drop n ids) = before ++ chunk :: after
            ∧ Forall (λ c, ∃ rows, query c = inr rows) before
            ∧ query chunk = inl e
      end.
Proof.
  intros Hb. induction fuel as [|fuel IH]; intros n acc Hf; [lia|].
  cbn [sales_go].
  destruct (Z.ltb_spec (Z.of_nat n) (Z.of_nat (length ids))) as [Hlt|Hge].
  - assert (Hn : (n < length ids)%nat) by lia.
    assert (Hd : drop n ids ≠ []).
    { intros E. apply (f_equal length) in E. rewrite length_drop in E. cbn in E. lia. }
    rewrite slice_chunk by done.
    rewrite (batches_unfold (Z.to_nat b) (drop n ids)) by (done || lia).
    rewrite drop_drop.
    destruct (query (take (Z.to_nat b) (drop n ids))) as [e|rows] eqn:Eq.
    + eexists. split; [done|]. eexists [], (take (Z.to_nat b) (drop n ids)), _.
      split; [reflexivity|]. split; [constructor|done].
    + replace (Z.of_nat n + b) with (Z.of_nat (n + Z.to_nat b)) by lia.
      destruct (IH (n + Z.to_nat b)%nat (add_rows rows acc)) as (res & Hres & Hm); [lia|].
      exists res. split; [done|]. destruct res as [e|acc'].
      * destruct Hm as (before & chunk & after & Hc & Hbf & Hq).
        exists (take (Z.to_nat b) (drop n ids) :: before), chunk, after.
        split; [by rewrite Hc|]. split; [|done].
        constructor; [by exists rows|done].
      * destruct Hm as (rowss & HF & ->). exists (rows :: rowss).
        split; [by constructor|]. cbn [concat]. by rewrite add_rows_app.
  - assert (Hd : drop n ids = []).
    { apply nil_length_inv. rewrite length_drop. lia. }
    rewrite Hd. eexists. split; [done|]. exists []. split; [constructor|done].
Qed.

(** X20: for a positive batch size, [getSalesTodayForVendedorIds]
    ends; it queries the ids slice after slice, in order, and rejects
    with the error of the first query that fails, the queries of the
    slices before it having answered; otherwise the map it resolves to
    holds each seller of the rows once, with the amounts of that seller
    over the rows of all the slices added as the code adds them: as
    doubles, one after the other in the order of the rows, [NaN] and
    zero counting as [0]. *)
Theorem getSalesToday_totals query (batchSize : Z) (ids : list string) :
  0 < batchSize →
  ∃ res, getSalesTodayForVendedorIds Db.PoolOk query batchSize ids = Some res
    ∧ match res with
      | inr acc =>
          ∃ rowss,
            Forall2 (λ chunk rows, query chunk = inr rows)
                    (FotoService.batches (Z.to_nat batchSize) ids) rowss
            ∧ NoDup (map fst acc)
            ∧ ∀ k, map_get k acc = total_of k (concat rowss)
                   ∧ (k ∈ map fst acc ↔ k ∈ map fst (concat rowss))
      | inl e =>
          ∃ before chunk after,
            FotoService.batches (Z.to_nat batchSize) ids = before ++ chunk :: after
            ∧ Forall (λ c, ∃ rows, query c = inr rows) before
            ∧ query chunk = inl e
      end.
Proof.
  intros Hb. unfold getSalesTodayForVendedorIds.
  destruct ids as [|id ids].
  { eexists. split; [done|]. exists []. split; [constructor|].
    split; [constructor|]. intros k. split; [done|]. cbn. tauto. }
  destruct (sales_go_spec query batchSize (id :: ids) Hb (S (length (id :: ids))) 0 [])
    as (res & Hres & Hm); [lia|].
  exists res. split; [exact Hres|]. rewrite drop_0 in Hm.
  destruct res as [e|acc]; [done|]. destruct Hm as (rowss & HF & ->).
  exists rowss. split; [done|].
  destruct (add_rows_spec (concat rowss) [] (NoDup_nil_2)) as [H1 H2].
  split; [done|]. intros k. destruct (H2 k) as [J1 J2]. split.
  - by rewrite J1.
  - rewrite J2. cbn. rewrite elem_of_nil. tauto.
Qed.

(** Three ids in slices of two; seller 1 has rows in both answers. *)
Lemma getSalesToday_totals_witness :
  let query := λ chunk : list string,
    inr (if bool_decide (chunk = ["1"; "2"]) then [("1", 100%float); ("2", 50%float)]
         else [("1", 25%float)]) : Js.error + list (string * float) in
  ∃ res, getSalesTodayForVendedorIds Db.PoolOk query 2 ["1"; "2"; "3"] = Some res
    ∧ match res with
      | inr acc =>
          ∃ rowss,
            Forall2 (λ chunk rows, query chunk = inr rows)
                    (FotoService.batches (Z.to_nat 2) ["1"; "2"; "3"]) rowss
            ∧ NoDup (map fst acc)
            ∧ ∀ k, map_get k acc = total_of k (concat rowss)
                   ∧ (k ∈ map fst acc ↔ k ∈ map fst (concat rowss))
      | inl e =>
          ∃ before chunk after,
            FotoService.batches (Z.to_nat 2) ["1"; "2"; "3"] = before ++ chunk :: after
            ∧ Forall (λ c, ∃ rows, query c = inr rows) before
            ∧ query chunk = inl e
      end.
Proof.
  intros query. apply (getSalesToday_totals query 2 ["1"; "2"; "3"]). lia.
Defined.

(** On those answers seller 1 has 125 and seller 2 has 50, in this
    order. *)
Example getSalesToday_sample :
  getSalesTodayForVendedorIds Db.PoolOk
    (λ chunk, inr (if bool_decide (chunk = ["1"; "2"])
                   then [("1", 100%float); ("2", 50%float)]
                   else [("1", 25%float)]))
    2 ["1"; "2"; "3"]
  = Some (inr [("1", 125%float); ("2", 50%float)]).
Proof. vm_compute. reflexivity. Qed.

(** The amounts are doubles, so the total depends on the order of the
    rows: [1] added twice to [2^53] is lost, [2^53] added to [2] is
    not. *)
Example total_of_order :
  total_of "1" large_first = Some 9007199254740992%float
  ∧ total_of "1" (rev large_first) = Some 9007199254740994%float
  ∧ add_rows large_first [] = [("1", 9007199254740992%float)]
  ∧ add_rows (rev large_first) [] = [("1", 9007199254740994%float)].
Proof. repeat split; vm_compute; reflexivity. Qed.

(** An amount that is [null] in the row, whose [parseFloat] is [NaN],
    counts as [0]; and a total that has become [NaN], here the sum of
    the two infinities, counts as [0] when the next amount is added. *)
Example total_of_nan :
  total_of "1" [("1", nan); ("1", 7%float)] = Some 7%float
  ∧ total_of "1" [("1", infinity); ("1", neg_infinity)] = Some nan
  ∧ total_of "1" [("1", infinity); ("1", neg_infinity); ("1", 7%float)] = Some 7%float.
Proof. repeat split; vm_compute; reflexivity. Qed.

End RankingTop.

(** ** The ranking handler: cache hits and answers *)

Section RankingAnswers.
Import RankingController.

Lemma run_success cfg key now w cells vendedores salesMap :
  w_pool w = Db.PoolOk →
  w_vendedores w = Some vendedores →
  List.filter Js.truthy (map v_id_new vendedores) ≠ [] →
  w_sales w = Some salesMap →
  salesMap ≠ [] →
  run cfg key now w 6 AtPool cells
  = Some (store key (ranking_of cfg key vendedores salesMap (default ∅ (w_fotos w)))
                now cells,
          ranking_of cfg key vendedores salesMap (default ∅ (w_fotos w))).
Proof.
  intros Hp Hv Hids Hs Hne.
  rewrite run_S. cbn [resume]. rewrite Hp.
  rewrite run_S. cbn [resume]. rewrite Hv.
  destruct (List.filter Js.truthy (map v_id_new vendedores)); [done|].
  rewrite run_S. cbn [resume]. rewrite Hs. destruct salesMap as [|s0 salesMap]; [done|].
  rewrite run_S. by cbn [resume].
Qed.

(** X21: once a request has made [updateRanking] build a ranking at
    time [now], a request for the same company that comes less than
    [CACHE_MS] later is answered with that ranking from the cache: no
    refresh starts, and cells, promises and waiting handlers stay as
    they are. *)
Theorem getRanking_served_from_cache cfg empresa now w m vendedores salesMap now' :
  is_fresh cfg now (cells m !! key_of cfg empresa) = None →
  in_flight (cells m !! key_of cfg empresa) = None →
  w_pool w = Db.PoolOk →
  w_vendedores w = Some vendedores →
  List.filter Js.truthy (map v_id_new vendedores) ≠ [] →
  w_sales w = Some salesMap →
  salesMap ≠ [] →
  now' - now < CACHE_MS cfg →
  let out := ranking_of cfg (key_of cfg empresa) vendedores salesMap
               (default ∅ (w_fotos w)) in
  let m1 := serve cfg empresa now w m in
  let m2 := getRanking cfg empresa now' m1 in
  (requests m, out) ∈ responses m1
  ∧ responses m2 = (requests m1, out) :: responses m1
  ∧ fetches m2 = fetches m1 ∧ tasks m2 = tasks m1 ∧ cells m2 = cells m1
  ∧ awaiting m2 = awaiting m1 ∧ resolved m2 = resolved m1.
Proof.
  intros Hf Hi Hp Hv Hids Hs Hne Hnow out m1 m2.
  destruct (serve_response cfg empresa now w m _ _ Hf Hi
              (run_success cfg (key_of cfg empresa) now w _ vendedores salesMap
                 Hp Hv Hids Hs Hne)) as [H1 H2].
  fold out in H1, H2. fold m1 in H1, H2.
  split; [done|].
  assert (Hc : cells m1 !! key_of cfg empresa = Some (Cell (Some out) now false None)).
  { rewrite H2. unfold release, store. rewrite lookup_insert_eq. cbn [data ts].
    by rewrite lookup_insert_eq. }
  unfold m2, getRanking. rewrite Hc. cbn [is_fresh].
  by destruct (Z.ltb_spec (now' - now) (CACHE_MS cfg)); [|lia].
Qed.

(** The first request of the sample fills the cache; a second one
    comes ten seconds later. *)
Lemma getRanking_served_from_cache_witness :
  let out := ranking_of cfg_default (key_of cfg_default "VIEIRACRED") sellers
               [("1", 10000); ("2", 25050); ("3", 25050)] (default ∅ (w_fotos world_up)) in
  let m1 := serve cfg_default "VIEIRACRED" 0 world_up initial in
  let m2 := getRanking cfg_default "VIEIRACRED" 10000 m1 in
  (requests initial, out) ∈ responses m1
  ∧ responses m2 = (requests m1, out) :: responses m1
  ∧ fetches m2 = fetches m1 ∧ tasks m2 = tasks m1 ∧ cells m2 = cells m1
  ∧ awaiting m2 = awaiting m1 ∧ resolved m2 = resolved m1.
Proof.
  apply (getRanking_served_from_cache cfg_default "VIEIRACRED" 0 world_up initial
           sellers [("1", 10000); ("2", 25050); ("3", 25050)] 10000);
    try reflexivity; discriminate.
Defined.

Lemma filter_split_perm {A} (f : A → bool) (l : list A) :
  List.filter f l ++ List.filter (λ x, negb (f x)) l ≡ₚ l.
Proof.
  induction l as [|x l IH]; [done|]. cbn [List.filter].
  destruct (f x); cbn [negb app].
  - by rewrite IH.
  - rewrite <- Permutation_middle. by rewrite IH.
Qed.

Lemma resume_promises cfg key now w ph cs cs' r :
  resume cfg key now w ph cs = (cs', r) →
  ∀ key' c' p, cs' !! key' = Some c' → fetchPromise c' = Some p →
    ∃ c, cs !! key' = Some c ∧ fetchPromise c = Some p.
Proof.
  assert (Hstore : ∀ out key' c' p,
    store key out now cs !! key' = Some c' → fetchPromise c' = Some p →
    ∃ c, cs !! key' = Some c ∧ fetchPromise c = Some p).
  { intros out key' c' p. unfold store.
    destruct (decide (key' = key)) as [->|Hne].
    - rewrite lookup_insert_eq. by intros [= <-].
    - rewrite lookup_insert_ne by done. eauto. }
  assert (Hcatch : ∀ cs' r, outer_catch key cs = (cs', r) →
    ∀ key' c' p, cs' !! key' = Some c' → fetchPromise c' = Some p →
    ∃ c, cs !! key' = Some c ∧ fetchPromise c = Some p).
  { intros cs1 r1. unfold outer_catch. destruct (cs !! key) as [c|] eqn:Ec.
    - assert (∀ key' c' p,
        <[key := Cell (data c) (ts c) false (fetchPromise c)]> cs !! key' = Some c' →
        fetchPromise c' = Some p → ∃ c0, cs !! key' = Some c0 ∧ fetchPromise c0 = Some p).
      { intros key' c' p. destruct (decide (key' = key)) as [->|Hne].
        - rewrite lookup_insert_eq. intros [= <-]. cbn. eauto.
        - rewrite lookup_insert_ne by done. eauto. }
      destruct (data c); by intros [= <- <-].
    - intros [= <- <-]. eauto. }
  unfold resume. destruct ph as [| |vs| |vs top|].
  - destruct (w_pool w); [intros [= <- <-]; eauto|apply Hcatch..].
  - destruct (w_vendedores w) as [vs|]; [|apply Hcatch].
    destruct (List.filter _ _); intros [= <- <-]; eauto.
  - destruct (w_sales w) as [[|s0 sm]|]; intros [= <- <-]; eauto.
  - destruct (w_persisted w).
    + destruct (cs !! key) as [[[d|] ? ? ?]|]; intros [= <- <-]; eauto.
    + intros [= <- <-]. eauto.
  - intros [= <- <-]. eauto.
  - intros [= <- <-]. eauto.
Qed.

Lemma seq_snoc_perm (n : nat) : seq 0 (S n) ≡ₚ n :: seq 0 n.
Proof.
  rewrite seq_S. cbn [plus]. by rewrite <- Permutation_cons_append.
Qed.

Lemma getRanking_accounted cfg empresa now m :
  accounted m → accounted (getRanking cfg empresa now m).
Proof.
  intros (Hperm & Haw & Hpr & Hcell).
  assert (Hanswer : ∀ d,
    accounted (Machine (cells m) (tasks m) (resolved m) (awaiting m)
                 ((requests m, d) :: responses m) (fetches m) (S (requests m)))).
  { intros d. split; [|done]. cbn [awaiting responses requests map fst].
    rewrite seq_snoc_perm, <- Permutation_middle. by rewrite Hperm. }
  unfold getRanking.
  destruct (is_fresh cfg now (cells m !! key_of cfg empresa)) as [d|]; [apply Hanswer|].
  destruct (in_flight (cells m !! key_of cfg empresa)) as [p|] eqn:Ei.
  - destruct (resolved m !! p) as [out|] eqn:Er; [apply Hanswer|].
    assert (Hp : is_Some (tasks m !! p)).
    { unfold in_flight in Ei.
      destruct (cells m !! key_of cfg empresa) as [[d t [] [p'|]]|] eqn:Ec; try done.
      injection Ei as ->.
      destruct (Hpr p) as [?|[? Hr]]; [by eapply Hcell| done |congruence]. }
    split; [|split; [|done]]; cbn [awaiting responses requests tasks].
    + rewrite map_app. cbn [map fst]. rewrite seq_snoc_perm.
      rewrite <- app_assoc. cbn [app].
      rewrite <- Permutation_middle. by rewrite Hperm.
    + intros r p' [H|H]%elem_of_app; [by eapply Haw|].
      apply list_elem_of_singleton in H. by injection H as -> ->.
  - split; [|split; [|split]];
      cbn [awaiting responses requests tasks fetches cells resolved].
    + rewrite map_app. cbn [map fst]. rewrite seq_snoc_perm.
      rewrite <- app_assoc. cbn [app].
      rewrite <- Permutation_middle. by rewrite Hperm.
    + intros r p' [H|H]%elem_of_app.
      * destruct (decide (p' = fetches m)) as [->|Hne].
        -- rewrite lookup_insert_eq. by eexists.
        -- rewrite lookup_insert_ne by done. by eapply Haw.
      * apply list_elem_of_singleton in H. injection H as -> ->.
        rewrite lookup_insert_eq. by eexists.
    + intros p' Hp'. destruct (decide (p' = fetches m)) as [->|Hne].
      * left. rewrite lookup_insert_eq. by eexists.
      * rewrite lookup_insert_ne by done. apply Hpr. lia.
    + intros key' c' p'. destruct (decide (key' = key_of cfg empresa)) as [->|Hne].
      * rewrite lookup_insert_eq. intros [= <-]. cbn. intros [= <-]. lia.
      * rewrite lookup_insert_ne by done. intros H1 H2.
        pose proof (Hcell _ _ _ H1 H2). lia.
Qed.

Lemma on_settle_accounted cfg p w now m :
  accounted m → accounted (on_settle cfg p w now m).
Proof.
  intros (Hperm & Haw & Hpr & Hcell). unfold on_settle.
  destruct (tasks m !! p) as [[key ph]|] eqn:Et; [|done].
  destruct (resume cfg key now w ph (cells m)) as [cs' [ph'|out]] eqn:Er.
  - split; [|split; [|split]];
      cbn [awaiting responses requests tasks fetches cells resolved].
    + done.
    + intros r p' H. destruct (decide (p' = p)) as [->|Hne].
      * rewrite lookup_insert_eq. by eexists.
      * rewrite lookup_insert_ne by done. by eapply Haw.
    + intros p' Hp'. destruct (decide (p' = p)) as [->|Hne].
      * left. rewrite lookup_insert_eq. by eexists.
      * rewrite lookup_insert_ne by done. by apply Hpr.
    + intros key' c' p' H1 H2.
      destruct (resume_promises _ _ _ _ _ _ _ _ Er _ _ _ H1 H2) as (c & H3 & H4).
      by eapply Hcell.
  - split; [|split; [|split]];
      cbn [awaiting responses requests tasks fetches cells resolved].
    + rewrite map_app, map_rev, map_map. cbn [fst].
      rewrite <- Hperm.
      rewrite <- (filter_split_perm (λ a, Nat.eqb (snd a) p) (awaiting m)) at 3.
      rewrite map_app. rewrite <- (Permutation_rev (map _ _)).
      rewrite !app_assoc. apply Permutation_app_tail. apply Permutation_app_comm.
    + intros r p' H. apply list_elem_of_In, filter_In in H as [H Hne].
      apply list_elem_of_In in H. cbn in Hne.
      rewrite lookup_delete_ne; [by eapply Haw|].
      intros <-. by rewrite Nat.eqb_refl in Hne.
    + intros p' Hp'. destruct (decide (p' = p)) as [->|Hne].
      * right. rewrite lookup_insert_eq. by eexists.
      * rewrite lookup_delete_ne, lookup_insert_ne by done. by apply Hpr.
    + intros key' c' p'. unfold release.
      destruct (cs' !! key) as [c|] eqn:Ec.
      * destruct (decide (key' = key)) as [->|Hne].
        -- rewrite lookup_insert_eq. by intros [= <-].
        -- rewrite lookup_insert_ne by done. intros H1 H2.
           destruct (resume_promises _ _ _ _ _ _ _ _ Er _ _ _ H1 H2) as (c0 & H3 & H4).
           by eapply Hcell.
      * intros H1 H2.
        destruct (resume_promises _ _ _ _ _ _ _ _ Er _ _ _ H1 H2) as (c0 & H3 & H4).
        by eapply Hcell.
Qed.

Lemma exec_accounted cfg es : ∀ m, accounted m → accounted (exec cfg es m).
Proof.
  induction es as [|e es IH]; intros m H; [done|].
  apply IH. destruct e; [by apply getRanking_accounted|by apply on_settle_accounted].
Qed.

(** X22: whatever requests arrive and however the refreshes proceed,
    no request of [getRanking] is answered twice, and once no refresh
    is pending no handler is left waiting: every request made so far
    has got its answer. *)
Theorem getRanking_answers_once cfg (es : list event) :
  let m := exec cfg es initial in
  NoDup (map fst (responses m))
  ∧ (∀ r out, (r, out) ∈ responses m → (r < requests m)%nat)
  ∧ (tasks m = ∅ →
     awaiting m = [] ∧ map fst (responses m) ≡ₚ seq 0 (requests m)).
Proof.
  intros m.
  assert (Hacc : accounted m).
  { apply exec_accounted. split; [done|]. split; [by intros ? ? ?%elem_of_nil|].
    split; [cbn; lia|]. intros key c p H. cbn in H. by rewrite lookup_empty in H. }
  destruct Hacc as (Hperm & Haw & _ & _).
  assert (Hnd : NoDup (map fst (awaiting m) ++ map fst (responses m))).
  { rewrite Hperm. apply NoDup_ListNoDup, List.seq_NoDup. }
  split; [by apply NoDup_app in Hnd as (_ & _ & ?)|]. split.
  - intros r out Hr.
    assert (Hin : r ∈ seq 0 (requests m)).
    { rewrite <- Hperm. apply elem_of_app. right.
      apply list_elem_of_In. apply (in_map fst _ (r, out)). by apply list_elem_of_In. }
    apply list_elem_of_In, in_seq in Hin. lia.
  - intros Ht.
    assert (Ha : awaiting m = []).
    { destruct (awaiting m) as [|[r p] l] eqn:Ea; [done|].
      destruct (Haw r p) as [x Hx]; [by left|].
      by rewrite Ht, lookup_empty in Hx. }
    split; [done|]. by rewrite Ha in Hperm.
Qed.

End RankingAnswers.

(** The race of the two requests, run to its end: both are answered. *)
Lemma getRanking_answers_once_witness :
  let m := RankingController.exec RankingController.cfg_default
             (RankingController.race ++ RankingController.race_end)
             RankingController.initial in
  RankingController.awaiting m = []
  ∧ map fst (RankingController.responses m) ≡ₚ seq 0 (RankingController.requests m).
Proof.
  intros m.
  apply (proj2 (proj2 (getRanking_answers_once RankingController.cfg_default
                         (RankingController.race ++ RankingController.race_end)))).
  vm_compute. reflexivity.
Defined.

(** ** The list of companies *)

Section EmpresaNames.
Import EmpresaController.

Lemma trimEnd_idem s : Js.trimEnd (Js.trimEnd s) = Js.trimEnd s.
Proof.
  induction s as [|c s IH]; [done|]. cbn [Js.trimEnd].
  destruct (Js.trimEnd s) as [|c' s'] eqn:E.
  - destruct (Js.is_white c) eqn:Ew; [done|]. cbn [Js.trimEnd]. by rewrite Ew.
  - cbn [Js.trimEnd]. cbn [Js.trimEnd] in IH. by rewrite IH.
Qed.

Lemma trimStart_head s :
  match Js.trimStart s with
  | String c _ => Js.is_white c = false
  | EmptyString => True
  end.
Proof.
  induction s as [|c s IH]; [done|]. cbn [Js.trimStart].
  by destruct (Js.is_white c) eqn:E.
Qed.

Lemma trimEnd_head c s :
  Js.is_white c = false → ∃ s', Js.trimEnd (String c s) = String c s'.
Proof.
  intros Hc. cbn [Js.trimEnd]. destruct (Js.trimEnd s); [rewrite Hc|]; eauto.
Qed.

(** [trim] does nothing to a string that is already trimmed. *)
Lemma trim_idem s : Js.trim (Js.trim s) = Js.trim s.
Proof.
  unfold Js.trim. pose proof (trimStart_head s) as H.
  destruct (Js.trimStart s) as [|c r] eqn:E; [done|].
  destruct (trimEnd_head c r H) as [s' Hs']. rewrite Hs'.
  cbn [Js.trimStart]. rewrite H. rewrite <- Hs'. apply trimEnd_idem.
Qed.

(** X23: a refresh that reads the companies serves their names
    trimmed, without the empty ones, in the order of the rows: no name
    served is empty or has white space around it; and a request that
    comes less than [CACHE_MS] later is answered with the same list
    from the cache, without a refresh. *)
Theorem getEmpresas_names cfg now w m rows now' :
  is_fresh cfg now (empresasCache m) = None →
  in_flight (empresasCache m) = None →
  w_pool w = Db.PoolOk →
  w_empresas w = Some rows →
  now' - now < CACHE_MS cfg →
  let out := List.filter Js.truthy (map Js.trim rows) in
  let m1 := serve cfg now w m in
  (requests m, out) ∈ responses m1
  ∧ Forall (λ x, x ≠ "" ∧ Js.trim x = x) out
  ∧ responses (getEmpresas cfg now' m1) = (requests m1, out) :: responses m1
  ∧ fetches (getEmpresas cfg now' m1) = fetches m1
  ∧ tasks (getEmpresas cfg now' m1) = tasks m1.
Proof.
  intros Hf Hi Hp Hr Hnow out m1.
  destruct (empresa_serve_response cfg now w m (Cell (Some out) now false None) out
              Hf Hi) as (H1 & H2 & _).
  { cbn [run resume]. rewrite Hp. cbn [run resume]. by rewrite Hr. }
  fold m1 in H1, H2. split; [done|]. split.
  - apply List.Forall_forall. intros x Hx. apply filter_In in Hx as [Hx Ht].
    apply in_map_iff in Hx as (y & <- & _). split; [|apply trim_idem].
    by apply truthy_true.
  - unfold getEmpresas. rewrite H2. unfold is_fresh. cbn [data ts].
    by destruct (Z.ltb_spec (now' - now) (CACHE_MS cfg)); [|lia].
Qed.

(** The sample rows: one name with blanks around it and one empty. *)
Lemma getEmpresas_names_witness :
  let out := List.filter Js.truthy (map Js.trim ["VIEIRACRED"; " ACME "; ""]) in
  let m1 := serve cfg_default 1000 world_up initial in
  (requests initial, out) ∈ responses m1
  ∧ Forall (λ x, x ≠ "" ∧ Js.trim x = x) out
  ∧ responses (getEmpresas cfg_default 2000 m1) = (requests m1, out) :: responses m1
  ∧ fetches (getEmpresas cfg_default 2000 m1) = fetches m1
  ∧ tasks (getEmpresas cfg_default 2000 m1) = tasks m1.
Proof.
  apply (getEmpresas_names cfg_default 1000 world_up initial
           ["VIEIRACRED"; " ACME "; ""] 2000); reflexivity.
Defined.

End EmpresaNames.

(** ** After a refresh of the companies that failed *)

Section EmpresaRecovery.
Import EmpresaController.

(** X24: when the refresh of [getEmpresas] fails, the request is
    answered with the list cached before, or the empty list, and the
    promise of that refresh stays in the cache; but it is never awaited
    again: the next request that finds nothing fresh starts a refresh
    of its own and awaits the new promise. *)
Theorem getEmpresas_after_failure cfg now w m now' :
  is_fresh cfg now (empresasCache m) = None →
  in_flight (empresasCache m) = None →
  w_pool w ≠ Db.PoolOk ∨ w_empresas w = None →
  is_fresh cfg now' (empresasCache m) = None →
  let m1 := serve cfg now w m in
  let m2 := getEmpresas cfg now' m1 in
  (requests m, default [] (data (empresasCache m))) ∈ responses m1
  ∧ fetchPromise (empresasCache m1) = Some (fetches m)
  ∧ fetches m2 = S (fetches m1)
  ∧ tasks m2 !! fetches m1 = Some AtPool
  ∧ awaiting m2 = awaiting m1 ++ [(requests m1, fetches m1)]
  ∧ fetchPromise (empresasCache m2) = Some (fetches m1).
Proof.
  intros Hf Hi Hw Hf' m1 m2.
  pose proof (updateEmpresas_fails now w
                (Cell (data (empresasCache m)) (ts (empresasCache m))
                   true (Some (fetches m))) Hw) as Hrun.
  destruct (empresa_serve_response cfg now w m _ _ Hf Hi Hrun) as (H1 & H2 & _).
  fold m1 in H1, H2. cbn [data ts fetchPromise] in H1, H2.
  split; [exact H1|]. split; [by rewrite H2|].
  unfold m2, getEmpresas. rewrite H2.
  assert (Hfr : is_fresh cfg now' (Cell (data (empresasCache m)) (ts (empresasCache m))
                                      false (Some (fetches m))) = None) by exact Hf'.
  rewrite Hfr. cbn [in_flight isFetching].
  cbn [fetches tasks awaiting empresasCache fetchPromise].
  split; [done|]. split; [by rewrite lookup_insert_eq|done].
Qed.

(** The cold start with the database down, and a second request. *)
Lemma getEmpresas_after_failure_witness :
  let m1 := serve cfg_default 1000 world_down initial in
  let m2 := getEmpresas cfg_default 2000 m1 in
  (requests initial, default [] (data (empresasCache initial))) ∈ responses m1
  ∧ fetchPromise (empresasCache m1) = Some (fetches initial)
  ∧ fetches m2 = S (fetches m1)
  ∧ tasks m2 !! fetches m1 = Some AtPool
  ∧ awaiting m2 = awaiting m1 ++ [(requests m1, fetches m1)]
  ∧ fetchPromise (empresasCache m2) = Some (fetches m1).
Proof.
  apply (getEmpresas_after_failure cfg_default 1000 world_down initial 2000);
    try reflexivity.
  left. discriminate.
Defined.

End EmpresaRecovery.

(** ** The Argus service: retries and the cache *)

Section ArgusRetries.
Import ArgusService.
Context {D : Type}.

Lemma request_go_spec cfg (max : Z) (resps : nat → answer D * Z) :
  ∀ fuel attempt (c : CacheService.t D) s c' n,
  Z.of_nat (fuel + attempt) = Z.max max 0 →
  request_go cfg max resps fuel attempt c = (s, c', n) →
  (n ≤ fuel)%nat
  ∧ (∀ k, (S k < n)%nat → ∃ e, attempt_outcome (fst (resps (attempt + k)%nat)) = inl e)
  ∧ match s with
    | Js.Resolved (Some r) =>
        (0 < n)%nat
        ∧ attempt_outcome (fst (resps (attempt + pred n)%nat)) = inr (r_data r)
        ∧ r_cached r = false
        ∧ r_timestamp r = snd (resps (attempt + pred n)%nat)
        ∧ c' = CacheService.set (snd (resps (attempt + pred n)%nat)) CACHE_KEY
                 (r_data r) (Some (CACHE_DURATION cfg)) c
    | Js.Resolved None => fuel = O ∧ n = O ∧ c' = c
    | Js.Rejected e =>
        (0 < n)%nat ∧ Z.of_nat (attempt + n) = max
        ∧ attempt_outcome (fst (resps (attempt + pred n)%nat)) = inl e ∧ c' = c
    end.
Proof.
  induction fuel as [|fuel IH]; intros attempt c s c' n Hmax; cbn [request_go].
  - intros [= <- <- <-]. split; [lia|]. split; [intros; lia|done].
  - destruct (resps attempt) as [a now] eqn:Ea.
    destruct (attempt_outcome a) as [e|d] eqn:Eo.
    + destruct (Z.ltb_spec (Z.of_nat attempt + 1) max) as [Hlt|Hge].
      * destruct (request_go cfg max resps fuel (S attempt) c) as [[r1 c1] n1] eqn:Eg.
        intros [= <- <- <-].
        apply IH in Eg as (Hn & Hk & Hs); [|lia].
        split; [lia|]. split.
        -- intros [|k] Hlt'.
           ++ rewrite Nat.add_0_r, Ea. eauto.
           ++ replace (attempt + S k)%nat with (S attempt + k)%nat by lia.
              apply Hk. lia.
        -- destruct r1 as [[r|]|e1].
           ++ destruct Hs as (H0 & H1 & H2 & H3 & H4).
              replace (attempt + pred (S n1))%nat with (S attempt + pred n1)%nat by lia.
              split; [lia|done].
           ++ destruct Hs as (H0 & _). lia.
           ++ destruct Hs as (H0 & H1 & H2 & H3).
              replace (attempt + pred (S n1))%nat with (S attempt + pred n1)%nat by lia.
              split; [lia|]. split; [lia|done].
      * intros [= <- <- <-]. split; [lia|]. split; [intros; lia|].
        cbn [pred]. rewrite Nat.add_0_r, Ea. split; [lia|]. split; [lia|done].
    + intros [= <- <- <-]. split; [lia|]. split; [intros; lia|].
      cbn [pred r_data r_cached r_timestamp]. rewrite Nat.add_0_r, Ea.
      split; [lia|done].
Qed.

(** X25: [requestArgusData] sends at most [MAX_RETRIES] requests and
    another one only after a failed attempt.  It resolves with the
    first good body, not from the cache, and stores that body in the
    cache for [CACHE_DURATION]; it rejects, with the error of the last
    attempt and without touching the cache, only after [MAX_RETRIES]
    failed attempts; and for a [MAX_RETRIES] that is not positive it
    resolves with [undefined] without sending anything. *)
Theorem requestArgusData_attempts cfg (max : Z) (resps : nat → answer D * Z)
    (c : CacheService.t D) :
  let '(s, c', n) := requestArgusData cfg max resps c in
  Z.of_nat n ≤ Z.max max 0
  ∧ (∀ k, (S k < n)%nat → ∃ e, attempt_outcome (fst (resps k)) = inl e)
  ∧ match s with
    | Js.Resolved (Some r) =>
        (0 < n)%nat
        ∧ attempt_outcome (fst (resps (pred n))) = inr (r_data r)
        ∧ r_cached r = false
        ∧ r_timestamp r = snd (resps (pred n))
        ∧ c' = CacheService.set (snd (resps (pred n))) CACHE_KEY (r_data r)
                 (Some (CACHE_DURATION cfg)) c
    | Js.Resolved None => max ≤ 0 ∧ n = O ∧ c' = c
    | Js.Rejected e =>
        Z.of_nat n = max ∧ 0 < max
        ∧ attempt_outcome (fst (resps (pred n))) = inl e ∧ c' = c
    end.
Proof.
  unfold requestArgusData.
  destruct (request_go cfg max resps (Z.to_nat max) 0 c) as [[s c'] n] eqn:E.
  apply request_go_spec in E as (Hn & Hk & Hs); [|lia].
  split; [lia|]. split; [exact Hk|].
  destruct s as [[r|]|e].
  - destruct Hs as (H0 & H1 & H2 & H3 & H4). cbn [plus] in *.
    done.
  - destruct Hs as (H0 & H1 & H2). split; [lia|done].
  - destruct Hs as (H0 & H1 & H2 & H3). cbn [plus] in *. split; [lia|]. split; [lia|done].
Qed.

(** X26: once the request of a call has succeeded at time [now], a
    call of [fetchArgusData] made no later than [CACHE_DURATION] after
    it resolves at once with that body, marked as cached, and sends
    nothing to Argus; with [force] it sends a new request. *)
Theorem fetchArgusData_cached_after_success cfg (m : machine D) (c : nat) (d : D)
    (now now' : Z) :
  c ∈ running m →
  now' - now ≤ CACHE_DURATION cfg →
  let m1 := fetchArgusData_done cfg c (inr d) now m in
  let m2 := fetchArgusData false now' m1 in
  outcomes m2 = (calls m1, Js.Resolved (Result d true now')) :: outcomes m1
  ∧ upstream m2 = upstream m1
  ∧ isFetching m2 = false
  ∧ running m2 = running m1
  ∧ upstream (fetchArgusData true now' m1) = S (upstream m1).
Proof.
  intros Hc Hnow m1 m2.
  assert (Hget : fst (CacheService.get now' CACHE_KEY (cache m1)) = Some d).
  { unfold m1, fetchArgusData_done. rewrite bool_decide_eq_true_2 by done.
    cbn [cache]. rewrite get_after_set.
    by destruct (Z.leb_spec (now' - now) (CACHE_DURATION cfg)); [|lia]. }
  assert (Hfl : isFetching m1 = false).
  { unfold m1, fetchArgusData_done. by rewrite bool_decide_eq_true_2 by done. }
  unfold m2, fetchArgusData.
  destruct (CacheService.get now' CACHE_KEY (cache m1)) as [cached cache'].
  cbn [fst] in Hget. subst cached. cbn [outcomes upstream isFetching running].
  rewrite Hfl. done.
Qed.

End ArgusRetries.

(** A call whose request succeeds at time 1000, then a call 15 s
    later. *)
Lemma fetchArgusData_cached_after_success_witness :
  let cfg := ArgusService.Config 15000 in
  let m := ArgusService.fetchArgusData false 0 (ArgusService.initial 60000) in
  let m1 := ArgusService.fetchArgusData_done cfg 0 (inr 7%nat) 1000 m in
  let m2 := ArgusService.fetchArgusData false 16000 m1 in
  ArgusService.outcomes m2
  = (ArgusService.calls m1, Js.Resolved (ArgusService.Result 7%nat true 16000))
    :: ArgusService.outcomes m1
  ∧ ArgusService.upstream m2 = ArgusService.upstream m1
  ∧ ArgusService.isFetching m2 = false
  ∧ ArgusService.running m2 = ArgusService.running m1
  ∧ ArgusService.upstream (ArgusService.fetchArgusData true 16000 m1)
    = S (ArgusService.upstream m1).
Proof.
  intros cfg m.
  apply (fetchArgusData_cached_after_success cfg m 0%nat 7%nat 1000 16000).
  - vm_compute. by left.
  - vm_compute. discriminate.
Defined.

(** ** The update service: retries and counters *)

Section UpdateServiceFacts.
Import UpdateService.
Context {R : Type}.

Lemma randJitter_bounds (rnd : Z * Z) (maxMs : Z) :
  0 ≤ fst rnd < snd rnd → 0 < maxMs → 0 ≤ randJitter rnd maxMs < maxMs.
Proof.
  intros [H0 H1] Hm. unfold randJitter. split.
  - apply Z.div_pos; nia.
  - apply Z.div_lt_upper_bound; nia.
Qed.

Lemma retry_go_spec (o : opts) (fn : nat → Js.settled R) (rnd : nat → Z * Z) :
  ∀ fuel attempt res sleeps,
  Z.of_nat (fuel + attempt) = Z.max (retries o + 1) 0 →
  retry_go o fn rnd fuel attempt = (res, sleeps) →
  match res with
  | Ok r k =>
      Z.of_nat attempt + 1 ≤ k ≤ retries o + 1
      ∧ fn (Z.to_nat (k - 1)) = Js.Resolved r
      ∧ (∀ i, (attempt ≤ i)%nat → Z.of_nat i < k - 1 → ∃ e, fn i = Js.Rejected e)
      ∧ Z.of_nat (length sleeps) = k - 1 - Z.of_nat attempt
  | Fail e k =>
      (fuel = O ∧ k = Z.of_nat attempt ∧ sleeps = [])
      ∨ (k = retries o + 1 ∧ Z.of_nat attempt < k
         ∧ fn (Z.to_nat (k - 1)) = Js.Rejected e
         ∧ (∀ i, (attempt ≤ i)%nat → Z.of_nat i < k → ∃ e', fn i = Js.Rejected e')
         ∧ Z.of_nat (length sleeps) = k - 1 - Z.of_nat attempt)
  end
  ∧ ∀ i s, sleeps !! i = Some s →
      s = 2 ^ Z.of_nat (attempt + i) * retryBaseMs o
          + (if jitter o
             then randJitter (rnd (attempt + i)%nat)
                    (Z.min 500 (2 ^ Z.of_nat (attempt + i) * retryBaseMs o))
             else 0).
Proof.
  induction fuel as [|fuel IH]; intros attempt res sleeps Hf; cbn [retry_go].
  - intros [= <- <-]. split; [by left|]. by intros i s ?.
  - destruct (fn attempt) as [r|e] eqn:Efn.
    + intros [= <- <-]. split; [|by intros i s ?].
      replace (Z.to_nat (Z.of_nat attempt + 1 - 1)) with attempt by lia.
      split; [lia|]. split; [done|]. split; [intros; lia|]. cbn. lia.
    + destruct (Z.gtb_spec (Z.of_nat attempt + 1) (retries o)) as [Hgt|Hle].
      * intros [= <- <-]. split; [|by intros i s ?]. right.
        replace (Z.to_nat (Z.of_nat attempt + 1 - 1)) with attempt by lia.
        split; [lia|]. split; [lia|]. split; [done|]. split; [|cbn; lia].
        intros i Hi1 Hi2. assert (i = attempt) as -> by lia. eauto.
      * destruct (retry_go o fn rnd fuel (S attempt)) as [res1 sl1] eqn:Eg.
        intros [= <- <-]. apply IH in Eg as [H1 H2]; [|lia]. split.
        -- destruct res1 as [r k|e1 k].
           ++ destruct H1 as (Hk & Hr & Hall & Hlen).
              split; [lia|]. split; [done|]. split; [|cbn [length]; lia].
              intros i Hi1 Hi2. destruct (decide (i = attempt)) as [->|Hne]; [eauto|].
              apply Hall; lia.
           ++ destruct H1 as [(Hfuel & _)|(Hk & Hlt & Hr & Hall & Hlen)]; [lia|].
              right. split; [done|]. split; [lia|]. split; [done|].
              split; [|cbn [length]; lia].
              intros i Hi1 Hi2. destruct (decide (i = attempt)) as [->|Hne]; [eauto|].
              apply Hall; lia.
        -- intros [|i] s Hs.
           ++ injection Hs as <-. rewrite Nat.add_0_r.
              by replace (Z.of_nat attempt + 1 - 1) with (Z.of_nat attempt) by lia.
           ++ cbn in Hs. rewrite (H2 i s Hs).
              by replace (S attempt + i)%nat with (attempt + S i)%nat by lia.
Qed.

(** X27: [runWithRetry] calls [fn] at most [retries + 1] times and
    again only after a rejection.  It reports success with the value
    of the first call that resolves, and failure with the error of
    call [retries + 1] when all of them reject; for negative [retries]
    it never calls [fn] and reports failure.  It sleeps once between
    two calls: before call [i + 2] the delay is [2^i * retryBaseMs]
    plus a jitter that is at least [0] and less than both [500] and
    that delay, and no jitter when the option is off. *)
Theorem runWithRetry_attempts (o : opts) (fn : nat → Js.settled R)
    (rnd : nat → Z * Z) :
  (∀ n, 0 ≤ fst (rnd n) < snd (rnd n)) →
  0 < retryBaseMs o →
  let '(res, sleeps) := runWithRetry o fn rnd in
  0 ≤ retry_attempts res ≤ Z.max (retries o + 1) 0
  ∧ match res with
    | Ok r k =>
        1 ≤ k ∧ fn (Z.to_nat (k - 1)) = Js.Resolved r
        ∧ ∀ i, Z.of_nat i < k - 1 → ∃ e, fn i = Js.Rejected e
    | Fail e k =>
        (retries o < 0 ∧ k = 0)
        ∨ (0 ≤ retries o ∧ k = retries o + 1
           ∧ fn (Z.to_nat (retries o)) = Js.Rejected e
           ∧ ∀ i, Z.of_nat i ≤ retries o → ∃ e', fn i = Js.Rejected e')
    end
  ∧ Z.of_nat (length sleeps) = Z.max (retry_attempts res - 1) 0
  ∧ ∀ i s, sleeps !! i = Some s →
      2 ^ Z.of_nat i * retryBaseMs o ≤ s
      ∧ s < 2 ^ Z.of_nat i * retryBaseMs o + Z.min 500 (2 ^ Z.of_nat i * retryBaseMs o)
      ∧ (jitter o = false → s = 2 ^ Z.of_nat i * retryBaseMs o).
Proof.
  intros Hrnd Hbase. unfold runWithRetry.
  destruct (retry_go o fn rnd (Z.to_nat (retries o + 1)) 0) as [res sleeps] eqn:E.
  apply retry_go_spec in E as [H1 H2]; [|lia].
  assert (Hsl : ∀ i s, sleeps !! i = Some s →
      2 ^ Z.of_nat i * retryBaseMs o ≤ s
      ∧ s < 2 ^ Z.of_nat i * retryBaseMs o + Z.min 500 (2 ^ Z.of_nat i * retryBaseMs o)
      ∧ (jitter o = false → s = 2 ^ Z.of_nat i * retryBaseMs o)).
  { intros i s Hs. rewrite (H2 i s Hs). cbn [plus].
    assert (0 < 2 ^ Z.of_nat i) by (apply Z.pow_pos_nonneg; lia).
    assert (0 < 2 ^ Z.of_nat i * retryBaseMs o) by nia.
    destruct (jitter o).
    - pose proof (randJitter_bounds (rnd i)
                    (Z.min 500 (2 ^ Z.of_nat i * retryBaseMs o)) (Hrnd i)) as Hj.
      split; [lia|]. split; [lia|done].
    - split; [lia|]. split; [lia|]. intros _. lia. }
  destruct res as [r k|e k]; cbn [retry_attempts].
  - destruct H1 as (Hk & Hr & Hall & Hlen).
    split; [lia|]. split; [|split; [lia|done]].
    split; [lia|]. split; [done|]. intros i Hi. apply Hall; lia.
  - destruct H1 as [(Hfuel & -> & ->)|(Hk & Hlt & Hr & Hall & Hlen)].
    + split; [lia|]. split; [left; lia|]. split; [done|]. by intros i s ?.
    + split; [lia|]. split; [|split; [lia|done]].
      right. split; [lia|]. split; [done|]. split.
      * by replace (retries o) with (k - 1) by lia.
      * intros i Hi. apply Hall; lia.
Qed.

Lemma runWithRetry_first (o : opts) (fn : nat → Js.settled R) (rnd : nat → Z * Z) r :
  fn O = Js.Resolved r → 0 ≤ retries o → runWithRetry o fn rnd = (Ok r 1, []).
Proof.
  intros Hfn Hr. unfold runWithRetry.
  destruct (Z.to_nat (retries o + 1)) as [|fuel] eqn:E; [lia|].
  cbn [retry_go]. by rewrite Hfn.
Qed.

Lemma runJobNow_start_balanced name (jobs : gmap string job) :
  (∀ n j, jobs !! n = Some j → balanced j) →
  ∀ n j, snd (runJobNow_start name jobs) !! n = Some j → balanced j.
Proof.
  intros H n j. unfold runJobNow_start.
  destruct (jobs !! name) as [j0|] eqn:E; [|apply H].
  destruct (isRunning j0) eqn:Er; [apply H|]. cbn [snd].
  destruct (decide (n = name)) as [->|Hne].
  - rewrite lookup_insert_eq. intros [= <-].
    destruct (H _ _ E) as (H1 & H2 & H3). rewrite Er in H1.
    unfold balanced. cbn. lia.
  - rewrite lookup_insert_ne by done. apply H.
Qed.

Lemma runJobNow_end_balanced name (res : retry_result R) (jobs : gmap string job) j0 :
  jobs !! name = Some j0 → isRunning j0 = true →
  (∀ n j, jobs !! n = Some j → balanced j) →
  ∀ n j, snd (runJobNow_end name res jobs) !! n = Some j → balanced j.
Proof.
  intros E Er H n j. unfold runJobNow_end. rewrite E. cbn [snd].
  destruct (decide (n = name)) as [->|Hne].
  - rewrite lookup_insert_eq. intros [= <-].
    destruct (H _ _ E) as (H1 & H2 & H3). rewrite Er in H1.
    unfold balanced. destruct res; cbn; lia.
  - rewrite lookup_insert_ne by done. apply H.
Qed.

Lemma exec_balanced (es : list (event R)) : ∀ jobs : gmap string job,
  (∀ n j, jobs !! n = Some j → balanced j) →
  ∀ n j, exec es jobs !! n = Some j → balanced j.
Proof.
  induction es as [|e es IH]; intros jobs H; [exact H|].
  apply IH. destruct e as [name|name res]; cbn [step].
  - by apply runJobNow_start_balanced.
  - destruct (jobs !! name) as [j0|] eqn:E; [|done].
    destruct (isRunning j0) eqn:Er; [|done].
    by eapply runJobNow_end_balanced.
Qed.

(** X28: for jobs made by [registerJob], whatever calls of [runJobNow]
    are made and however the runs end, the counter [runs] of a job is
    the number of its runs that succeeded plus the number that failed,
    plus one while a run is under way; a call made while the job runs
    changes nothing, so no job has two runs under way. *)
Theorem runJobNow_counters (regs : list (string * opts)) (es : list (event R))
    (name : string) (j : job) :
  exec es (foldr (λ r, registerJob (fst r) (snd r)) ∅ regs) !! name = Some j →
  balanced j
  ∧ (isRunning j = true →
     runJobNow_start name (exec es (foldr (λ r, registerJob (fst r) (snd r)) ∅ regs))
     = (AlreadyRunning, exec es (foldr (λ r, registerJob (fst r) (snd r)) ∅ regs))).
Proof.
  intros H. split.
  - revert H. apply exec_balanced. clear. induction regs as [|[n0 o0] regs IH].
    + intros n j H. cbn in H. by rewrite lookup_empty in H.
    + intros n j. cbn [foldr fst snd]. unfold registerJob at 1.
      destruct (decide (n = n0)) as [->|Hne].
      * rewrite lookup_insert_eq. intros [= <-]. unfold balanced. cbn. lia.
      * rewrite lookup_insert_ne by done. apply IH.
  - intros Hr. unfold runJobNow_start. by rewrite H, Hr.
Qed.

End UpdateServiceFacts.

(** The job [status] during its second run, the first having failed
    after four attempts. *)
Lemma runJobNow_counters_witness :
  let o := UpdateService.Opts 3 500 true in
  let es : list (UpdateService.event nat) :=
    [UpdateService.Run "status";
     UpdateService.Finish "status" (UpdateService.Fail (Js.mkError "x") 4);
     UpdateService.Run "status"; UpdateService.Run "status"] in
  let jobs := UpdateService.exec es
                (foldr (λ r, UpdateService.registerJob (fst r) (snd r)) ∅ [("status", o)]) in
  let j := UpdateService.Job true (UpdateService.Metrics (Some "x") 2 0 1 4) o in
  UpdateService.balanced j
  ∧ (UpdateService.isRunning j = true →
     UpdateService.runJobNow_start "status" jobs = (UpdateService.AlreadyRunning, jobs)).
Proof.
  intros o es jobs j.
  apply (runJobNow_counters [("status", o)] es "status" j).
  vm_compute. reflexivity.
Defined.

(** Three retries of half a second, a call that resolves at the third
    attempt. *)
Lemma runWithRetry_attempts_witness :
  let o := UpdateService.Opts 3 500 true in
  let fn := λ n : nat,
    match n with
    | 2%nat => Js.Resolved 7%nat
    | _ => Js.Rejected (Js.mkError "x")
    end in
  let rnd := λ _ : nat, (1, 4) in
  let '(res, sleeps) := UpdateService.runWithRetry o fn rnd in
  0 ≤ UpdateService.retry_attempts res ≤ Z.max (UpdateService.retries o + 1) 0
  ∧ match res with
    | UpdateService.Ok r k =>
        1 ≤ k ∧ fn (Z.to_nat (k - 1)) = Js.Resolved r
        ∧ ∀ i, Z.of_nat i < k - 1 → ∃ e, fn i = Js.Rejected e
    | UpdateService.Fail e k =>
        (UpdateService.retries o < 0 ∧ k = 0)
        ∨ (0 ≤ UpdateService.retries o ∧ k = UpdateService.retries o + 1
           ∧ fn (Z.to_nat (UpdateService.retries o)) = Js.Rejected e
           ∧ ∀ i, Z.of_nat i ≤ UpdateService.retries o → ∃ e', fn i = Js.Rejected e')
    end
  ∧ Z.of_nat (length sleeps) = Z.max (UpdateService.retry_attempts res - 1) 0
  ∧ ∀ i s, sleeps !! i = Some s →
      2 ^ Z.of_nat i * UpdateService.retryBaseMs o ≤ s
      ∧ s < 2 ^ Z.of_nat i * UpdateService.retryBaseMs o
            + Z.min 500 (2 ^ Z.of_nat i * UpdateService.retryBaseMs o)
      ∧ (UpdateService.jitter o = false → s = 2 ^ Z.of_nat i * UpdateService.retryBaseMs o).
Proof.
  intros o fn rnd.
  apply (runWithRetry_attempts o fn rnd).
  - intros n. cbn. lia.
  - cbn. lia.
Defined.

Section DefaultJobs.
Import UpdateService.

Lemma updateStatusOperadores_resolves cfg t w s out s' :
  StatusController.updateStatusOperadores cfg t w s = Some (out, s') →
  ∃ r, out = Js.Resolved r.
Proof.
  unfold StatusController.updateStatusOperadores.
  destruct (StatusController.update_guard cfg t s); [intros [= <- _]; eauto|].
  destruct (StatusController.update_try _ _ _) as [[[e|r] s1]|]; [| |done].
  - destruct (StatusController.update_catch w e s1) as [r s2]. intros [= <- _]. eauto.
  - intros [= <- _]. eauto.
Qed.

(** X29: the job [status] that [scheduleDefaultJobs] registers never
    uses its retries: [updateStatusOperadores] resolves even when the
    refresh failed, so [runWithRetry] makes one attempt, sleeps never
    and reports success, and [runJobNow] counts a success, clears
    [lastError] and leaves [failures] as it was. *)
Theorem status_job_single_attempt cfg t w s out s' (o : opts)
    (fn : nat → Js.settled StatusController.update_result) (rnd : nat → Z * Z) :
  StatusController.updateStatusOperadores cfg t w s = Some (out, s') →
  fn O = out →
  0 ≤ retries o →
  ∃ r, out = Js.Resolved r
    ∧ runWithRetry o fn rnd = (Ok r 1, [])
    ∧ ∀ name jobs j, jobs !! name = Some j →
        fst (runJobNow_end name (Ok r 1) jobs) = inr r
        ∧ snd (runJobNow_end name (Ok r 1) jobs) !! name
          = Some (Job false
                    (Metrics None (runs (j_metrics j)) (successes (j_metrics j) + 1)
                       (failures (j_metrics j)) (attempts (j_metrics j) + 1))
                    (j_opts j)).
Proof.
  intros Hu Hfn Hr.
  destruct (updateStatusOperadores_resolves _ _ _ _ _ _ Hu) as [r ->].
  exists r. split; [done|]. split; [by apply runWithRetry_first|].
  intros name jobs j Hj. unfold runJobNow_end. rewrite Hj. cbn [fst snd].
  by rewrite lookup_insert_eq.
Qed.

(** The database is down: the refresh fails and the job succeeds. *)
Lemma status_job_single_attempt_witness :
  let o := Opts 3 500 true in
  let out := Js.Resolved (StatusController.Failed
               "Não foi possível conectar colaboradores: timeout") in
  let fn := λ _ : nat, out in
  ∃ r, out = Js.Resolved r
    ∧ runWithRetry o fn (λ _, (0, 1)) = (Ok r 1, [])
    ∧ ∀ name jobs j, jobs !! name = Some j →
        fst (runJobNow_end name (Ok r 1) jobs) = inr r
        ∧ snd (runJobNow_end name (Ok r 1) jobs) !! name
          = Some (Job false
                    (Metrics None (runs (j_metrics j)) (successes (j_metrics j) + 1)
                       (failures (j_metrics j)) (attempts (j_metrics j) + 1))
                    (j_opts j)).
Proof.
  intros o out fn.
  eapply (status_job_single_attempt StatusController.cfg_default 0
            StatusController.world_pool_down StatusController.initial_state
            out _ o fn (λ _, (0, 1))).
  - vm_compute. reflexivity.
  - reflexivity.
  - vm_compute. discriminate.
Defined.

End DefaultJobs.

(** ** The base URL of the front end *)

Section ApiFacts.
Import Api.

Lemma strip_trailing_slashes_end s :
  Js.endsWith "/" (strip_trailing_slashes s) = false.
Proof.
  induction s as [|c s IH]; [done|]. cbn [strip_trailing_slashes].
  destruct (strip_trailing_slashes s) as [|c' r'] eqn:E.
  - destruct (Ascii.eqb c "/") eqn:Ec; [done|].
    cbn [Js.endsWith String.eqb]. by rewrite Ascii.eqb_sym, Ec.
  - change (Js.endsWith "/" (String c (String c' r')))
      with (if String.eqb "/" (String c (String c' r')) then true
            else Js.endsWith "/" (String c' r')).
    rewrite IH. cbn [String.eqb]. by destruct (Ascii.eqb "/" c).
Qed.

(** X30: the base URL never ends with a slash, whatever the
    environment holds; [apiUrl] of no path is the base; and for a path
    the result is the base, one slash and the path, the leading slash
    of the path being optional. *)
Theorem apiUrl_joins (env path : string) :
  Js.endsWith "/" (API_BASE_URL env) = false
  ∧ apiUrl env "" = API_BASE_URL env
  ∧ apiUrl env ("/" +:+ path) = API_BASE_URL env +:+ "/" +:+ path
  ∧ (Js.startsWith "/" path = false → path ≠ "" →
     apiUrl env path = apiUrl env ("/" +:+ path)).
Proof.
  split; [|split; [|split]].
  - unfold API_BASE_URL. destruct (Js.truthy (Js.trim env)).
    + apply strip_trailing_slashes_end.
    + by vm_compute.
  - done.
  - done.
  - intros Hs Hne. unfold apiUrl. rewrite Hs.
    destruct path; [done|]. done.
Qed.

End ApiFacts.

(** A path without its leading slash. *)
Lemma apiUrl_joins_witness :
  Api.apiUrl "" "ranking" = Api.apiUrl "" ("/" +:+ "ranking").
Proof.
  apply (proj2 (proj2 (proj2 (apiUrl_joins "" "ranking")))).
  - reflexivity.
  - discriminate.
Defined.
